(** * Block-sparse mask preprocessing: [sparsify_mask]

    A shallow embedding of the function [sparsify_mask] of the notebook
    docs/pallas/tpu/sparse.ipynb, and the properties of its five outputs:
    the block mask, the three prefetch maps and the stacked mask data.

    Python integers that are sizes, loop indices or list positions are
    [nat] (block sizes are taken non-negative); the values stored in arrays
    are [Z], converted to the dtype of the array they are stored in.
    jax.Array values are immutable: every [.at[...].set(...)] returns a new
    array, so the loop threads an explicit record of the local variables,
    and an exception ends it.  The one piece of state outside the function
    that it reads is numpy's print options, through [str]; they are an
    argument of the definitions that read them.  What the function asks of
    JAX, numpy and Python ([jnp.zeros], slicing, [jnp.any], [.at[...].set],
    [str], [list.index], [jnp.stack]) is modelled next to its use. *)

From Stdlib Require Import Ascii String.
From stdpp Require Import base numbers list strings pretty sorting gmap.

Open Scope nat_scope.

(** ** Arrays *)

(** The dtypes of a mask: the boolean dtype that the docstring asks for and
    the integer dtypes of JAX's default configuration (the example of the
    notebook passes an int32 mask).  Floating-point masks are left out: their
    elements are not integers and [str] prints them in another format. *)
Inductive dtype := bool_ | int8 | int16 | int32 | uint8 | uint16 | uint32.

#[global] Instance dtype_eq_dec : EqDecision dtype.
Proof. solve_decision. Defined.

(** Two's complement wrap-around to 32 bits, and to any number of bits;
    wrap-around of an unsigned integer. *)
Definition wrap32 (z : Z) : Z := ((z + 2 ^ 31) `mod` 2 ^ 32 - 2 ^ 31)%Z.

Definition wrap_signed (bits z : Z) : Z :=
  ((z + 2 ^ (bits - 1)) `mod` 2 ^ bits - 2 ^ (bits - 1))%Z.

Definition wrap_unsigned (bits z : Z) : Z := (z `mod` 2 ^ bits)%Z.

(** Conversion of an integer to a dtype, as done on the value given to
    [.at[...].set(...)].  The value is a boolean array ([is_nonzero]) or a
    Python integer, which JAX first makes a weakly typed int32 scalar; it is
    then converted to the dtype of the array: to bool it is [z != 0], to an
    integer dtype it wraps around.  (JAX rejects a Python integer outside
    the int32 range when it makes the scalar; here it wraps, and the
    properties below that depend on the stored values are stated for indices
    and coordinates that fit the dtype, see [fits].) *)
Definition astype (dt : dtype) (z : Z) : Z :=
  match dt with
  | bool_ => if decide (z = 0%Z) then 0%Z else 1%Z
  | int8 => wrap_signed 8 z
  | int16 => wrap_signed 16 z
  | int32 => wrap32 z
  | uint8 => wrap_unsigned 8 z
  | uint16 => wrap_unsigned 16 z
  | uint32 => wrap_unsigned 32 z
  end.

(** The integers of [0, n) are stored unchanged in an array of dtype [dt],
    and JAX accepts them.  Nothing is asked of a boolean array, which stores
    0 as False and every other integer as True. *)
Definition fits (dt : dtype) (n : Z) : Prop :=
  match dt with
  | bool_ => True
  | int8 => (n ≤ 2 ^ 7)%Z
  | int16 => (n ≤ 2 ^ 15)%Z
  | int32 => (n ≤ 2 ^ 31)%Z
  | uint8 => (n ≤ 2 ^ 8)%Z
  | uint16 => (n ≤ 2 ^ 16)%Z
  | uint32 => (n ≤ 2 ^ 31)%Z
  end.

#[global] Instance fits_dec dt n : Decision (fits dt n).
Proof. destruct dt; simpl; apply _. Defined.

(** ** Exceptions

    A computation returns a value or raises; an exception ends the
    statements that follow. *)
Inductive exn := ZeroDivisionError | ValueError | IndexError.

Inductive result (A : Type) :=
  | Ok (a : A)
  | Raise (e : exn).
Arguments Ok {A} a.
Arguments Raise {A} e.

#[global] Instance result_bind : MBind result :=
  λ A B f r, match r with Ok a => f a | Raise e => Raise e end.

(** A [for] loop whose body may raise. *)
Fixpoint for_loop {A S} (body : S → A → result S) (st : S) (l : list A) : result S :=
  match l with
  | [] => Ok st
  | x :: l' => st' ← body st x; for_loop body st' l'
  end.

(** A two-dimensional jax.Array: dtype, shape and rows of elements.  The
    shape is kept apart from the rows, so that an array with no row still
    has a number of columns. *)
Record Array := mkArray {
  dtype_of : dtype;
  shape : nat * nat;
  data : list (list Z)
}.

#[global] Instance Array_eq_dec : EqDecision Array.
Proof. solve_decision. Defined.

Definition valid_elem (dt : dtype) (z : Z) : Prop :=
  match dt with
  | bool_ => z = 0%Z ∨ z = 1%Z
  | int8 => (- 2 ^ 7 ≤ z < 2 ^ 7)%Z
  | int16 => (- 2 ^ 15 ≤ z < 2 ^ 15)%Z
  | int32 => (- 2 ^ 31 ≤ z < 2 ^ 31)%Z
  | uint8 => (0 ≤ z < 2 ^ 8)%Z
  | uint16 => (0 ≤ z < 2 ^ 16)%Z
  | uint32 => (0 ≤ z < 2 ^ 32)%Z
  end.

#[global] Instance valid_elem_dec dt z : Decision (valid_elem dt z).
Proof. destruct dt; simpl; apply _. Defined.

(** The rows agree with the shape and every element is a value of the
    dtype. *)
Definition wf_array (a : Array) : Prop :=
  length (data a) = (shape a).1 ∧
  Forall (λ row, length row = (shape a).2 ∧ Forall (valid_elem (dtype_of a)) row)
         (data a).

#[global] Instance wf_array_dec a : Decision (wf_array a).
Proof. unfold wf_array. apply _. Defined.

(** [jnp.zeros(shape, dtype)] and [jnp.zeros_like(a)]. *)
Definition zeros (sh : nat * nat) (dt : dtype) : Array :=
  mkArray dt sh (replicate sh.1 (replicate sh.2 0%Z)).

Definition zeros_like (a : Array) : Array := zeros (shape a) (dtype_of a).

(** A Python slice [l[start:stop]] with non-negative bounds: both bounds are
    clamped to the length. *)
Definition py_slice {A} (start stop : nat) (l : list A) : list A :=
  take (stop - start) (drop start l).

Definition slice_len (start stop len : nat) : nat :=
  (stop `min` len) - (start `min` len).

(** [a[r0:r1, c0:c1]]. *)
Definition getitem (a : Array) (r0 r1 c0 c1 : nat) : Array :=
  mkArray (dtype_of a)
          (slice_len r0 r1 (shape a).1, slice_len c0 c1 (shape a).2)
          (py_slice c0 c1 <$> py_slice r0 r1 (data a)).

(** [jnp.any(a)]: some element is not zero; false on an empty array. *)
Definition jnp_any (a : Array) : bool :=
  existsb (existsb (λ z, bool_decide (z ≠ 0%Z))) (data a).

(** The scatter that [a.at[i, j].set(v)] performs: a new array with cell
    (i, j) replaced by [v] converted to the dtype of [a].  An update at an
    index beyond the size of an axis is dropped. *)
Definition scatter (a : Array) (i j : nat) (v : Z) : Array :=
  mkArray (dtype_of a) (shape a)
          (alter (λ row, <[j := astype (dtype_of a) v]> row) i (data a)).

(** [a.at[i, j].set(v)].  Indexing an axis of size 0 with an integer raises
    IndexError; on an axis that is not empty an index out of bounds is not
    an error in JAX, and the update is dropped. *)
Definition at_set (a : Array) (i j : nat) (v : Z) : result Array :=
  if decide ((shape a).1 = 0 ∨ (shape a).2 = 0) then Raise IndexError
  else Ok (scatter a i j v).

(** Reading cell (i, j). *)
Definition cell (a : Array) (i j : nat) : option Z :=
  data a !! i ≫= (λ row, row !! j).

(** ** [str] of an array

    [str] of a jax.Array is numpy's array printing with the print options
    of the process, which [np.set_printoptions] changes: an array of more
    than [threshold] elements is summarised, each axis longer than
    [2 * edgeitems] showing its first and last [edgeitems] entries around an
    ellipsis; elements are padded to one width and rows are wrapped at
    [linewidth] columns.  The options are state outside the function, which
    a call reads and does not write: they are an argument of [str] and of
    what calls it.  Where a statement does not name them, they are numpy's
    defaults.  The other options are not modelled: those on floating-point
    numbers do not bear on boolean and integer arrays, and [formatter] and
    [legacy] are taken as not set. *)
Class PrintOptions := {
  threshold : nat;
  edgeitems : nat;
  linewidth : nat
}.

#[global] Instance default_printoptions : PrintOptions :=
  {| threshold := 1000; edgeitems := 3; linewidth := 75 |}.

Definition nl : string := String "010"%char "".

Fixpoint spaces (n : nat) : string :=
  match n with 0 => "" | S k => String " "%char (spaces k) end.

Fixpoint rstrip (s : string) : string :=
  match s with
  | EmptyString => EmptyString
  | String c s' =>
      match rstrip s' with
      | EmptyString => if decide (c = " "%char) then EmptyString else String c EmptyString
      | r => String c r
      end
  end.

Fixpoint string_drop (n : nat) (s : string) : string :=
  match n, s with
  | S k, String _ s' => string_drop k s'
  | _, _ => s
  end.

Definition show_summary `{PrintOptions} {A} (summarise : bool) (l : list A) : bool :=
  summarise && bool_decide (2 * edgeitems < length l).

(** The entries of an axis that are printed. *)
Definition leading_trailing `{PrintOptions} {A} (summarise : bool) (l : list A) : list A :=
  if show_summary summarise l
  then take edgeitems l ++ drop (length l - edgeitems) l
  else l.

(** The same with the ellipsis in its place. *)
Definition with_ellipsis `{PrintOptions} {A} (summarise : bool) (ellipsis : A) (l : list A) : list A :=
  if show_summary summarise l
  then take edgeitems l ++ ellipsis :: drop (length l - edgeitems) l
  else l.

(** Width of the integer format: the longer of the printed maximum and
    minimum of the displayed elements. *)
Definition int_width (shown : list Z) : nat :=
  match shown with
  | [] => 0
  | z :: zs =>
      String.length (pretty (foldr Z.max z zs)) `max`
      String.length (pretty (foldr Z.min z zs))
  end.

Definition format_elem (dt : dtype) (width : nat) (z : Z) : string :=
  match dt with
  | bool_ => if decide (z = 0%Z) then "False" else " True"
  | _ => let s := pretty z in spaces (width - String.length s) +:+ s
  end.

(** Adding a word to the current line, starting a new line when the word
    does not fit. *)
Definition extend_line (s line word : string) (line_width : nat)
    (next_line_prefix : string) : string * string :=
  let needs_wrap :=
    bool_decide (line_width < String.length line + String.length word) &&
    negb (bool_decide (String.length line ≤ String.length next_line_prefix)) in
  if needs_wrap
  then (s +:+ rstrip line +:+ nl, next_line_prefix +:+ word)
  else (s, line +:+ word).

Fixpoint format_words (s line : string) (words : list string)
    (elem_width : nat) (hanging_indent : string) : string :=
  match words with
  | [] => s +:+ line
  | [word] =>
      let '(s, line) := extend_line s line word elem_width hanging_indent in
      s +:+ line
  | word :: rest =>
      let '(s, line) := extend_line s line word elem_width hanging_indent in
      format_words s (line +:+ " ") rest elem_width hanging_indent
  end.

(** One row, printed with hanging indent of two spaces. *)
Definition format_row `{PrintOptions} (words : list string) : string :=
  let hanging_indent := "  " in
  let s := format_words "" hanging_indent words (linewidth - 1 - 1) hanging_indent in
  "[" +:+ string_drop (String.length hanging_indent) s +:+ "]".

Fixpoint join_rows (rows : list string) : string :=
  match rows with
  | [] => ""
  | [row] => " " +:+ row
  | row :: rest => " " +:+ row +:+ nl +:+ join_rows rest
  end.

Definition str `{PrintOptions} (a : Array) : string :=
  if decide ((shape a).1 * (shape a).2 = 0) then "[]" else
  let summarise := bool_decide (threshold < (shape a).1 * (shape a).2) in
  let shown := leading_trailing summarise <$> leading_trailing summarise (data a) in
  let width := int_width (concat shown) in
  let rows :=
    (λ row, format_row (with_ellipsis summarise "..." (format_elem (dtype_of a) width <$> row)))
      <$> data a in
  "[" +:+ string_drop 1 (join_rows (with_ellipsis summarise "..." rows)) +:+ "]".

(** ** Python lists and exceptions *)

(** [l.index(x)]: the position of the first element equal to [x]; [None]
    stands for the ValueError raised when there is none. *)
Definition list_index `{EqDecision A} (x : A) (l : list A) : option nat :=
  fst <$> list_find (λ y, y = x) l.

(** [range(start, -1, -1)]: start, start - 1, ..., 0. *)
Fixpoint range_down (start : nat) : list nat :=
  match start with
  | 0 => [0]
  | S k => start :: range_down k
  end.

(** A three-dimensional array, as made by [jnp.stack]: its slices along the
    first axis. *)
Record Array3 := mkArray3 {
  dtype3 : dtype;
  shape3 : nat * nat * nat;
  data3 : list (list (list Z))
}.

(** [jnp.stack(arrays)]: a ValueError on an empty list and on arrays of
    different shapes. *)
Definition stack (arrays : list Array) : result Array3 :=
  match arrays with
  | [] => Raise ValueError
  | a :: _ =>
      if forallb (λ b, bool_decide (shape b = shape a)) arrays
      then Ok (mkArray3 (dtype_of a) (length arrays, (shape a).1, (shape a).2)
                        (data <$> arrays))
      else Raise ValueError
  end.

(** ** [sparsify_mask] *)

(** The local variables that the two loops read and write. *)
Record locals := mkLocals {
  block_mask : Array;
  mask_types_finder : list string;
  mask_data : list Array;
  next_mask_type_idx : Z;
  prefetch_mask : Array;
  next_i : Z;
  next_j : Z;
  prefetch_i : Array;
  prefetch_j : Array
}.

(** [mask[i * bm : (i + 1) * bm, j * bn : (j + 1) * bn]]. *)
Definition mask_block_at (mask : Array) (bm bn i j : nat) : Array :=
  getitem mask (i * bm) ((i + 1) * bm) (j * bn) ((j + 1) * bn).

(** The [if is_nonzero] statement.  A block that is not zero is looked up by
    its [str] in [mask_types_finder] and registered when it is not there; the
    three [next_] variables are set.  In the other branch only the local
    [type_index] is assigned (-1), which is read nowhere. *)
Definition register_block `{PrintOptions} (mask_block : Array) (i j : nat)
    (st : locals) : locals :=
  let '(type_index, finder, mdata) :=
    match list_index (str mask_block) (mask_types_finder st) with
    | Some k => (k, mask_types_finder st, mask_data st)
    | None => (length (mask_types_finder st),
               mask_types_finder st ++ [str mask_block],
               mask_data st ++ [mask_block])
    end in
  mkLocals (block_mask st) finder mdata (Z.of_nat type_index)
           (prefetch_mask st) (Z.of_nat i) (Z.of_nat j)
           (prefetch_i st) (prefetch_j st).

(** The body of the inner loop. *)
Definition loop_body `{PrintOptions} (mask : Array) (bm bn : nat) (i j : nat)
    (st : locals) : result locals :=
  let mask_block := mask_block_at mask bm bn i j in
  let is_nonzero := jnp_any mask_block in
  let st := if is_nonzero then register_block mask_block i j st else st in
  block_mask' ← at_set (block_mask st) i j (Z.b2z is_nonzero);
  prefetch_mask' ← at_set (prefetch_mask st) i j (next_mask_type_idx st);
  prefetch_i' ← at_set (prefetch_i st) i j (next_i st);
  prefetch_j' ← at_set (prefetch_j st) i j (next_j st);
  Ok (mkLocals block_mask' (mask_types_finder st) (mask_data st)
               (next_mask_type_idx st) prefetch_mask' (next_i st) (next_j st)
               prefetch_i' prefetch_j').

(** The statements before the loops. *)
Definition init_locals (mask : Array) (bm bn : nat) : locals :=
  let '(M, N) := shape mask in
  let block_mask := zeros (M / bm, N / bn) (dtype_of mask) in
  mkLocals block_mask [] [] 0 (zeros_like block_mask)
           (Z.of_nat (M / bm) - 1) (Z.of_nat (N / bn) - 1)
           (zeros_like block_mask) (zeros_like block_mask).

(** The two nested loops, over the given row and column indices. *)
Definition loops `{PrintOptions} (mask : Array) (bm bn : nat)
    (irange jrange : list nat) (st : locals) : result locals :=
  for_loop (λ st i, for_loop (λ st j, loop_body mask bm bn i j st) st jrange) st irange.

Definition outputs : Type := Array * Array * Array * Array * Array3.

(** The return statement. *)
Definition finish (st : locals) : result outputs :=
  match stack (mask_data st) with
  | Ok stacked =>
      Ok (block_mask st, prefetch_mask st, prefetch_i st, prefetch_j st, stacked)
  | Raise e => Raise e
  end.

(** [sparsify_mask(mask, block_shape)].  The floor divisions by a zero block
    size raise ZeroDivisionError. *)
Definition sparsify_mask `{PrintOptions} (mask : Array) (block_shape : nat * nat)
    : result outputs :=
  let '(M, N) := shape mask in
  let '(bm, bn) := block_shape in
  if decide (bm = 0 ∨ bn = 0) then Raise ZeroDivisionError else
  st ← loops mask bm bn (range_down (M / bm)) (range_down (N / bn))
             (init_locals mask bm bn);
  finish st.

(** ** The algorithm as the specification words it

    The same loops over the tile coordinates of the grid only: rows
    [M // bm - 1] down to 0 and columns [N // bn - 1] down to 0. *)

(** [range(n - 1, -1, -1)]: n - 1, ..., 0, and nothing when [n] is 0. *)
Definition range_below (n : nat) : list nat :=
  match n with
  | 0 => []
  | S k => range_down k
  end.

Definition sparsify_mask_inrange `{PrintOptions} (mask : Array)
    (block_shape : nat * nat) : result outputs :=
  let '(M, N) := shape mask in
  let '(bm, bn) := block_shape in
  if decide (bm = 0 ∨ bn = 0) then Raise ZeroDivisionError else
  st ← loops mask bm bn (range_below (M / bm)) (range_below (N / bn))
             (init_locals mask bm bn);
  finish st.

(** ** Vocabulary of the properties *)

Definition tile_rows (mask : Array) (bs : nat * nat) : nat := (shape mask).1 / bs.1.
Definition tile_cols (mask : Array) (bs : nat * nat) : nat := (shape mask).2 / bs.2.

(** The content block of a tile and whether it is active. *)
Definition tile (mask : Array) (bs : nat * nat) (p : nat * nat) : Array :=
  mask_block_at mask bs.1 bs.2 p.1 p.2.

Definition active (mask : Array) (bs : nat * nat) (p : nat * nat) : bool :=
  jnp_any (tile mask bs p).

(** The coordinates the two loops visit, in the order of the visits. *)
Definition visits (irange jrange : list nat) : list (nat * nat) :=
  i ← irange; pair i <$> jrange.

Definition traversal (mask : Array) (bs : nat * nat) : list (nat * nat) :=
  visits (range_down (tile_rows mask bs)) (range_down (tile_cols mask bs)).

(** The coordinates of the tile grid, in the order of the restricted loops. *)
Definition tiles (mask : Array) (bs : nat * nat) : list (nat * nat) :=
  visits (range_below (tile_rows mask bs)) (range_below (tile_cols mask bs)).

Definition in_grid (mask : Array) (bs : nat * nat) (p : nat * nat) : Prop :=
  p.1 < tile_rows mask bs ∧ p.2 < tile_cols mask bs.

(** [p] comes before [q] in the forward, ascending row-major order. *)
Definition before (p q : nat * nat) : Prop :=
  p.1 < q.1 ∨ (p.1 = q.1 ∧ p.2 < q.2).

(** A mask that meets the precondition: a well-formed array whose dimensions
    are multiples of the (non-zero) block sizes. *)
Definition well_formed (mask : Array) (bs : nat * nat) : Prop :=
  wf_array mask ∧ 0 < bs.1 ∧ 0 < bs.2 ∧
  (shape mask).1 `mod` bs.1 = 0 ∧ (shape mask).2 `mod` bs.2 = 0.

#[global] Instance well_formed_dec mask bs : Decision (well_formed mask bs).
Proof. unfold well_formed. apply _. Defined.

Definition has_active_tile (mask : Array) (bs : nat * nat) : Prop :=
  Exists (λ p, active mask bs p = true) (tiles mask bs).

#[global] Instance has_active_tile_dec mask bs : Decision (has_active_tile mask bs).
Proof. unfold has_active_tile. apply _. Defined.

(** [str] tells the active tiles of the mask apart: tiles with the same
    printed form have the same content. *)
Definition str_faithful (mask : Array) (bs : nat * nat) : Prop :=
  Forall (λ p, Forall (λ q,
      active mask bs p = true → active mask bs q = true →
      str (tile mask bs p) = str (tile mask bs q) →
      tile mask bs p = tile mask bs q) (tiles mask bs)) (tiles mask bs).

#[global] Instance str_faithful_dec mask bs : Decision (str_faithful mask bs).
Proof. unfold str_faithful. apply _. Defined.

(** The values stored in the grids fit the int32 dtype. *)
Definition indices_fit (mask : Array) (bs : nat * nat) : Prop :=
  (Z.of_nat (tile_rows mask bs * tile_cols mask bs) ≤ 2 ^ 31)%Z.

#[global] Instance indices_fit_dec mask bs : Decision (indices_fit mask bs).
Proof. unfold indices_fit. apply _. Defined.

(** The elements that are seen for the first time, in their order; [key]
    tells what counts as the same element. *)
Fixpoint distinct_by {A K} `{EqDecision K} (key : A → K) (seen : list K)
    (l : list A) : list A :=
  match l with
  | [] => []
  | x :: l' =>
      if decide (key x ∈ seen) then distinct_by key seen l'
      else x :: distinct_by key (seen ++ [key x]) l'
  end.

(** The blocks met in a list of visits that are not zero. *)
Definition nonzero_blocks (mask : Array) (bs : nat * nat)
    (vis : list (nat * nat)) : list Array :=
  filter (λ b, jnp_any b = true) (tile mask bs <$> vis).

(** The visits up to the one of [x], included. *)
Fixpoint upto `{EqDecision A} (x : A) (l : list A) : list A :=
  match l with
  | [] => []
  | y :: l' => y :: if decide (y = x) then [] else upto x l'
  end.

(** The tile grid has a tile: the four grids have no axis of size 0. *)
Definition nonempty_grid (mask : Array) (bs : nat * nat) : Prop :=
  0 < tile_rows mask bs ∧ 0 < tile_cols mask bs.

#[global] Instance nonempty_grid_dec mask bs : Decision (nonempty_grid mask bs).
Proof. unfold nonempty_grid. apply _. Defined.

(** The local variables after an iteration whose four writes do not raise:
    what [loop_body] returns on grids that have no axis of size 0 (lemma
    [loop_body_step]). *)
Definition loop_step (mask : Array) (bm bn : nat) (i j : nat) (st : locals) : locals :=
  let mask_block := mask_block_at mask bm bn i j in
  let is_nonzero := jnp_any mask_block in
  let st := if is_nonzero then register_block mask_block i j st else st in
  mkLocals (scatter (block_mask st) i j (Z.b2z is_nonzero))
           (mask_types_finder st) (mask_data st) (next_mask_type_idx st)
           (scatter (prefetch_mask st) i j (next_mask_type_idx st))
           (next_i st) (next_j st)
           (scatter (prefetch_i st) i j (next_i st))
           (scatter (prefetch_j st) i j (next_j st)).

(** The loop as a run over a list of visits, and the local variables right
    after the iteration at a coordinate. *)
Definition run (mask : Array) (bs : nat * nat) (vis : list (nat * nat))
    (st : locals) : locals :=
  foldl (λ st p, loop_step mask bs.1 bs.2 p.1 p.2 st) st vis.

Definition locals_at (mask : Array) (bs : nat * nat) (p : nat * nat) : locals :=
  run mask bs (upto p (traversal mask bs)) (init_locals mask bs.1 bs.2).

(** ** The four grids

    The grids are written the same way by the loop body; they are named so
    that their properties are stated once. *)
Inductive grid := BlockMask | PrefetchMask | PrefetchI | PrefetchJ.

Definition grid_of (g : grid) (st : locals) : Array :=
  match g with
  | BlockMask => block_mask st
  | PrefetchMask => prefetch_mask st
  | PrefetchI => prefetch_i st
  | PrefetchJ => prefetch_j st
  end.

(** The value the iteration at [p] gives to [.at[i, j].set], read in the
    local variables after that iteration. *)
Definition written (g : grid) (mask : Array) (bs : nat * nat) (p : nat * nat)
    (st : locals) : Z :=
  match g with
  | BlockMask => Z.b2z (active mask bs p)
  | PrefetchMask => next_mask_type_idx st
  | PrefetchI => next_i st
  | PrefetchJ => next_j st
  end.

(** A grid has the shape and the dtype it was allocated with. *)
Definition grid_ok (sh : nat * nat) (dt : dtype) (a : Array) : Prop :=
  dtype_of a = dt ∧ shape a = sh ∧ length (data a) = sh.1 ∧
  Forall (λ row, length row = sh.2) (data a).

Definition grids_ok (mask : Array) (bs : nat * nat) (st : locals) : Prop :=
  ∀ g, grid_ok (tile_rows mask bs, tile_cols mask bs) (dtype_of mask) (grid_of g st).

(** The variables carried from one iteration to the next, apart from the
    grids. *)
Definition carried (st : locals) : list string * list Array * Z * Z * Z :=
  (mask_types_finder st, mask_data st, next_mask_type_idx st, next_i st, next_j st).

(** The last active coordinate in a list of visits. *)
Definition last_active (mask : Array) (bs : nat * nat)
    (vis : list (nat * nat)) : option (nat * nat) :=
  last (filter (λ p, active mask bs p = true) vis).

#[global] Instance in_grid_dec mask bs p : Decision (in_grid mask bs p).
Proof. unfold in_grid. apply _. Defined.

(** The blocks met outside the tile grid (the empty blocks one index beyond
    it, or the trailing partial blocks of a mask whose dimensions are not
    multiples of the block sizes) are all zero. *)
Definition outside_inactive (mask : Array) (bs : nat * nat) : Prop :=
  Forall (λ p, in_grid mask bs p ∨ active mask bs p = false) (traversal mask bs).

#[global] Instance outside_inactive_dec mask bs : Decision (outside_inactive mask bs).
Proof. unfold outside_inactive. apply _. Defined.

(** The local variables when the loops are over. *)
Definition final (mask : Array) (bs : nat * nat) : locals :=
  run mask bs (traversal mask bs) (init_locals mask bs.1 bs.2).

(** [q] is the first active tile after [p] in the forward order. *)
Definition next_active (mask : Array) (bs : nat * nat) (p q : nat * nat) : Prop :=
  in_grid mask bs q ∧ active mask bs q = true ∧ before p q ∧
  ∀ r, in_grid mask bs r → before p r → before r q → active mask bs r = false.

(** No tile after [p] in the forward order is active. *)
Definition no_active_after (mask : Array) (bs : nat * nat) (p : nat * nat) : Prop :=
  ∀ r, in_grid mask bs r → before p r → active mask bs r = false.

(** The row and column coordinates stored in an int32 grid fit the dtype. *)
Definition coords_fit (mask : Array) (bs : nat * nat) : Prop :=
  (Z.of_nat (tile_rows mask bs) ≤ 2 ^ 31)%Z ∧ (Z.of_nat (tile_cols mask bs) ≤ 2 ^ 31)%Z.

#[global] Instance coords_fit_dec mask bs : Decision (coords_fit mask bs).
Proof. unfold coords_fit. apply _. Defined.

(** ** The coverage property, read in the outputs *)

(** The flag of tile [p] is true, its two next-coordinates are its own and
    its content index names an entry equal to its content. *)
Definition active_self (mask : Array) (bs : nat * nat) (out : outputs)
    (p : nat * nat) : Prop :=
  let '(bmk, pm, pi, pj, md) := out in
  cell bmk p.1 p.2 = Some 1%Z ∧
  cell pi p.1 p.2 = Some (Z.of_nat p.1) ∧ cell pj p.1 p.2 = Some (Z.of_nat p.2) ∧
  ∃ k, cell pm p.1 p.2 = Some (Z.of_nat k) ∧
       data3 md !! k = Some (data (tile mask bs p)).

(** The flag of tile [p] is false and its two next-coordinates are those of
    a tile that meets [target]. *)
Definition inactive_pointing (target : nat * nat → Prop) (out : outputs)
    (p : nat * nat) : Prop :=
  let '(bmk, pm, pi, pj, md) := out in
  cell bmk p.1 p.2 = Some 0%Z ∧
  ∃ q, cell pi p.1 p.2 = Some (Z.of_nat q.1) ∧ cell pj p.1 p.2 = Some (Z.of_nat q.2) ∧
       target q.

(** The coordinate the [next_] variables start with: the last tile. *)
Definition sentinel (mask : Array) (bs : nat * nat) : nat * nat :=
  (tile_rows mask bs - 1, tile_cols mask bs - 1).

(** ** Example masks *)

(** The 4 x 4 mask of the specification's scenario, with blocks of 2 x 2. *)
Definition scenario_mask : Array :=
  mkArray int32 (4, 4) [[1; 0; 0; 0]; [0; 0; 0; 0]; [0; 0; 1; 1]; [0; 0; 1; 1]]%Z.

(** A 4 x 4 mask of zeros. *)
Definition zero_mask : Array :=
  mkArray int32 (4, 4) [[0; 0; 0; 0]; [0; 0; 0; 0]; [0; 0; 0; 0]; [0; 0; 0; 0]]%Z.

(** Three rows for blocks of two rows: the third row is a partial block. *)
Definition partial_row_mask : Array :=
  mkArray int32 (3, 2) [[1; 1]; [1; 1]; [0; 0]]%Z.

(** A 2 x 2 mask whose only non-zero element is the first. *)
Definition corner_mask : Array :=
  mkArray int32 (2, 2) [[1; 0]; [0; 0]]%Z.

(** A mask with no row, for blocks of 1 x 2. *)
Definition empty_mask : Array := mkArray int32 (0, 2) [].

(** An int8 mask of 129 rows and one column whose only non-zero element is
    the first. *)
Definition tall_int8_mask : Array :=
  mkArray int8 (129, 1) ([1%Z] :: replicate 128 [0%Z]).

(** One row of two blocks of 1 x 8 that differ in their fourth element. *)
Definition options_mask : Array :=
  mkArray int32 (1, 16) [[1; 0; 0; 0; 0; 0; 0; 0; 1; 0; 0; 1; 0; 0; 0; 0]]%Z.

(** The print options after [np.set_printoptions(threshold=5)]. *)
Definition terse_printoptions : PrintOptions :=
  {| threshold := 5; edgeitems := 3; linewidth := 75 |}.

(** A boolean mask with three different non-zero blocks of 1 x 2. *)
Definition bool_mask : Array :=
  mkArray bool_ (3, 2) [[1; 1]; [0; 1]; [1; 0]]%Z.

(** A boolean mask of three rows whose only non-zero element is the first. *)
Definition bool_column_mask : Array :=
  mkArray bool_ (3, 1) [[1]; [0]; [0]]%Z.

(** One row of three blocks of 1 x 1001.  In the order of the visits: a one
    followed by zeros; the same with a second one in the middle; a one in
    second place.  Blocks of more than 1000 elements are printed summarised,
    and the first two have the same [str]. *)
Definition wide_block_a : list Z := 1%Z :: replicate 1000 0%Z.
Definition wide_block_b : list Z := 1%Z :: replicate 499 0%Z ++ 1%Z :: replicate 500 0%Z.
Definition wide_block_c : list Z := 0%Z :: 1%Z :: replicate 999 0%Z.

Definition wide_mask : Array :=
  mkArray int32 (1, 3003) [wide_block_c ++ wide_block_b ++ wide_block_a].

(** [str] tells the shapes of the active blocks of the visits apart: blocks
    with the same printed form have the same shape. *)
Definition str_shape_faithful (mask : Array) (bs : nat * nat) : Prop :=
  Forall (λ p, Forall (λ q,
      active mask bs p = true → active mask bs q = true →
      str (tile mask bs p) = str (tile mask bs q) →
      shape (tile mask bs p) = shape (tile mask bs q))
    (traversal mask bs)) (traversal mask bs).

#[global] Instance str_shape_faithful_dec mask bs : Decision (str_shape_faithful mask bs).
Proof. unfold str_shape_faithful. apply _. Defined.

(** Three rows for blocks of two rows, with a non-zero third row. *)
Definition nonzero_remainder_mask : Array :=
  mkArray int32 (3, 2) [[1; 1]; [1; 1]; [0; 1]]%Z.

(** ** The matrix multiplication with a block-sparse output mask

    The index maps and the kernel of the second example, which consume the
    outputs of [sparsify_mask].  The grid is (M // blk_M, N // blk_N,
    K // blk_K); at the grid point (i, j, k) the pipeline hands the kernel
    the blocks of X, Y and of the mask data that the index maps name, and
    the output block (i, j).  The blocks of X and Y, the accumulator and the
    output block are kept abstract, with the operations the kernel applies
    to them. *)
Module MaskMatmul.

(** Reading a prefetched grid inside an index map or the kernel. *)
Definition nonzero (flag : Z) : bool := bool_decide (flag ≠ 0%Z).

(** [x_map]: the row block of X is [prefetch_i[i, j]]; the block along K is
    [k], or 0 at a tile that is skipped. *)
Definition x_map (i j k : nat) (block_mask prefetch_mask prefetch_i prefetch_j : Array)
    : option (Z * Z) :=
  flag ← cell block_mask i j;
  let k_fetch := (Z.b2z (nonzero flag) * Z.of_nat k)%Z in
  next ← cell prefetch_i i j;
  Some (next, k_fetch).

Definition y_map (i j k : nat) (block_mask prefetch_mask prefetch_i prefetch_j : Array)
    : option (Z * Z) :=
  flag ← cell block_mask i j;
  let k_fetch := (Z.b2z (nonzero flag) * Z.of_nat k)%Z in
  next ← cell prefetch_j i j;
  Some (k_fetch, next).

Definition mask_map (i j k : nat) (block_mask prefetch_mask : Array)
    : option (Z * Z * Z) :=
  idx ← cell prefetch_mask i j;
  Some (idx, 0%Z, 0%Z).

Definition o_map (i j k : nat) : nat * nat := (i, j).

(** The block of the stacked mask data at an index. *)
Definition mask_block (md : Array3) (idx : Z) : option (list (list Z)) :=
  if decide (0 ≤ idx)%Z then data3 md !! Z.to_nat idx else None.

Section kernel.
Context {XBlk YBlk Acc Out : Type}.
(** [jnp.dot(x_ref[...], y_ref[...], preferred_element_type=jnp.float32)] *)
Context (dot : XBlk → YBlk → Acc).
(** the [+=] of the accumulator *)
Context (add : Acc → Acc → Acc).
(** [jnp.zeros_like(accum_scratch[...])] and [jnp.zeros_like(o_ref)] *)
Context (acc_zeros : Acc) (out_zeros : Out).
(** [(mask_ref[0, ...] * accum_scratch[...]).astype(o_ref.dtype)] *)
Context (mask_mul : list (list Z) → Acc → Out).

(** The output block and the scratch accumulator. *)
Record refs := mkRefs { o_ref : Out; accum_scratch : Acc }.

(** The kernel at the grid point (i, j, k) of a grid with [num_k] steps
    along K. *)
Definition sparse_mask_matmul (block_mask_ref : Array) (i j k num_k : nat)
    (x_ref : XBlk) (y_ref : YBlk) (mask_ref : list (list Z)) (r : refs)
    : option refs :=
  flag ← cell block_mask_ref i j;
  let should_compute := nonzero flag in
  let r := if decide (k = 0) then mkRefs out_zeros acc_zeros else r in
  Some (if should_compute then
          let accum := add (accum_scratch r) (dot x_ref y_ref) in
          let o := if decide (Z.of_nat k = Z.of_nat num_k - 1)%Z
                   then mask_mul mask_ref accum else o_ref r in
          mkRefs o accum
        else r).

(** One grid step at the tile (i, j): the blocks are fetched where the
    index maps say and the kernel runs on them. *)
Definition grid_step (out : outputs) (X : Z * Z → XBlk) (Y : Z * Z → YBlk)
    (i j num_k : nat) (r : option refs) (k : nat) : option refs :=
  let '(block_mask, prefetch_mask, prefetch_i, prefetch_j, md) := out in
  r ← r;
  xi ← x_map i j k block_mask prefetch_mask prefetch_i prefetch_j;
  yi ← y_map i j k block_mask prefetch_mask prefetch_i prefetch_j;
  mi ← mask_map i j k block_mask prefetch_mask;
  mblk ← mask_block md mi.1.1;
  sparse_mask_matmul block_mask i j k num_k (X xi) (Y yi) mblk r.

(** The steps k = 0, ..., num_k - 1 at the tile (i, j), which all have the
    output block [o_map i j k] = (i, j): what the output block holds after
    them, from any content [r] of the buffers before. *)
Definition tile_output (out : outputs) (X : Z * Z → XBlk) (Y : Z * Z → YBlk)
    (i j num_k : nat) (r : refs) : option Out :=
  o_ref <$> foldl (grid_step out X Y i j num_k) (Some r) (seq 0 num_k).
End kernel.

End MaskMatmul.

(** ** The sparse-times-dense matrix multiplication

    The kernel and the index maps of the first example.  The grid is
    (N // blk_N, num_blocks): for each column block j of the output, the
    inner axis runs through the non-zero blocks of the sparse operand, whose
    row and column block indices are the prefetched [idxs_i] and [idxs_k].
    Blocks and their operations are kept abstract. *)
Module Dsd.

(** Reading a prefetched index array.  Inside the grid the position is in
    range; [oob] stands for whatever a read out of range returns. *)
Definition read (ref : list Z) (oob : Z) (n : nat) : Z := default oob (ref !! n).

Definition x_map (j blk_idx : nat) (blk_idxs_i blk_idxs_k : list Z) : nat * nat * nat :=
  (blk_idx, 0, 0).

Definition y_map (oob : Z) (j blk_idx : nat) (blk_idxs_i blk_idxs_k : list Z) : Z * nat :=
  (read blk_idxs_k oob blk_idx, j).

Definition o_map (oob : Z) (j blk_idx : nat) (blk_idxs_i blk_idxs_k : list Z) : Z * nat :=
  (read blk_idxs_i oob blk_idx, j).

Section kernel.
Context {XBlk YBlk Acc Out : Type}.
(** [jnp.dot(x_ref[0, :, :], y_ref[...], preferred_element_type=jnp.float32)] *)
Context (dot : XBlk → YBlk → Acc).
(** the [+=] of the accumulator and [jnp.zeros_like(accum_scratch)] *)
Context (add : Acc → Acc → Acc) (acc_zeros : Acc).
(** [accum_scratch[...].astype(o_ref.dtype)] *)
Context (astype : Acc → Out).

(** The output block and the scratch accumulator. *)
Record refs := mkRefs { o_ref : Out; accum_scratch : Acc }.

(** The kernel at the step [blk_idx] of the inner axis.  [num_blocks] is the
    global of the notebook, the number of non-zero blocks. *)
Definition dsd_kernel (num_blocks : nat) (oob : Z) (idxs_i_ref : list Z)
    (blk_idx : nat) (x_ref : XBlk) (y_ref : YBlk) (r : refs) : refs :=
  let is_start := bool_decide (blk_idx = 0) in
  let changed_blocks :=
    bool_decide (read idxs_i_ref oob blk_idx ≠
                 read idxs_i_ref oob (Z.to_nat (Z.max (Z.of_nat blk_idx - 1) 0))) in
  let accum := if is_start || changed_blocks then acc_zeros else accum_scratch r in
  let accum := add accum (dot x_ref y_ref) in
  let next_block_change :=
    bool_decide (read idxs_i_ref oob blk_idx ≠
                 read idxs_i_ref oob
                   (Z.to_nat (Z.min (Z.of_nat blk_idx + 1) (Z.of_nat num_blocks)))) in
  let is_end := bool_decide (Z.of_nat blk_idx = Z.of_nat num_blocks - 1)%Z in
  mkRefs (if is_end || next_block_change then astype accum else o_ref r) accum.

(** The buffers in VMEM and the blocks of the output column stored in HBM so
    far, by row block.  A row block that is absent holds the zeros passed
    through [input_output_aliases]. *)
Record pipeline := mkPipeline { vmem : refs; hbm : gmap Z Out }.

(** One grid step.  As the notebook describes the pipeline: the output block
    stays in VMEM while consecutive steps name the same block; when the block
    changes, the buffer is stored into HBM at the block it held, and the
    buffer of the new block starts with an unspecified content, [stale].
    Then the kernel runs on the blocks that [x_map] and [y_map] name. *)
Definition column_step (num_blocks : nat) (oob : Z) (stale : nat → Out)
    (X_blocks : nat → XBlk) (Y : Z * nat → YBlk) (idxs_i idxs_k : list Z)
    (j : nat) (s : pipeline) (blk_idx : nat) : pipeline :=
  let row := (o_map oob j blk_idx idxs_i idxs_k).1 in
  let prev := (o_map oob j (blk_idx - 1) idxs_i idxs_k).1 in
  let s := if decide (blk_idx ≠ 0 ∧ row ≠ prev)
           then mkPipeline (mkRefs (stale blk_idx) (accum_scratch (vmem s)))
                           (<[prev := o_ref (vmem s)]> (hbm s))
           else s in
  let x_ref := X_blocks (x_map j blk_idx idxs_i idxs_k).1.1 in
  let y_ref := Y (y_map oob j blk_idx idxs_i idxs_k) in
  mkPipeline (dsd_kernel num_blocks oob idxs_i blk_idx x_ref y_ref (vmem s)) (hbm s).

(** The steps of one column of the grid, and the final store of the buffer:
    the row blocks of the output column that were written. *)
Definition column (num_blocks : nat) (oob : Z) (stale : nat → Out)
    (X_blocks : nat → XBlk) (Y : Z * nat → YBlk) (idxs_i idxs_k : list Z)
    (j : nat) (r : refs) : gmap Z Out :=
  let s := foldl (column_step num_blocks oob stale X_blocks Y idxs_i idxs_k j)
                 (mkPipeline r ∅) (seq 0 num_blocks) in
  if decide (num_blocks = 0) then ∅
  else <[(o_map oob j (num_blocks - 1) idxs_i idxs_k).1 := o_ref (vmem s)]> (hbm s).
End kernel.

(** The row indices are grouped: equal indices are next to each other. *)
Definition grouped (idxs : list Z) : Prop :=
  ∀ a b c x, a < b → b < c → idxs !! a = Some x → idxs !! c = Some x →
             idxs !! b = Some x.

End Dsd.

(** ** Sampling a block-sparse matrix

    [generate_block_sparse_mat], with the two random draws as arguments:
    [block_mask] stands for the sample of [jax.random.bernoulli], of shape
    (M // blk_M, N // blk_N), and [block_data] for the sample of
    [jax.random.uniform], of shape (num_blocks, blk_M, blk_N).  The elements
    of the matrix are of any type with a zero. *)
Module Generate.

(** The positions of the true elements of a row, from column [j] on. *)
Fixpoint true_from (j : nat) (row : list bool) : list nat :=
  match row with
  | [] => []
  | b :: row' => (if b then [j] else []) ++ true_from (S j) row'
  end.

(** The coordinates of the true elements, row by row from row [i] on. *)
Fixpoint coords_from (i : nat) (block_mask : list (list bool)) : list (nat * nat) :=
  match block_mask with
  | [] => []
  | row :: rows => (pair i <$> true_from 0 row) ++ coords_from (S i) rows
  end.

(** [jnp.where(block_mask)]: the row indices and the column indices of the
    true elements, in row-major order. *)
Definition jnp_where (block_mask : list (list bool)) : list nat * list nat :=
  (fst <$> coords_from 0 block_mask, snd <$> coords_from 0 block_mask).

(** [jnp.sum(block_mask)]: the number of true elements. *)
Definition jnp_sum (block_mask : list (list bool)) : nat :=
  sum_list ((λ row, sum_list ((λ b : bool, if b then 1 else 0) <$> row)) <$> block_mask).

(** The block (i, j) of a matrix. *)
Definition block {T} (blk_M blk_N : nat) (mat : list (list T)) (i j : nat) : list (list T) :=
  py_slice (j * blk_N) ((j + 1) * blk_N) <$> py_slice (i * blk_M) ((i + 1) * blk_M) mat.

(** [l[start:stop] = v] for a value of the length of the slice. *)
Definition splice {T} (start stop : nat) (v l : list T) : list T :=
  take start l ++ v ++ drop stop l.

(** [mat.at[r0:r1, c0:c1].set(v)] for a slice inside the matrix and a value
    of the shape of the slice. *)
Definition at_slice_set {T} (mat : list (list T)) (r0 r1 c0 c1 : nat)
    (v : list (list T)) : list (list T) :=
  splice r0 r1 (zip_with (λ row vrow, splice c0 c1 vrow row) (py_slice r0 r1 mat) v) mat.

Section sampled.
Context {T : Type} (zero : T).

(** The body of the loop over the non-zero blocks.  The three reads are in
    range for [blk] below [num_blocks]. *)
Definition place_block (blk_M blk_N : nat) (indices : list nat * list nat)
    (block_data : list (list (list T))) (dense_mat : list (list T)) (blk : nat)
    : list (list T) :=
  match indices.1 !! blk, indices.2 !! blk, block_data !! blk with
  | Some idx_i, Some idx_j, Some data_blk =>
      at_slice_set dense_mat (idx_i * blk_M) ((idx_i + 1) * blk_M)
                   (idx_j * blk_N) ((idx_j + 1) * blk_N) data_blk
  | _, _, _ => dense_mat
  end.

Definition generate_block_sparse_mat (M N blk_M blk_N : nat)
    (block_mask : list (list bool)) (block_data : list (list (list T)))
    : list (list T) * list (list (list T)) * list nat * list nat :=
  let num_blocks := jnp_sum block_mask in
  let indices := jnp_where block_mask in
  let dense_mat := replicate M (replicate N zero) in
  let dense_mat :=
    foldl (place_block blk_M blk_N indices block_data) dense_mat (seq 0 num_blocks) in
  (dense_mat, block_data, indices.1, indices.2).
End sampled.

(** The element (r, c) of a matrix. *)
Definition get {T} (mat : list (list T)) (r c : nat) : option T :=
  mat !! r ≫= (.!! c).

(** A matrix of [m] rows of [n] elements. *)
Definition shaped {T} (m n : nat) (mat : list (list T)) : Prop :=
  length mat = m ∧ Forall (λ row, length row = n) mat.

(** The shapes of the two samples. *)
Definition wf_samples {T} (M N blk_M blk_N : nat) (block_mask : list (list bool))
    (block_data : list (list (list T))) : Prop :=
  0 < blk_M ∧ 0 < blk_N ∧
  length block_mask = M / blk_M ∧ Forall (λ row, length row = N / blk_N) block_mask ∧
  length block_data = jnp_sum block_mask ∧
  Forall (λ b, length b = blk_M ∧ Forall (λ row, length row = blk_N) b) block_data.

End Generate.

(** ** The block-aligned dynamic slice

    [block_dynamic_slice] under [checkify.checkify]: the call returns the
    error of the first failed check, if there is one, beside the value, which
    is computed whatever the checks say.  Starts are non-negative.  [oob r c]
    stands for whatever the pipeline reads at a position (r, c) outside the
    array. *)
Module BlockSlice.

Section kernel.
Context {T : Type} (oob : nat → nat → T).

(** The block of shape [sizes] at block index [idx] of [x], as the pipeline
    copies it into [x_ref]. *)
Definition in_block (sizes idx : nat * nat) (x : list (list T)) : list (list T) :=
  (λ a, (λ b, let r := idx.1 * sizes.1 + a in
              let c := idx.2 * sizes.2 + b in
              default (oob r c) (Generate.get x r c)) <$> seq 0 sizes.2) <$> seq 0 sizes.1.

(** [o_ref[...] = x_ref[...]]: the value of [o_ref] after the kernel. *)
Definition dynamic_slice_kernel (indices : nat * nat) (x_ref : list (list T))
    : list (list T) :=
  x_ref.

Definition x_map (i j : nat) (block_idx : nat * nat) : nat * nat :=
  (block_idx.1, block_idx.2).

Definition o_map (i j : nat) (block_idx : nat * nat) : nat * nat := (0, 0).

(** [checkify.check(cond, msg)]: the first failed check is the one kept. *)
Definition check (cond : bool) (msg : string) (err : option string) : option string :=
  match err with
  | Some e => Some e
  | None => if cond then None else Some msg
  end.

(** The grid is (1, 1): the kernel runs once, on the block that the index
    map of [x] names, and its output block (0, 0) is the whole output, of
    shape [sizes]. *)
Definition block_dynamic_slice (x : list (list T)) (starts sizes : nat * nat)
    : option string * list (list T) :=
  let err := check (starts.1 mod sizes.1 =? 0) "Starts must be divisible by size." None in
  let err := check (starts.2 mod sizes.2 =? 0) "Starts must be divisible by size." err in
  let block_idx := (starts.1 / sizes.1, starts.2 / sizes.2) in
  (err, dynamic_slice_kernel block_idx (in_block sizes (x_map 0 0 block_idx) x)).
End kernel.

(** The number of columns of a matrix. *)
Definition num_cols {T} (x : list (list T)) : nat := from_option length 0 (head x).

(** [lax.dynamic_slice(x, start_indices, slice_sizes)], for slice sizes that
    fit in the array: the starts are clamped so that the slice lies inside
    the array. *)
Definition dynamic_slice {T} (x : list (list T)) (start_indices slice_sizes : nat * nat)
    : list (list T) :=
  let r0 := start_indices.1 `min` (length x - slice_sizes.1) in
  let c0 := start_indices.2 `min` (num_cols x - slice_sizes.2) in
  py_slice c0 (c0 + slice_sizes.2) <$> py_slice r0 (r0 + slice_sizes.1) x.

End BlockSlice.

(** * Properties *)

(** ** The loops as a run over the traversal *)

Lemma run_app mask bs vis1 vis2 st :
  run mask bs (vis1 ++ vis2) st = run mask bs vis2 (run mask bs vis1 st).
Proof. unfold run. apply foldl_app. Qed.

Lemma run_cons mask bs vis p st :
  run mask bs (p :: vis) st = run mask bs vis (loop_step mask bs.1 bs.2 p.1 p.2 st).
Proof. done. Qed.

Lemma run_snoc mask bs vis p st :
  run mask bs (vis ++ [p]) st = loop_step mask bs.1 bs.2 p.1 p.2 (run mask bs vis st).
Proof. by rewrite run_app. Qed.

(** ** The order of the visits *)

Lemma elem_of_range_down n i : i ∈ range_down n ↔ i ≤ n.
Proof.
  induction n as [|n IH]; simpl.
  - rewrite list_elem_of_singleton. lia.
  - rewrite elem_of_cons, IH. lia.
Qed.

Lemma elem_of_range_below n i : i ∈ range_below n ↔ i < n.
Proof.
  destruct n as [|n]; simpl.
  - rewrite elem_of_nil. lia.
  - rewrite elem_of_range_down. lia.
Qed.

Lemma range_down_sorted n : StronglySorted (λ a b, b < a) (range_down n).
Proof.
  induction n as [|n IH]; simpl.
  - repeat constructor.
  - constructor; [done|]. apply Forall_forall. intros i Hi%elem_of_range_down. lia.
Qed.

Lemma range_below_sorted n : StronglySorted (λ a b, b < a) (range_below n).
Proof. destruct n; [constructor | apply range_down_sorted]. Qed.

Lemma elem_of_visits irange jrange p :
  p ∈ visits irange jrange ↔ p.1 ∈ irange ∧ p.2 ∈ jrange.
Proof.
  unfold visits. rewrite list_elem_of_bind. destruct p as [a b]. simpl. split.
  - intros (i & Hp & Hi). apply list_elem_of_fmap in Hp as (j & [= -> ->] & Hj). done.
  - intros [Ha Hb]. exists a. split; [|done]. apply list_elem_of_fmap. eauto.
Qed.

(** The visits go backwards through the forward order. *)
Lemma visits_sorted irange jrange :
  StronglySorted (λ a b, b < a) irange →
  StronglySorted (λ a b, b < a) jrange →
  StronglySorted (λ p q, before q p) (visits irange jrange).
Proof.
  intros Hi Hj. unfold visits.
  induction Hi as [|i irange Hs IH Hall]; [constructor|].
  rewrite bind_cons. apply StronglySorted_app_2; [| |done].
  - intros p q (j & -> & _)%list_elem_of_fmap Hq.
    apply (elem_of_visits irange jrange q) in Hq as [Hq _].
    rewrite Forall_forall in Hall. left. simpl. by apply Hall.
  - clear -Hj. induction Hj as [|j jrange Hs IH Hall]; [constructor|].
    cbn. constructor; [done|].
    apply Forall_fmap, (Forall_impl _ _ _ Hall). intros b Hb. right. done.
Qed.

Lemma before_irrefl p : ¬ before p p.
Proof. unfold before. lia. Qed.

Lemma before_trans p q r : before p q → before q r → before p r.
Proof. unfold before. lia. Qed.

Lemma before_total p q : before p q ∨ p = q ∨ before q p.
Proof. destruct p, q. unfold before. simpl. destruct (decide (n = n1)), (decide (n0 = n2)); subst; auto; lia. Qed.

Lemma traversal_sorted mask bs :
  StronglySorted (λ p q, before q p) (traversal mask bs).
Proof. apply visits_sorted; apply range_down_sorted. Qed.

Lemma tiles_sorted mask bs :
  StronglySorted (λ p q, before q p) (tiles mask bs).
Proof. apply visits_sorted; apply range_below_sorted. Qed.

Lemma elem_of_traversal mask bs p :
  p ∈ traversal mask bs ↔ p.1 ≤ tile_rows mask bs ∧ p.2 ≤ tile_cols mask bs.
Proof. unfold traversal. by rewrite elem_of_visits, !elem_of_range_down. Qed.

Lemma elem_of_tiles mask bs p : p ∈ tiles mask bs ↔ in_grid mask bs p.
Proof. unfold tiles, in_grid. by rewrite elem_of_visits, !elem_of_range_below. Qed.

(** A strictly sorted list splits around each of its elements, with the
    elements before it on one side and those after it on the other. *)
Lemma sorted_split (l : list (nat * nat)) p :
  StronglySorted (λ p q, before q p) l → p ∈ l →
  ∃ pre post, l = pre ++ p :: post ∧
    Forall (λ q, before p q) pre ∧ Forall (λ q, before q p) post.
Proof.
  intros Hs (pre & post & ->)%list_elem_of_split. exists pre, post.
  split; [done|].
  apply StronglySorted_app in Hs as (Hpp & _ & Hs).
  apply StronglySorted_cons in Hs as [Hpost _].
  split; [|done]. apply Forall_forall. intros q Hq. apply (Hpp q p Hq). by left.
Qed.

Lemma upto_split `{EqDecision A} (x : A) pre post :
  x ∉ pre → upto x (pre ++ x :: post) = pre ++ [x].
Proof.
  induction pre as [|y pre IH]; intros Hx; simpl.
  - by rewrite decide_True.
  - apply not_elem_of_cons in Hx as [Hne Hx]. rewrite decide_False by done.
    f_equal. by apply IH.
Qed.

(** ** Writing a cell *)

Lemma Array_eta a : mkArray (dtype_of a) (shape a) (data a) = a.
Proof. by destruct a. Qed.

Lemma scatter_ok sh dt a i j v : grid_ok sh dt a → grid_ok sh dt (scatter a i j v).
Proof.
  intros (Hd & Hs & Hl & Hr). repeat split; simpl; [done..| |].
  - by rewrite length_alter.
  - apply Forall_lookup. intros k row Hk.
    rewrite list_lookup_alter in Hk. rewrite Forall_lookup in Hr.
    case_decide; [|by eapply Hr].
    apply fmap_Some in Hk as (row' & Hk & ->). rewrite length_insert. by eapply Hr.
Qed.

Lemma zeros_ok sh dt : grid_ok sh dt (zeros sh dt).
Proof.
  repeat split; simpl.
  - by rewrite length_replicate.
  - apply Forall_replicate. by rewrite length_replicate.
Qed.

Lemma cell_zeros sh dt i j : i < sh.1 → j < sh.2 → cell (zeros sh dt) i j = Some 0%Z.
Proof.
  intros Hi Hj. unfold cell, zeros. simpl.
  rewrite lookup_replicate_2 by done. simpl. by rewrite lookup_replicate_2.
Qed.

Lemma cell_scatter_eq sh dt a i j v :
  grid_ok sh dt a → i < sh.1 → j < sh.2 →
  cell (scatter a i j v) i j = Some (astype dt v).
Proof.
  intros (Hd & Hs & Hl & Hr) Hi Hj. unfold cell, scatter. simpl.
  rewrite list_lookup_alter_eq.
  destruct (lookup_lt_is_Some_2 (data a) i) as [row Hrow]; [lia|].
  rewrite Hrow. simpl. rewrite Hd. apply list_lookup_insert_eq.
  rewrite Forall_lookup in Hr. rewrite (Hr _ _ Hrow). done.
Qed.

Lemma cell_scatter_ne a i j v i' j' :
  (i, j) ≠ (i', j') → cell (scatter a i j v) i' j' = cell a i' j'.
Proof.
  intros Hne. unfold cell, scatter. simpl.
  rewrite list_lookup_alter. case_decide as Hi; [|done]. subst i'.
  destruct (data a !! i) as [row|]; [|done]. simpl.
  apply list_lookup_insert_ne. congruence.
Qed.

(** A write outside the grid is dropped. *)
Lemma scatter_out sh dt a i j v :
  grid_ok sh dt a → sh.1 ≤ i ∨ sh.2 ≤ j → scatter a i j v = a.
Proof.
  intros (Hd & Hs & Hl & Hr) Hout. unfold scatter.
  rewrite <- (Array_eta a) at 4. f_equal.
  apply list_eq. intros k. rewrite list_lookup_alter. case_decide as Hk; [|done].
  subst k. destruct (data a !! i) as [row|] eqn:Hrow; [|done]. simpl. f_equal.
  rewrite Forall_lookup in Hr. apply list_insert_ge.
  rewrite (Hr _ _ Hrow). apply lookup_lt_Some in Hrow. lia.
Qed.

(** ** One iteration *)

Lemma grid_of_register g b i j st :
  grid_of g (register_block b i j st) = grid_of g st.
Proof.
  unfold register_block.
  by destruct (list_index _ _), g.
Qed.

(** Every grid is written at the visited coordinate, with the value of the
    local variables after the [if] statement. *)
Lemma grid_of_body g mask bs p st :
  let st' := loop_step mask bs.1 bs.2 p.1 p.2 st in
  grid_of g st' = scatter (grid_of g st) p.1 p.2 (written g mask bs p st').
Proof.
  unfold loop_step, written, active, tile. simpl.
  destruct (jnp_any _) eqn:Hany.
  - destruct g; simpl; f_equal;
      try apply (grid_of_register BlockMask);
      try apply (grid_of_register PrefetchMask);
      try apply (grid_of_register PrefetchI);
      try apply (grid_of_register PrefetchJ).
  - by destruct g.
Qed.

Lemma body_grids_ok mask bs p st :
  grids_ok mask bs st → grids_ok mask bs (loop_step mask bs.1 bs.2 p.1 p.2 st).
Proof.
  intros Hok g. rewrite grid_of_body. apply scatter_ok, Hok.
Qed.

Lemma init_grids_ok mask bs : grids_ok mask bs (init_locals mask bs.1 bs.2).
Proof.
  intros g. unfold init_locals, tile_rows, tile_cols.
  destruct (shape mask) as [M N]. destruct g; apply zeros_ok.
Qed.

Lemma run_grids_ok mask bs vis st :
  grids_ok mask bs st → grids_ok mask bs (run mask bs vis st).
Proof.
  revert st. induction vis as [|p vis IH]; intros st Hok; [done|].
  apply IH, body_grids_ok, Hok.
Qed.

Lemma body_cell_eq g mask bs p st :
  grids_ok mask bs st → in_grid mask bs p →
  let st' := loop_step mask bs.1 bs.2 p.1 p.2 st in
  cell (grid_of g st') p.1 p.2 = Some (astype (dtype_of mask) (written g mask bs p st')).
Proof.
  intros Hok [Hi Hj]. simpl. rewrite grid_of_body.
  eapply cell_scatter_eq; [apply Hok|done..].
Qed.

Lemma body_cell_ne g mask bs p q st :
  p ≠ q →
  cell (grid_of g (loop_step mask bs.1 bs.2 p.1 p.2 st)) q.1 q.2 =
  cell (grid_of g st) q.1 q.2.
Proof.
  intros Hne. rewrite grid_of_body. apply cell_scatter_ne.
  destruct p, q. simpl. done.
Qed.

Lemma run_cell_notin g mask bs vis q st :
  q ∉ vis →
  cell (grid_of g (run mask bs vis st)) q.1 q.2 = cell (grid_of g st) q.1 q.2.
Proof.
  revert st. induction vis as [|p vis IH]; intros st Hq; [done|].
  apply not_elem_of_cons in Hq as [Hne Hq].
  rewrite run_cons, IH by done. by apply body_cell_ne.
Qed.

(** After the loops, a cell of the grid holds what the iteration at its
    coordinate wrote, converted to the dtype of the mask. *)
Lemma traversal_cell g mask bs p :
  in_grid mask bs p →
  cell (grid_of g (run mask bs (traversal mask bs) (init_locals mask bs.1 bs.2)))
       p.1 p.2 =
  Some (astype (dtype_of mask) (written g mask bs p (locals_at mask bs p))).
Proof.
  intros Hin. unfold locals_at.
  assert (p ∈ traversal mask bs) as Hp.
  { apply elem_of_traversal. destruct Hin. lia. }
  destruct (sorted_split _ _ (traversal_sorted mask bs) Hp)
    as (pre & post & Heq & Hpre & Hpost).
  assert (p ∉ pre) as Hnpre.
  { intros Hq. rewrite Forall_forall in Hpre. by apply (before_irrefl p), Hpre. }
  assert (p ∉ post) as Hnpost.
  { intros Hq. rewrite Forall_forall in Hpost. by apply (before_irrefl p), Hpost. }
  rewrite Heq, upto_split by done.
  rewrite (assoc_L _ pre [p] post : pre ++ p :: post = (pre ++ [p]) ++ post) at 1.
  rewrite run_app, run_cell_notin by done.
  rewrite run_snoc. apply body_cell_eq; [|done].
  apply run_grids_ok, init_grids_ok.
Qed.

(** ** Looking up a key *)

Lemma list_index_None `{EqDecision A} (x : A) l : list_index x l = None ↔ x ∉ l.
Proof.
  unfold list_index. rewrite fmap_None, list_find_None, Forall_forall. naive_solver.
Qed.

Lemma list_index_Some `{EqDecision A} (x : A) l k :
  list_index x l = Some k → l !! k = Some x.
Proof.
  unfold list_index. intros ([k' y] & Hf & ->)%fmap_Some.
  apply list_find_Some in Hf as (Hl & -> & _). done.
Qed.

Lemma list_index_app_l `{EqDecision A} (x : A) l l' k :
  list_index x l = Some k → list_index x (l ++ l') = Some k.
Proof.
  unfold list_index. intros ([k' y] & Hf & ->)%fmap_Some.
  by rewrite (list_find_app_l _ _ _ _ _ Hf).
Qed.

Lemma list_index_snoc `{EqDecision A} (x : A) l :
  x ∉ l → list_index x (l ++ [x]) = Some (length l).
Proof.
  intros Hx%list_index_None. unfold list_index in *.
  apply fmap_None in Hx. rewrite list_find_app_r by done.
  cbn. by rewrite decide_True.
Qed.

(** ** The carried variables *)

Lemma carried_body mask bs p st :
  carried (loop_step mask bs.1 bs.2 p.1 p.2 st) =
  if active mask bs p then
    match list_index (str (tile mask bs p)) (mask_types_finder st) with
    | Some k => (mask_types_finder st, mask_data st,
                 Z.of_nat k, Z.of_nat p.1, Z.of_nat p.2)
    | None => (mask_types_finder st ++ [str (tile mask bs p)],
               mask_data st ++ [tile mask bs p],
               Z.of_nat (length (mask_types_finder st)), Z.of_nat p.1, Z.of_nat p.2)
    end
  else carried st.
Proof.
  unfold loop_step, active, tile, carried. simpl.
  destruct (jnp_any _); [|done].
  unfold register_block. by destruct (list_index _ _).
Qed.

Lemma body_inactive mask bs p st :
  active mask bs p = false →
  let st' := loop_step mask bs.1 bs.2 p.1 p.2 st in
  mask_types_finder st' = mask_types_finder st ∧ mask_data st' = mask_data st ∧
  next_mask_type_idx st' = next_mask_type_idx st ∧
  next_i st' = next_i st ∧ next_j st' = next_j st.
Proof.
  intros Hact. pose proof (carried_body mask bs p st) as Hc.
  rewrite Hact in Hc. unfold carried in Hc. simpl. by simplify_eq.
Qed.

Lemma body_known mask bs p st k :
  active mask bs p = true →
  list_index (str (tile mask bs p)) (mask_types_finder st) = Some k →
  let st' := loop_step mask bs.1 bs.2 p.1 p.2 st in
  mask_types_finder st' = mask_types_finder st ∧ mask_data st' = mask_data st ∧
  next_mask_type_idx st' = Z.of_nat k ∧
  next_i st' = Z.of_nat p.1 ∧ next_j st' = Z.of_nat p.2.
Proof.
  intros Hact Hk. pose proof (carried_body mask bs p st) as Hc.
  rewrite Hact, Hk in Hc. unfold carried in Hc. simpl. by simplify_eq.
Qed.

Lemma body_new mask bs p st :
  active mask bs p = true →
  list_index (str (tile mask bs p)) (mask_types_finder st) = None →
  let st' := loop_step mask bs.1 bs.2 p.1 p.2 st in
  mask_types_finder st' = mask_types_finder st ++ [str (tile mask bs p)] ∧
  mask_data st' = mask_data st ++ [tile mask bs p] ∧
  next_mask_type_idx st' = Z.of_nat (length (mask_types_finder st)) ∧
  next_i st' = Z.of_nat p.1 ∧ next_j st' = Z.of_nat p.2.
Proof.
  intros Hact Hk. pose proof (carried_body mask bs p st) as Hc.
  rewrite Hact, Hk in Hc. unfold carried in Hc. simpl. by simplify_eq.
Qed.

Lemma nonzero_blocks_cons mask bs p vis :
  nonzero_blocks mask bs (p :: vis) =
  if active mask bs p then tile mask bs p :: nonzero_blocks mask bs vis
  else nonzero_blocks mask bs vis.
Proof.
  unfold nonzero_blocks, active. rewrite fmap_cons, filter_cons.
  destruct (jnp_any _); [by rewrite decide_True | by rewrite decide_False].
Qed.

(** [mask_data] is extended with the blocks whose [str] is new, in the order
    of the visits, and [mask_types_finder] holds their [str]. *)
Lemma run_mask_data mask bs vis st :
  mask_types_finder st = str <$> mask_data st →
  mask_data (run mask bs vis st) =
    mask_data st ++ distinct_by str (mask_types_finder st) (nonzero_blocks mask bs vis) ∧
  mask_types_finder (run mask bs vis st) = str <$> mask_data (run mask bs vis st).
Proof.
  revert st. induction vis as [|p vis IH]; intros st Hf.
  { cbn. by rewrite app_nil_r. }
  rewrite run_cons, nonzero_blocks_cons.
  destruct (active mask bs p) eqn:Hact.
  - destruct (list_index (str (tile mask bs p)) (mask_types_finder st)) as [k|] eqn:Hk.
    + destruct (body_known _ _ _ _ _ Hact Hk) as (Hfi & Hda & _).
      destruct (IH (loop_step mask bs.1 bs.2 p.1 p.2 st)) as [IH1 IH2]; [congruence|].
      split; [|done]. rewrite IH1, Hfi, Hda. cbn. rewrite decide_True; [done|].
      apply list_index_Some in Hk. by eapply list_elem_of_lookup_2.
    + destruct (body_new _ _ _ _ Hact Hk) as (Hfi & Hda & _).
      destruct (IH (loop_step mask bs.1 bs.2 p.1 p.2 st)) as [IH1 IH2].
      { rewrite Hfi, Hda, fmap_app. cbn. congruence. }
      split; [|done]. rewrite IH1, Hfi, Hda. cbn.
      apply list_index_None in Hk. rewrite decide_False by done.
      by rewrite <- (assoc_L (++)).
  - destruct (body_inactive _ _ _ st Hact) as (Hfi & Hda & _).
    destruct (IH (loop_step mask bs.1 bs.2 p.1 p.2 st)) as [IH1 IH2]; [congruence|].
    split; [|done]. by rewrite IH1, Hfi, Hda.
Qed.

Lemma run_finder_prefix mask bs vis st :
  mask_types_finder st `prefix_of` mask_types_finder (run mask bs vis st).
Proof.
  revert st. induction vis as [|p vis IH]; intros st; [done|].
  rewrite run_cons. etrans; [|apply IH].
  destruct (active mask bs p) eqn:Hact.
  - destruct (list_index (str (tile mask bs p)) (mask_types_finder st)) as [k|] eqn:Hk.
    + destruct (body_known _ _ _ _ _ Hact Hk) as (-> & _). done.
    + destruct (body_new _ _ _ _ Hact Hk) as (-> & _). by apply prefix_app_r.
  - destruct (body_inactive _ _ _ st Hact) as (-> & _). done.
Qed.

Lemma elem_of_distinct_by {A K} `{EqDecision K} (key : A → K) seen l x :
  x ∈ distinct_by key seen l → x ∈ l.
Proof.
  revert seen. induction l as [|y l IH]; intros seen; cbn; [done|].
  case_decide; rewrite ?elem_of_cons; [right; by eapply IH|].
  intros [->|Hx]; [by left|right; by eapply IH].
Qed.

Lemma elem_of_nonzero_blocks mask bs vis b :
  b ∈ nonzero_blocks mask bs vis ↔ ∃ p, p ∈ vis ∧ active mask bs p = true ∧ b = tile mask bs p.
Proof.
  unfold nonzero_blocks, active. rewrite list_elem_of_filter, list_elem_of_fmap.
  split.
  - intros (Hb & p & -> & Hp). by exists p.
  - intros (p & Hp & Hb & ->). split; [done|]. by exists p.
Qed.

(** The [next_] variables are those of the last active visit. *)
Lemma run_next mask bs vis st :
  match last_active mask bs vis with
  | None =>
      next_mask_type_idx (run mask bs vis st) = next_mask_type_idx st ∧
      next_i (run mask bs vis st) = next_i st ∧
      next_j (run mask bs vis st) = next_j st
  | Some p =>
      next_i (run mask bs vis st) = Z.of_nat p.1 ∧
      next_j (run mask bs vis st) = Z.of_nat p.2 ∧
      ∃ k, next_mask_type_idx (run mask bs vis st) = Z.of_nat k ∧
           list_index (str (tile mask bs p))
                      (mask_types_finder (run mask bs vis st)) = Some k
  end.
Proof.
  induction vis as [|p vis IH] using rev_ind; [done|].
  unfold last_active in *. rewrite filter_app, run_snoc, filter_cons, filter_nil.
  destruct (active mask bs p) eqn:Hact.
  - rewrite decide_True by done. rewrite last_snoc.
    destruct (list_index (str (tile mask bs p))
                (mask_types_finder (run mask bs vis st))) as [k|] eqn:Hk.
    + destruct (body_known _ _ _ _ _ Hact Hk) as (Hfi & Hda & Hidx & Hni & Hnj).
      split_and!; [done..|]. exists k. by rewrite Hfi.
    + destruct (body_new _ _ _ _ Hact Hk) as (Hfi & Hda & Hidx & Hni & Hnj).
      split_and!; [done..|]. eexists. split; [done|]. rewrite Hfi.
      apply list_index_snoc, list_index_None, Hk.
  - rewrite decide_False by done. rewrite app_nil_r.
    destruct (body_inactive _ _ _ (run mask bs vis st) Hact) as (Hfi & Hda & Hidx & Hni & Hnj).
    rewrite Hfi, Hidx, Hni, Hnj. apply IH.
Qed.

(** ** The blocks of a mask *)

Lemma existsb_false {A} (f : A → bool) l :
  Forall (λ x, f x = false) l → existsb f l = false.
Proof. induction 1 as [|x l Hx _ IH]; [done|]. simpl. by rewrite Hx, IH. Qed.

Lemma py_slice_beyond {A} start stop (l : list A) :
  length l ≤ start → py_slice start stop l = [].
Proof. intros Hl. unfold py_slice. by rewrite drop_ge, take_nil. Qed.

Lemma Forall_py_slice {A} (P : A → Prop) start stop l :
  Forall P l → Forall P (py_slice start stop l).
Proof. intros Hl. unfold py_slice. by apply Forall_take, Forall_drop. Qed.

Lemma div_mul_exact M b : 0 < b → M `mod` b = 0 → M / b * b = M.
Proof.
  intros Hb Hmod. pose proof (Nat.div_mod M b). lia.
Qed.

(** The tiles of the grid have the shape of a block. *)
Lemma tile_shape mask bs p :
  0 < bs.1 → 0 < bs.2 → in_grid mask bs p → shape (tile mask bs p) = bs.
Proof.
  intros Hm Hn [Hi Hj]. unfold tile, mask_block_at, getitem, tile_rows, tile_cols in *.
  destruct bs as [bm bn], p as [i j]. simpl in *. unfold slice_len.
  pose proof (Nat.Div0.mul_div_le (shape mask).1 bm).
  pose proof (Nat.Div0.mul_div_le (shape mask).2 bn).
  f_equal; nia.
Qed.

(** For a mask that meets the precondition, the blocks one index beyond the
    grid are empty, hence not active. *)
Lemma well_formed_outside_empty mask bs p :
  well_formed mask bs → ¬ in_grid mask bs p →
  Forall (λ row, row = []) (data (tile mask bs p)).
Proof.
  intros ((Hlen & Hrows) & Hm & Hn & Hmod1 & Hmod2) Hout.
  unfold tile, mask_block_at, getitem, in_grid, tile_rows, tile_cols in *.
  simpl. apply Forall_fmap.
  destruct (decide (p.1 < (shape mask).1 / bs.1)) as [Hi|Hi].
  - assert ((shape mask).2 / bs.2 ≤ p.2) as Hj by lia.
    apply Forall_py_slice. apply (Forall_impl _ _ _ Hrows). intros row [Hrow _]. simpl.
    rewrite py_slice_beyond; [done|].
    rewrite Hrow, <- (div_mul_exact (shape mask).2 bs.2) by done. nia.
  - rewrite py_slice_beyond; [constructor|].
    rewrite Hlen, <- (div_mul_exact (shape mask).1 bs.1) by done. nia.
Qed.

Lemma well_formed_outside mask bs p :
  well_formed mask bs → ¬ in_grid mask bs p → active mask bs p = false.
Proof.
  intros Hwf Hout. unfold active, jnp_any.
  apply existsb_false, (Forall_impl _ _ _ (well_formed_outside_empty mask bs p Hwf Hout)).
  by intros row ->.
Qed.

Lemma well_formed_outside_inactive mask bs :
  well_formed mask bs → outside_inactive mask bs.
Proof.
  intros Hwf. apply Forall_forall. intros p _.
  destruct (decide (in_grid mask bs p)); [by left|right].
  by apply well_formed_outside.
Qed.

(** ** The iterations outside the grid *)

Lemma locals_eta st :
  mkLocals (block_mask st) (mask_types_finder st) (mask_data st)
           (next_mask_type_idx st) (prefetch_mask st) (next_i st) (next_j st)
           (prefetch_i st) (prefetch_j st) = st.
Proof. by destruct st. Qed.

(** ** The loops of the code and the run

    On grids that have no axis of size 0 no write raises, and the loops of
    the code are the run over their visits.  On a grid with an axis of size
    0 the first write of the first iteration raises IndexError. *)

Lemma range_down_below n : range_down n = n :: range_below n.
Proof. by destruct n. Qed.

Lemma at_set_scatter sh dt a i j v :
  grid_ok sh dt a → 0 < sh.1 → 0 < sh.2 → at_set a i j v = Ok (scatter a i j v).
Proof.
  intros (_ & Hs & _) H1 H2. unfold at_set. rewrite Hs.
  by rewrite decide_False by lia.
Qed.

Lemma loop_body_step mask bs p st :
  grids_ok mask bs st → nonempty_grid mask bs →
  loop_body mask bs.1 bs.2 p.1 p.2 st = Ok (loop_step mask bs.1 bs.2 p.1 p.2 st).
Proof.
  intros Hok [H1 H2]. unfold loop_body, loop_step.
  set (st' := if jnp_any _ then _ else st).
  assert (∀ g, grid_of g st' = grid_of g st) as Hg.
  { intros g. unfold st'. destruct (jnp_any _); [apply grid_of_register|done]. }
  assert (∀ g v, at_set (grid_of g st') p.1 p.2 v = Ok (scatter (grid_of g st') p.1 p.2 v))
    as Hset.
  { intros g v. eapply at_set_scatter; [rewrite Hg; apply Hok|done..]. }
  rewrite (Hset BlockMask). cbn [mbind result_bind].
  rewrite (Hset PrefetchMask). cbn [mbind result_bind].
  rewrite (Hset PrefetchI). cbn [mbind result_bind].
  rewrite (Hset PrefetchJ). done.
Qed.

Lemma loop_body_empty_grid mask bs p st :
  grids_ok mask bs st → ¬ nonempty_grid mask bs →
  loop_body mask bs.1 bs.2 p.1 p.2 st = Raise IndexError.
Proof.
  intros Hok Hempty. unfold loop_body.
  set (st' := if jnp_any _ then _ else st).
  assert (block_mask st' = block_mask st) as ->.
  { unfold st'. destruct (jnp_any _); [apply (grid_of_register BlockMask)|done]. }
  destruct (Hok BlockMask) as (_ & Hs & _). simpl in Hs.
  assert (∀ v, at_set (block_mask st) p.1 p.2 v = Raise IndexError) as ->; [|done].
  intros v. unfold at_set. rewrite Hs. apply decide_True.
  unfold nonempty_grid in Hempty. simpl. lia.
Qed.

Lemma for_loop_run mask bs vis st :
  grids_ok mask bs st → nonempty_grid mask bs →
  for_loop (λ st p, loop_body mask bs.1 bs.2 p.1 p.2 st) st vis = Ok (run mask bs vis st).
Proof.
  intros Hok Hne. revert st Hok.
  induction vis as [|p vis IH]; intros st Hok; [done|].
  cbn [for_loop]. rewrite loop_body_step by done. cbn [mbind result_bind].
  rewrite IH by by apply body_grids_ok. done.
Qed.

Lemma loops_run mask bs irange jrange st :
  grids_ok mask bs st → nonempty_grid mask bs →
  loops mask bs.1 bs.2 irange jrange st = Ok (run mask bs (visits irange jrange) st).
Proof.
  intros Hok Hne. unfold loops, visits. revert st Hok.
  induction irange as [|i irange IH]; intros st Hok; [done|].
  cbn [for_loop]. rewrite bind_cons, run_app.
  assert (for_loop (λ st j, loop_body mask bs.1 bs.2 i j st) st jrange =
          Ok (run mask bs (pair i <$> jrange) st)) as ->.
  { clear IH. revert st Hok. induction jrange as [|j jrange IH]; intros st Hok; [done|].
    cbn [for_loop]. rewrite (loop_body_step mask bs (i, j)) by done.
    cbn [mbind result_bind]. rewrite IH by by apply (body_grids_ok mask bs (i, j)).
    done. }
  cbn [mbind result_bind]. apply IH, run_grids_ok, Hok.
Qed.

(** Loops with no iteration, as those over the tile grid alone when it has
    an axis of size 0. *)
Lemma loops_no_visit mask bm bn irange jrange st :
  irange = [] ∨ jrange = [] → loops mask bm bn irange jrange st = Ok st.
Proof.
  intros [->| ->]; [done|]. unfold loops.
  induction irange as [|i irange IH]; [done|]. cbn. apply IH.
Qed.

Lemma visits_no_visit irange jrange :
  irange = [] ∨ jrange = [] → visits irange jrange = [].
Proof.
  intros [->| ->]; [done|]. unfold visits.
  induction irange as [|i irange IH]; [done|]. by rewrite bind_cons, IH.
Qed.

Lemma sparsify_mask_run mask bs :
  0 < bs.1 → 0 < bs.2 → nonempty_grid mask bs →
  sparsify_mask mask bs =
  finish (run mask bs (traversal mask bs) (init_locals mask bs.1 bs.2)).
Proof.
  intros Hm Hn Hne. pose proof (init_grids_ok mask bs) as Hok.
  pose proof (loops_run mask bs (range_down (tile_rows mask bs))
                (range_down (tile_cols mask bs)) _ Hok Hne) as Hrun.
  unfold sparsify_mask, traversal, tile_rows, tile_cols in *.
  destruct (shape mask) as [M N] eqn:Hs, bs as [bm bn]. simpl in *.
  rewrite decide_False by lia. by rewrite Hrun.
Qed.

(** On a tile grid with an axis of size 0 the first iteration raises. *)
Lemma sparsify_mask_empty_grid mask bs :
  0 < bs.1 → 0 < bs.2 → ¬ nonempty_grid mask bs →
  sparsify_mask mask bs = Raise IndexError.
Proof.
  intros Hm Hn Hempty. pose proof (init_grids_ok mask bs) as Hok.
  pose proof (loop_body_empty_grid mask bs
                (tile_rows mask bs, tile_cols mask bs) _ Hok Hempty) as Hraise.
  unfold sparsify_mask, loops, tile_rows, tile_cols in *.
  destruct (shape mask) as [M N] eqn:Hs, bs as [bm bn]. simpl in *.
  rewrite decide_False by lia.
  rewrite (range_down_below (M / bm)), (range_down_below (N / bn)).
  cbn [for_loop]. by rewrite Hraise.
Qed.

Lemma sparsify_mask_inrange_run mask bs :
  0 < bs.1 → 0 < bs.2 →
  sparsify_mask_inrange mask bs =
  finish (run mask bs (tiles mask bs) (init_locals mask bs.1 bs.2)).
Proof.
  intros Hm Hn. pose proof (init_grids_ok mask bs) as Hok.
  assert (loops mask bs.1 bs.2 (range_below (tile_rows mask bs))
            (range_below (tile_cols mask bs)) (init_locals mask bs.1 bs.2) =
          Ok (run mask bs (tiles mask bs) (init_locals mask bs.1 bs.2))) as Hrun.
  { destruct (decide (nonempty_grid mask bs)) as [Hne|Hempty].
    - by apply loops_run.
    - assert (range_below (tile_rows mask bs) = [] ∨ range_below (tile_cols mask bs) = [])
        as Hnone.
      { unfold nonempty_grid in Hempty.
        destruct (tile_rows mask bs), (tile_cols mask bs); simpl; auto. lia. }
      unfold tiles. by rewrite loops_no_visit, visits_no_visit. }
  unfold sparsify_mask_inrange, tile_rows, tile_cols in *.
  destruct (shape mask) as [M N] eqn:Hs, bs as [bm bn]. simpl in *.
  rewrite decide_False by lia. by rewrite Hrun.
Qed.

(** A tile of the grid makes it non-empty. *)
Lemma in_grid_nonempty mask bs p : in_grid mask bs p → nonempty_grid mask bs.
Proof. unfold in_grid, nonempty_grid. lia. Qed.

(** An iteration outside the grid on a block that is not active changes
    nothing: its writes are dropped. *)
Lemma body_outside mask bs p st :
  grids_ok mask bs st → ¬ in_grid mask bs p → active mask bs p = false →
  loop_step mask bs.1 bs.2 p.1 p.2 st = st.
Proof.
  intros Hok Hout Hact.
  assert (∀ g v, scatter (grid_of g st) p.1 p.2 v = grid_of g st) as Hset.
  { intros g v. eapply scatter_out; [apply Hok|]. unfold in_grid in Hout. simpl. lia. }
  unfold loop_step. unfold active, tile in Hact. rewrite Hact.
  rewrite (Hset BlockMask), (Hset PrefetchMask), (Hset PrefetchI), (Hset PrefetchJ).
  apply locals_eta.
Qed.

Lemma run_filter_in_grid mask bs vis st :
  grids_ok mask bs st →
  Forall (λ p, in_grid mask bs p ∨ active mask bs p = false) vis →
  run mask bs vis st = run mask bs (filter (in_grid mask bs) vis) st.
Proof.
  intros Hok Hvis. revert st Hok.
  induction Hvis as [|p vis Hp _ IH]; intros st Hok; [done|].
  rewrite filter_cons, run_cons. case_decide as Hin.
  - rewrite run_cons. apply IH, body_grids_ok, Hok.
  - destruct Hp as [?|Hact]; [done|].
    rewrite body_outside by done. by apply IH.
Qed.

Lemma filter_all {A} (P : A → Prop) `{∀ x, Decision (P x)} l :
  Forall P l → filter P l = l.
Proof.
  induction 1 as [|x l Hx _ IH]; [done|]. by rewrite filter_cons_True, IH.
Qed.

Lemma filter_none {A} (P : A → Prop) `{∀ x, Decision (P x)} l :
  Forall (λ x, ¬ P x) l → filter P l = [].
Proof.
  induction 1 as [|x l Hx _ IH]; [done|]. by rewrite filter_cons_False, IH.
Qed.

Lemma filter_visits_in_grid mask bs irange :
  Forall (λ i, i < tile_rows mask bs) irange →
  filter (in_grid mask bs) (visits irange (range_down (tile_cols mask bs))) =
  visits irange (range_below (tile_cols mask bs)).
Proof.
  induction 1 as [|i irange Hi _ IH]; [done|].
  unfold visits in *. rewrite !bind_cons, filter_app, IH. f_equal.
  rewrite range_down_below, fmap_cons, filter_cons_False.
  2:{ unfold in_grid. simpl. lia. }
  apply filter_all, Forall_fmap, Forall_forall.
  intros j Hj%elem_of_range_below. by split.
Qed.

Lemma filter_traversal mask bs :
  filter (in_grid mask bs) (traversal mask bs) = tiles mask bs.
Proof.
  unfold traversal, tiles. rewrite (range_down_below (tile_rows mask bs)).
  unfold visits at 1. rewrite bind_cons, filter_app.
  change (filter (in_grid mask bs) (?l ≫= _)) with (filter (in_grid mask bs) (visits l (range_down (tile_cols mask bs)))).
  rewrite filter_visits_in_grid.
  2:{ apply Forall_forall. by intros i Hi%elem_of_range_below. }
  rewrite filter_none; [done|].
  apply Forall_fmap, Forall_forall. intros j _. unfold in_grid. simpl. lia.
Qed.

Lemma outside_inactive_tiles mask bs :
  outside_inactive mask bs → final mask bs = run mask bs (tiles mask bs) (init_locals mask bs.1 bs.2).
Proof.
  intros Hout. unfold final.
  rewrite run_filter_in_grid by (apply init_grids_ok || done).
  by rewrite filter_traversal.
Qed.

Lemma outside_inactive_inrange mask bs :
  0 < bs.1 → 0 < bs.2 → nonempty_grid mask bs → outside_inactive mask bs →
  sparsify_mask mask bs = sparsify_mask_inrange mask bs.
Proof.
  intros Hm Hn Hne Hout.
  rewrite sparsify_mask_run, sparsify_mask_inrange_run by done.
  f_equal. by apply outside_inactive_tiles.
Qed.

(** ** The stacked mask data *)

Lemma init_carried mask bs :
  carried (init_locals mask bs.1 bs.2) =
  ([], [], 0%Z, (Z.of_nat (tile_rows mask bs) - 1)%Z, (Z.of_nat (tile_cols mask bs) - 1)%Z).
Proof. unfold init_locals, carried, tile_rows, tile_cols. by destruct (shape mask). Qed.

Lemma init_mask_data mask bs :
  mask_data (init_locals mask bs.1 bs.2) = [] ∧
  mask_types_finder (init_locals mask bs.1 bs.2) = [].
Proof. pose proof (init_carried mask bs) as Hc. unfold carried in Hc. by simplify_eq. Qed.

Lemma init_next mask bs :
  next_mask_type_idx (init_locals mask bs.1 bs.2) = 0%Z ∧
  next_i (init_locals mask bs.1 bs.2) = (Z.of_nat (tile_rows mask bs) - 1)%Z ∧
  next_j (init_locals mask bs.1 bs.2) = (Z.of_nat (tile_cols mask bs) - 1)%Z.
Proof. pose proof (init_carried mask bs) as Hc. unfold carried in Hc. by simplify_eq. Qed.

(** [mask_data] holds the non-zero blocks of the visits whose [str] is seen
    for the first time, in the order of the visits. *)
Lemma run_init_mask_data mask bs vis :
  let st := run mask bs vis (init_locals mask bs.1 bs.2) in
  mask_data st = distinct_by str [] (nonzero_blocks mask bs vis) ∧
  mask_types_finder st = str <$> mask_data st.
Proof.
  destruct (init_mask_data mask bs) as [Hd Hf]. simpl.
  destruct (run_mask_data mask bs vis (init_locals mask bs.1 bs.2)) as [H1 H2].
  { by rewrite Hd, Hf. }
  by rewrite H1, Hd, Hf in *.
Qed.

Lemma final_mask_data mask bs :
  mask_data (final mask bs) = distinct_by str [] (nonzero_blocks mask bs (traversal mask bs)) ∧
  mask_types_finder (final mask bs) = str <$> mask_data (final mask bs).
Proof. apply run_init_mask_data. Qed.

Lemma stack_same_shape sh a arrays :
  Forall (λ b, shape b = sh) (a :: arrays) →
  stack (a :: arrays) =
  Ok (mkArray3 (dtype_of a) (length (a :: arrays), sh.1, sh.2) (data <$> a :: arrays)).
Proof.
  intros Hall. unfold stack.
  assert (forallb (λ b, bool_decide (shape b = shape a)) (a :: arrays) = true) as ->.
  { apply Is_true_true, forallb_True, (Forall_impl _ _ _ Hall).
    intros b Hb. apply bool_decide_spec. by rewrite Hb, (Forall_inv Hall). }
  by rewrite <- (Forall_inv Hall).
Qed.

Lemma distinct_by_nil {A K} `{EqDecision K} (key : A → K) seen l :
  distinct_by key seen l = [] → Forall (λ x, key x ∈ seen) l.
Proof.
  induction l as [|x l IH]; cbn; [done|].
  case_decide; [|done]. intros Hl. constructor; auto.
Qed.

Lemma length_distinct_by {A K} `{EqDecision K} (key : A → K) seen l :
  length (distinct_by key seen l) ≤ length l.
Proof.
  revert seen. induction l as [|x l IH]; intros seen; cbn; [done|].
  case_decide; cbn; [etrans; [apply IH|lia]|]. specialize (IH (seen ++ [key x])). lia.
Qed.

Lemma has_active_tile_nonempty mask bs : has_active_tile mask bs → nonempty_grid mask bs.
Proof.
  intros (p & Hp%elem_of_tiles & _)%Exists_exists. by eapply in_grid_nonempty.
Qed.

(** With an active tile and nothing active outside the grid the function
    returns, and what it returns is read in the final local variables. *)
Lemma sparsify_mask_returns mask bs :
  0 < bs.1 → 0 < bs.2 → outside_inactive mask bs → has_active_tile mask bs →
  ∃ md, sparsify_mask mask bs =
          Ok (block_mask (final mask bs), prefetch_mask (final mask bs),
              prefetch_i (final mask bs), prefetch_j (final mask bs), md) ∧
        data3 md = data <$> mask_data (final mask bs) ∧
        dtype3 md = dtype_of mask ∧
        shape3 md = (length (mask_data (final mask bs)), bs.1, bs.2).
Proof.
  intros Hm Hn Hout Hact.
  rewrite sparsify_mask_run by (done || by apply has_active_tile_nonempty).
  fold (final mask bs).
  destruct (final_mask_data mask bs) as [Hd _]. unfold finish.
  assert (Forall (λ b, shape b = bs ∧ dtype_of b = dtype_of mask) (mask_data (final mask bs))) as Hsh.
  { rewrite Hd. apply Forall_forall. intros b Hb%elem_of_distinct_by.
    apply elem_of_nonzero_blocks in Hb as (p & Hp & Hpa & ->).
    split; [|done]. apply tile_shape; [done..|].
    unfold outside_inactive in Hout. rewrite Forall_forall in Hout.
    destruct (Hout p Hp) as [?|?]; [done|congruence]. }
  destruct (mask_data (final mask bs)) as [|a arrays] eqn:Hmd.
  { exfalso. symmetry in Hd. apply distinct_by_nil in Hd.
    apply Exists_exists in Hact as (p & Hp & Hpa).
    rewrite Forall_forall in Hd.
    assert (tile mask bs p ∈ nonzero_blocks mask bs (traversal mask bs)) as Hin.
    { apply elem_of_nonzero_blocks. exists p. split_and!; [|done..].
      apply elem_of_tiles in Hp as [??]. apply elem_of_traversal. lia. }
    specialize (Hd _ Hin). by apply elem_of_nil in Hd. }
  rewrite (stack_same_shape bs).
  2:{ apply (Forall_impl _ _ _ Hsh). by intros b [? _]. }
  eexists. split; [done|]. simpl. split_and!; [done| |done].
  by destruct (Forall_inv Hsh).
Qed.

(** With no active tile at all in a grid that has tiles, [jnp.stack] gets an
    empty list. *)
Lemma sparsify_mask_raises mask bs :
  0 < bs.1 → 0 < bs.2 → nonempty_grid mask bs → outside_inactive mask bs →
  ¬ has_active_tile mask bs →
  sparsify_mask mask bs = Raise ValueError.
Proof.
  intros Hm Hn Hne Hout Hact. rewrite sparsify_mask_run by done. fold (final mask bs).
  destruct (final_mask_data mask bs) as [Hd _]. unfold finish. rewrite Hd.
  assert (nonzero_blocks mask bs (traversal mask bs) = []) as ->; [|done].
  apply elem_of_nil_inv. intros b (p & Hp & Hpa & _)%elem_of_nonzero_blocks.
  unfold outside_inactive in Hout. rewrite Forall_forall in Hout.
  destruct (Hout p Hp) as [Hin|?]; [|congruence].
  apply Hact, Exists_exists. exists p. by rewrite elem_of_tiles.
Qed.

(** ** The local variables after the iteration at a coordinate *)

Lemma traversal_split mask bs p :
  p ∈ traversal mask bs →
  ∃ pre post, traversal mask bs = pre ++ p :: post ∧
    Forall (before p) pre ∧ Forall (λ q, before q p) post ∧
    locals_at mask bs p = run mask bs (pre ++ [p]) (init_locals mask bs.1 bs.2) ∧
    final mask bs = run mask bs post (locals_at mask bs p).
Proof.
  intros Hp.
  destruct (sorted_split _ _ (traversal_sorted mask bs) Hp)
    as (pre & post & Heq & Hpre & Hpost).
  exists pre, post. split_and!; [done..| |].
  - unfold locals_at. rewrite Heq, upto_split; [done|].
    intros Hq. rewrite Forall_forall in Hpre. by apply (before_irrefl p), Hpre.
  - unfold locals_at, final. rewrite Heq at 1 2. rewrite upto_split.
    + by rewrite <- run_app, <- (assoc_L (++)).
    + intros Hq. rewrite Forall_forall in Hpre. by apply (before_irrefl p), Hpre.
Qed.

Lemma locals_at_finder_prefix mask bs p :
  p ∈ traversal mask bs →
  mask_types_finder (locals_at mask bs p) `prefix_of` mask_types_finder (final mask bs).
Proof.
  intros (pre & post & _ & _ & _ & _ & ->)%traversal_split. apply run_finder_prefix.
Qed.

Lemma list_index_prefix `{EqDecision A} (x : A) l l' k :
  l `prefix_of` l' → list_index x l = Some k → list_index x l' = Some k.
Proof. intros [l'' ->]. apply list_index_app_l. Qed.

(** The three cases of the carried variables after the iteration at a tile:
    the tile is active; it is not and an active tile follows it in the
    forward order; it is not and none follows. *)
Lemma locals_at_next mask bs p :
  outside_inactive mask bs → in_grid mask bs p →
  let st := locals_at mask bs p in
  (active mask bs p = true ∧
   next_i st = Z.of_nat p.1 ∧ next_j st = Z.of_nat p.2 ∧
   ∃ k, next_mask_type_idx st = Z.of_nat k ∧
        list_index (str (tile mask bs p)) (mask_types_finder (final mask bs)) = Some k)
  ∨ (active mask bs p = false ∧
     ∃ q, next_active mask bs p q ∧
       next_i st = Z.of_nat q.1 ∧ next_j st = Z.of_nat q.2 ∧
       ∃ k, next_mask_type_idx st = Z.of_nat k ∧
            list_index (str (tile mask bs q)) (mask_types_finder (final mask bs)) = Some k)
  ∨ (active mask bs p = false ∧ no_active_after mask bs p ∧
     next_mask_type_idx st = 0%Z ∧
     next_i st = (Z.of_nat (tile_rows mask bs) - 1)%Z ∧
     next_j st = (Z.of_nat (tile_cols mask bs) - 1)%Z).
Proof.
  intros Hout Hin. simpl.
  assert (p ∈ traversal mask bs) as Hp.
  { apply elem_of_traversal. destruct Hin. lia. }
  pose proof (locals_at_finder_prefix mask bs p Hp) as Hpref.
  destruct (traversal_split mask bs p Hp) as (pre & post & Heq & Hpre & Hpost & Hat & _).
  pose proof (run_next mask bs (pre ++ [p]) (init_locals mask bs.1 bs.2)) as Hnext.
  rewrite <- Hat in Hnext. unfold last_active in Hnext.
  rewrite filter_app, filter_cons, filter_nil in Hnext.
  pose proof (traversal_sorted mask bs) as Hsorted. rewrite Heq in Hsorted.
  rewrite Forall_forall in Hpre, Hpost.
  unfold outside_inactive in Hout. rewrite Forall_forall in Hout.
  (* where a tile after [p] in the forward order sits in the traversal *)
  assert (∀ r, in_grid mask bs r → before p r → r ∈ pre) as Hafter.
  { intros r [Hr1 Hr2] Hpr.
    assert (r ∈ traversal mask bs) as Hr by (apply elem_of_traversal; lia).
    rewrite Heq in Hr. apply elem_of_app in Hr as [Hr|Hr]; [done|].
    apply elem_of_cons in Hr as [->|Hr]; [by apply before_irrefl in Hpr|].
    destruct (before_irrefl p). eapply before_trans; [done|]. by apply Hpost. }
  destruct (active mask bs p) eqn:Hact.
  - left. rewrite decide_True in Hnext by done. rewrite last_snoc in Hnext.
    destruct Hnext as (Hi & Hj & k & Hk & Hidx). split_and!; [done..|].
    exists k. split; [done|]. by eapply list_index_prefix.
  - right. rewrite decide_False, app_nil_r in Hnext by done.
    destruct (last (filter _ pre)) as [q|] eqn:Hlast.
    + left. split; [done|]. exists q.
      destruct Hnext as (Hi & Hj & k & Hk & Hidx).
      split; [|split_and!; [done..|exists k; split; [done|by eapply list_index_prefix]]].
      pose proof (last_Some_elem_of _ _ Hlast) as Hq.
      apply list_elem_of_filter in Hq as [Hqa Hq].
      apply last_filter_Some in Hlast as (l1 & l2 & Hl & Hl2).
      assert (q ∈ traversal mask bs) as Hqt by (rewrite Heq; apply elem_of_app; by left).
      split_and!; [|done|by apply Hpre|].
      * destruct (Hout q Hqt) as [?|?]; [done|congruence].
      * intros r Hr Hpr Hrq. specialize (Hafter r Hr Hpr).
        rewrite Hl in Hafter. apply elem_of_app in Hafter as [Hr1|Hr1].
        { destruct (before_irrefl r). eapply before_trans; [done|].
          rewrite Hl, <- (assoc_L (++)) in Hsorted.
          apply (StronglySorted_app_1_elem_of _ _ _ r q Hsorted); [done|by left]. }
        apply elem_of_cons in Hr1 as [->|Hr1]; [by apply before_irrefl in Hrq|].
        rewrite Forall_forall in Hl2. specialize (Hl2 r Hr1).
        by destruct (active mask bs r).
    + right. split; [done|].
      destruct (init_next mask bs) as (H0 & H1 & H2).
      destruct Hnext as (-> & -> & ->). split_and!; [|done..].
      intros r Hr Hpr. specialize (Hafter r Hr Hpr).
      apply last_None in Hlast.
      destruct (active mask bs r) eqn:Hra; [|done].
      by destruct (filter_nil_not_elem_of _ _ r Hlast Hra).
Qed.

(** ** The entries of [mask_data] *)

Lemma distinct_by_keys {A K} `{EqDecision K} (key : A → K) seen l :
  NoDup (key <$> distinct_by key seen l) ∧
  Forall (λ x, key x ∉ seen) (distinct_by key seen l).
Proof.
  revert seen. induction l as [|x l IH]; intros seen; cbn.
  { split; constructor. }
  case_decide as Hx; [apply IH|].
  destruct (IH (seen ++ [key x])) as [IH1 IH2]. cbn. split.
  - constructor; [|done]. intros (y & Hxy & Hy)%list_elem_of_fmap.
    rewrite Forall_forall in IH2. apply (IH2 y Hy).
    apply elem_of_app. right. rewrite Hxy. by left.
  - constructor; [done|]. apply (Forall_impl _ _ _ IH2).
    intros y Hy Hin. apply Hy, elem_of_app. by left.
Qed.

(** When [key] tells the elements apart, the first-seen elements by [key]
    are the first-seen elements. *)
Lemma distinct_by_faithful {A K} `{EqDecision A} `{EqDecision K} (key : A → K) seen l :
  (∀ x y, x ∈ seen ++ l → y ∈ seen ++ l → key x = key y → x = y) →
  distinct_by key (key <$> seen) l = distinct_by id seen l.
Proof.
  revert seen. induction l as [|x l IH]; intros seen Hinj; cbn; [done|].
  assert (key x ∈ key <$> seen ↔ x ∈ seen) as Hiff.
  { split; [|apply list_elem_of_fmap_2].
    intros (y & Hxy & Hy)%list_elem_of_fmap.
    rewrite (Hinj x y); [done| |by apply elem_of_app; left|done].
    apply elem_of_app. right. by left. }
  assert (∀ s, (∀ y, y ∈ s → y ∈ seen ++ x :: l) →
               distinct_by key (key <$> s) l = distinct_by id s l) as IH'.
  { intros s Hs. apply IH. intros y z Hy Hz. apply Hinj.
    - apply elem_of_app in Hy as [Hy|Hy]; [by apply Hs|].
      apply elem_of_app. right. by right.
    - apply elem_of_app in Hz as [Hz|Hz]; [by apply Hs|].
      apply elem_of_app. right. by right. }
  destruct (decide (key x ∈ key <$> seen)) as [Hk|Hk].
  - rewrite decide_True by by apply Hiff.
    apply IH'. intros y Hy. apply elem_of_app. by left.
  - rewrite decide_False by by rewrite <- Hiff.
    f_equal. rewrite <- (IH' (seen ++ [x])), fmap_app; [done|].
    intros y [Hy|Hy%list_elem_of_singleton]%elem_of_app; apply elem_of_app;
      [by left|right; subst; by left].
Qed.

Lemma elem_of_final_mask_data mask bs b :
  outside_inactive mask bs → b ∈ mask_data (final mask bs) →
  ∃ p, in_grid mask bs p ∧ active mask bs p = true ∧ b = tile mask bs p.
Proof.
  intros Hout Hb. destruct (final_mask_data mask bs) as [Hd _].
  rewrite Hd in Hb. apply elem_of_distinct_by, elem_of_nonzero_blocks in Hb
    as (p & Hp & Hpa & ->).
  exists p. split_and!; [|done..].
  unfold outside_inactive in Hout. rewrite Forall_forall in Hout.
  destruct (Hout p Hp) as [?|?]; [done|congruence].
Qed.

(** The entry found under the [str] of an active tile is the content of
    that tile, when [str] tells the tiles apart. *)
Lemma final_lookup mask bs q k :
  outside_inactive mask bs → str_faithful mask bs →
  in_grid mask bs q → active mask bs q = true →
  list_index (str (tile mask bs q)) (mask_types_finder (final mask bs)) = Some k →
  mask_data (final mask bs) !! k = Some (tile mask bs q).
Proof.
  intros Hout Hf Hq Hqa Hk. destruct (final_mask_data mask bs) as [_ Hfi].
  apply list_index_Some in Hk. rewrite Hfi, list_lookup_fmap in Hk.
  apply fmap_Some in Hk as (b & Hb & Hstr). rewrite Hb. f_equal.
  destruct (elem_of_final_mask_data mask bs b Hout) as (p & Hp & Hpa & ->).
  { by eapply list_elem_of_lookup_2. }
  unfold str_faithful in Hf. rewrite Forall_forall in Hf.
  assert (p ∈ tiles mask bs) as Hp' by by apply elem_of_tiles.
  assert (q ∈ tiles mask bs) as Hq' by by apply elem_of_tiles.
  specialize (Hf p Hp'). rewrite Forall_forall in Hf. by apply Hf.
Qed.

Lemma length_range_down n : length (range_down n) = S n.
Proof. induction n as [|n IH]; simpl; [done|]. by rewrite IH. Qed.

Lemma length_range_below n : length (range_below n) = n.
Proof. destruct n; [done|]. apply length_range_down. Qed.

Lemma length_visits irange jrange :
  length (visits irange jrange) = length irange * length jrange.
Proof.
  unfold visits. induction irange as [|i irange IH]; [done|].
  rewrite bind_cons, length_app, length_fmap, IH. simpl. lia.
Qed.

(** There are no more entries than tiles. *)
Lemma length_final_mask_data mask bs :
  outside_inactive mask bs →
  length (mask_data (final mask bs)) ≤ tile_rows mask bs * tile_cols mask bs.
Proof.
  intros Hout. rewrite outside_inactive_tiles by done.
  destruct (run_init_mask_data mask bs (tiles mask bs)) as [-> _].
  etrans; [apply length_distinct_by|]. unfold nonzero_blocks.
  etrans; [apply length_filter|]. rewrite length_fmap. unfold tiles.
  by rewrite length_visits, !length_range_below.
Qed.

(** No two entries of [mask_data] have the same [str], hence no two are
    equal. *)
Lemma final_mask_data_NoDup mask bs :
  NoDup (mask_types_finder (final mask bs)) ∧ NoDup (mask_data (final mask bs)).
Proof.
  destruct (final_mask_data mask bs) as [Hd Hfi].
  assert (NoDup (mask_types_finder (final mask bs))) as Hnd.
  { rewrite Hfi, Hd. apply distinct_by_keys. }
  split; [done|]. rewrite Hfi in Hnd. by eapply NoDup_fmap_1.
Qed.

(** ** What the function returns *)

Lemma sparsify_mask_Ok mask bs bmk pm pi pj md :
  sparsify_mask mask bs = Ok (bmk, pm, pi, pj, md) →
  0 < bs.1 ∧ 0 < bs.2 ∧
  bmk = grid_of BlockMask (final mask bs) ∧ pm = grid_of PrefetchMask (final mask bs) ∧
  pi = grid_of PrefetchI (final mask bs) ∧ pj = grid_of PrefetchJ (final mask bs) ∧
  stack (mask_data (final mask bs)) = Ok md.
Proof.
  intros Hok.
  assert (0 < bs.1 ∧ 0 < bs.2) as [Hm Hn].
  { unfold sparsify_mask in Hok. destruct (shape mask), bs as [bm bn].
    case_decide; [done|]. simpl. lia. }
  destruct (decide (nonempty_grid mask bs)) as [Hne|Hempty].
  2:{ by rewrite sparsify_mask_empty_grid in Hok. }
  rewrite sparsify_mask_run in Hok by done. fold (final mask bs) in Hok.
  unfold finish in Hok. destruct (stack _) as [md'|]; [|done].
  by simplify_eq.
Qed.

Lemma wrap32_small z : (- 2 ^ 31 ≤ z < 2 ^ 31)%Z → wrap32 z = z.
Proof. intros Hz. unfold wrap32. rewrite Z.mod_small; lia. Qed.

Lemma astype_b2z dt b : astype dt (Z.b2z b) = Z.b2z b.
Proof. by destruct dt, b. Qed.

(** An index that fits an integer dtype is stored unchanged. *)
Lemma astype_small dt z n :
  (0 ≤ z < n)%Z → dt ≠ bool_ → fits dt n → astype dt z = z.
Proof.
  intros Hz Hdt Hn.
  destruct dt; [done|..]; unfold astype, fits, wrap_signed, wrap_unsigned, wrap32 in *;
    simpl (_ - 1)%Z; rewrite Z.mod_small; lia.
Qed.

Lemma fits_le dt n m : (n ≤ m)%Z → fits dt m → fits dt n.
Proof. intros Hnm. destruct dt; simpl; lia. Qed.

(** A coordinate below [n] stays below [n] when stored. *)
Lemma astype_range dt z n :
  (0 ≤ z < n)%Z → fits dt n → (0 ≤ astype dt z < n)%Z.
Proof.
  intros Hz Hn. destruct (decide (dt = bool_)) as [->|Hdt].
  - simpl. case_decide; lia.
  - by rewrite (astype_small dt z n).
Qed.

(** * The properties of the specification *)

(** C1 (as amended).  [sparsify_mask] has no divisibility check and no
    dimension-mismatch error.  For every mask and non-zero block shape,
    whether the dimensions are multiples of the block sizes or not: when the
    blocks met outside the M // bm by N // bn tile grid (the trailing partial
    blocks) are all zero and some whole tile is not, the function returns;
    its grids have the shape of the tile grid and its outputs are those
    computed from the whole tiles alone. *)
Theorem sparsify_mask_ignores_zero_remainder mask bs :
  0 < bs.1 → 0 < bs.2 → outside_inactive mask bs → has_active_tile mask bs →
  ∃ bmk pm pi pj md,
    sparsify_mask mask bs = Ok (bmk, pm, pi, pj, md) ∧
    sparsify_mask_inrange mask bs = Ok (bmk, pm, pi, pj, md) ∧
    shape bmk = (tile_rows mask bs, tile_cols mask bs) ∧
    shape pm = (tile_rows mask bs, tile_cols mask bs) ∧
    shape pi = (tile_rows mask bs, tile_cols mask bs) ∧
    shape pj = (tile_rows mask bs, tile_cols mask bs) ∧
    shape3 md = (length (data3 md), bs.1, bs.2).
Proof.
  intros Hm Hn Hout Hact.
  destruct (sparsify_mask_returns mask bs Hm Hn Hout Hact) as (md & Hok & Hd & _ & Hsh).
  eexists _, _, _, _, md. split; [done|].
  split.
  { rewrite <- outside_inactive_inrange; [done..| |done].
    by apply has_active_tile_nonempty. }
  pose proof (run_grids_ok mask bs (traversal mask bs) _ (init_grids_ok mask bs)) as Hg.
  fold (final mask bs) in Hg.
  split_and!; try apply (Hg BlockMask); try apply (Hg PrefetchMask);
    try apply (Hg PrefetchI); try apply (Hg PrefetchJ).
  by rewrite Hsh, Hd, length_fmap.
Qed.

Lemma sparsify_mask_ignores_zero_remainder_witness :
  (shape partial_row_mask).1 `mod` 2 ≠ 0 ∧
  ∃ bmk pm pi pj md,
    sparsify_mask partial_row_mask (2, 2) = Ok (bmk, pm, pi, pj, md) ∧
    sparsify_mask_inrange partial_row_mask (2, 2) = Ok (bmk, pm, pi, pj, md) ∧
    shape bmk = (1, 1) ∧ shape pm = (1, 1) ∧ shape pi = (1, 1) ∧ shape pj = (1, 1) ∧
    shape3 md = (length (data3 md), 2, 2).
Proof.
  split; [done|].
  apply (sparsify_mask_ignores_zero_remainder partial_row_mask (2, 2));
    [simpl; lia | simpl; lia | | ].
  - apply (bool_decide_eq_true_1 _). vm_compute. reflexivity.
  - apply (bool_decide_eq_true_1 _). vm_compute. reflexivity.
Defined.

(** C1 (counterexample).  A mask of three rows with blocks of two rows is
    accepted: the call returns, with a 1 x 1 grid, and the third row is
    left out. *)
Lemma partial_row_mask_accepted :
  (shape partial_row_mask).1 `mod` 2 ≠ 0 ∧
  sparsify_mask partial_row_mask (2, 2) =
  Ok (mkArray int32 (1, 1) [[1%Z]], mkArray int32 (1, 1) [[0%Z]],
      mkArray int32 (1, 1) [[0%Z]], mkArray int32 (1, 1) [[0%Z]],
      mkArray3 int32 (1, 2, 2) [[[1; 1]; [1; 1]]]%Z).
Proof. split; [done|]. vm_compute. reflexivity. Qed.

(** C2 (what the code does).  For every mask that meets the precondition
    and has no active tile, [sparsify_mask] does not return.  When the tile
    grid has a tile, the loops end with an empty [mask_data] and the final
    [jnp.stack] raises ValueError.  When the mask has no row or no column,
    the grids have an axis of size 0 and the first write of the first
    iteration raises IndexError. *)
Theorem no_active_tile_raises mask bs :
  well_formed mask bs → ¬ has_active_tile mask bs →
  sparsify_mask mask bs =
  Raise (if decide (nonempty_grid mask bs) then ValueError else IndexError).
Proof.
  intros Hwf Hact. pose proof Hwf as (_ & Hm & Hn & _).
  case_decide as Hne.
  - apply sparsify_mask_raises; [done..| |done].
    by apply well_formed_outside_inactive.
  - by apply sparsify_mask_empty_grid.
Qed.

Lemma no_active_tile_raises_witness :
  well_formed zero_mask (2, 2) ∧ ¬ has_active_tile zero_mask (2, 2) ∧
  sparsify_mask zero_mask (2, 2) = Raise ValueError.
Proof.
  assert (well_formed zero_mask (2, 2)) as Hwf.
  { apply (bool_decide_eq_true_1 _). vm_compute. reflexivity. }
  assert (¬ has_active_tile zero_mask (2, 2)) as Hact.
  { apply (bool_decide_eq_false_1 _). vm_compute. reflexivity. }
  split_and!; [done..|]. exact (no_active_tile_raises zero_mask (2, 2) Hwf Hact).
Defined.

(** C5 (what the code does).  The coordinates are stored in grids of the
    dtype of the mask.  In the int8 mask of 129 rows and one column whose
    only non-zero element is the first, with blocks of 1 x 1, the tile
    (128, 0) is not active and is visited before any active tile: its
    next-row is the sentinel 128, which an int8 grid stores as -128, not a
    row of the tile grid. *)
Theorem int8_mask_next_out_of_bounds :
  well_formed tall_int8_mask (1, 1) ∧ has_active_tile tall_int8_mask (1, 1) ∧
  tile_rows tall_int8_mask (1, 1) = 129 ∧ in_grid tall_int8_mask (1, 1) (128, 0) ∧
  ∃ bmk pm pi pj md,
    sparsify_mask tall_int8_mask (1, 1) = Ok (bmk, pm, pi, pj, md) ∧
    cell bmk 128 0 = Some 0%Z ∧ cell pi 128 0 = Some (-128)%Z.
Proof.
  split_and!.
  - apply (bool_decide_eq_true_1 _). vm_compute. reflexivity.
  - apply (bool_decide_eq_true_1 _). vm_compute. reflexivity.
  - reflexivity.
  - apply (bool_decide_eq_true_1 _). vm_compute. reflexivity.
  - eexists _, _, _, _, _. split; [vm_compute; reflexivity|].
    split; vm_compute; reflexivity.
Qed.

(** X17.  For every mask that meets the precondition and has an active
    tile, when the rows and the columns of the tile grid are counted by
    values of the dtype of the mask (nothing is asked of a boolean mask),
    the function returns and, at every tile whose flag in [block_mask] is
    false, [prefetch_i] and [prefetch_j] hold a coordinate of the tile grid:
    0 <= prefetch_i < M // bm and 0 <= prefetch_j < N // bn. *)
Theorem inactive_next_in_bounds mask bs :
  well_formed mask bs → has_active_tile mask bs →
  fits (dtype_of mask) (Z.of_nat (tile_rows mask bs)) →
  fits (dtype_of mask) (Z.of_nat (tile_cols mask bs)) →
  ∃ bmk pm pi pj md,
    sparsify_mask mask bs = Ok (bmk, pm, pi, pj, md) ∧
    ∀ p, in_grid mask bs p → cell bmk p.1 p.2 = Some 0%Z →
      ∃ a b, cell pi p.1 p.2 = Some a ∧ cell pj p.1 p.2 = Some b ∧
             (0 ≤ a < Z.of_nat (tile_rows mask bs))%Z ∧
             (0 ≤ b < Z.of_nat (tile_cols mask bs))%Z.
Proof.
  intros Hwf Hact Hfit1 Hfit2. pose proof Hwf as (_ & Hm & Hn & _).
  pose proof (well_formed_outside_inactive mask bs Hwf) as Hout.
  destruct (sparsify_mask_returns mask bs Hm Hn Hout Hact) as (md & Hok & _).
  eexists _, _, _, _, md. split; [done|]. intros p Hin _.
  pose proof (traversal_cell PrefetchI mask bs p Hin) as Hi.
  pose proof (traversal_cell PrefetchJ mask bs p Hin) as Hj.
  fold (final mask bs) in Hi, Hj. simpl in Hi, Hj.
  eexists _, _. split; [done|]. split; [done|].
  assert ((0 ≤ next_i (locals_at mask bs p) < Z.of_nat (tile_rows mask bs)) ∧
          (0 ≤ next_j (locals_at mask bs p) < Z.of_nat (tile_cols mask bs)))%Z as [Hni Hnj].
  { destruct Hin as [Hp1 Hp2].
    destruct (locals_at_next mask bs p Hout (conj Hp1 Hp2))
      as [(_ & -> & -> & _)|[(_ & q & (Hq & _) & -> & -> & _)|(_ & _ & _ & -> & ->)]].
    - lia.
    - destruct Hq. lia.
    - lia. }
  split; by apply astype_range.
Qed.

Lemma inactive_next_in_bounds_witness :
  ∃ bmk pm pi pj md,
    sparsify_mask scenario_mask (2, 2) = Ok (bmk, pm, pi, pj, md) ∧
    ∀ p, in_grid scenario_mask (2, 2) p → cell bmk p.1 p.2 = Some 0%Z →
      ∃ a b, cell pi p.1 p.2 = Some a ∧ cell pj p.1 p.2 = Some b ∧
             (0 ≤ a < 2)%Z ∧ (0 ≤ b < 2)%Z.
Proof.
  apply (inactive_next_in_bounds scenario_mask (2, 2)).
  - apply (bool_decide_eq_true_1 _). vm_compute. reflexivity.
  - apply (bool_decide_eq_true_1 _). vm_compute. reflexivity.
  - apply (bool_decide_eq_true_1 _). vm_compute. reflexivity.
  - apply (bool_decide_eq_true_1 _). vm_compute. reflexivity.
Defined.

(** C7 (what the code does).  The result of [sparsify_mask] is not a
    function of the mask and the block shape alone: blocks are told apart
    by their [str], which reads numpy's print options, state of the process
    that [np.set_printoptions] changes.  On the same mask of two blocks of
    1 x 8 that differ in their fourth element, a call under the default
    options registers both blocks, and a call after
    [np.set_printoptions(threshold=5)], under which both blocks are printed
    summarised and alike, registers one: the mask data and the content
    indices of the two calls differ. *)
Theorem sparsify_mask_reads_print_options :
  well_formed options_mask (1, 8) ∧
  @sparsify_mask default_printoptions options_mask (1, 8) =
    Ok (mkArray int32 (1, 2) [[1; 1]]%Z, mkArray int32 (1, 2) [[1; 0]]%Z,
        mkArray int32 (1, 2) [[0; 0]]%Z, mkArray int32 (1, 2) [[0; 1]]%Z,
        mkArray3 int32 (2, 1, 8)
          [[[1; 0; 0; 1; 0; 0; 0; 0]]; [[1; 0; 0; 0; 0; 0; 0; 0]]]%Z) ∧
  @sparsify_mask terse_printoptions options_mask (1, 8) =
    Ok (mkArray int32 (1, 2) [[1; 1]]%Z, mkArray int32 (1, 2) [[0; 0]]%Z,
        mkArray int32 (1, 2) [[0; 0]]%Z, mkArray int32 (1, 2) [[0; 1]]%Z,
        mkArray3 int32 (1, 1, 8) [[[1; 0; 0; 1; 0; 0; 0; 0]]]%Z) ∧
  @str terse_printoptions (tile options_mask (1, 8) (0, 0)) =
  @str terse_printoptions (tile options_mask (1, 8) (0, 1)) ∧
  @str default_printoptions (tile options_mask (1, 8) (0, 0)) ≠
  @str default_printoptions (tile options_mask (1, 8) (0, 1)).
Proof.
  split_and!.
  - apply (bool_decide_eq_true_1 _). vm_compute. reflexivity.
  - vm_compute. reflexivity.
  - vm_compute. reflexivity.
  - vm_compute. reflexivity.
  - apply (bool_decide_eq_true_1 _). vm_compute. reflexivity.
Qed.

(** C8 (as amended).  For every mask that meets the precondition and has
    at least one tile, the loops of the code, which run one index beyond the
    tile grid on each axis, return what the loops over the tile grid alone
    return.  The block met at a coordinate outside the grid is empty and not
    active, and the iteration there raises nothing and changes no local
    variable: its writes fall outside the grids and are dropped. *)
Theorem extra_iterations_harmless mask bs :
  well_formed mask bs → nonempty_grid mask bs →
  sparsify_mask mask bs = sparsify_mask_inrange mask bs ∧
  ∀ p, p ∈ traversal mask bs → ¬ in_grid mask bs p →
    concat (data (tile mask bs p)) = [] ∧ active mask bs p = false ∧
    ∀ vis,
      let st := run mask bs vis (init_locals mask bs.1 bs.2) in
      loop_body mask bs.1 bs.2 p.1 p.2 st = Ok st.
Proof.
  intros Hwf Hne. pose proof Hwf as (_ & Hm & Hn & _).
  split.
  { apply outside_inactive_inrange; [done..|]. by apply well_formed_outside_inactive. }
  intros p _ Hout. pose proof (well_formed_outside mask bs p Hwf Hout) as Hact.
  split_and!; [|done|].
  - induction (well_formed_outside_empty mask bs p Hwf Hout) as [|row rows -> _ IH];
      [done|apply IH].
  - intros vis. simpl.
    assert (grids_ok mask bs (run mask bs vis (init_locals mask bs.1 bs.2))) as Hok.
    { apply run_grids_ok, init_grids_ok. }
    rewrite loop_body_step by done. f_equal. by apply body_outside.
Qed.

Lemma extra_iterations_harmless_witness :
  sparsify_mask scenario_mask (2, 2) = sparsify_mask_inrange scenario_mask (2, 2) ∧
  ∀ p, p ∈ traversal scenario_mask (2, 2) → ¬ in_grid scenario_mask (2, 2) p →
    concat (data (tile scenario_mask (2, 2) p)) = [] ∧
    active scenario_mask (2, 2) p = false ∧
    ∀ vis,
      let st := run scenario_mask (2, 2) vis (init_locals scenario_mask 2 2) in
      loop_body scenario_mask 2 2 p.1 p.2 st = Ok st.
Proof.
  apply (extra_iterations_harmless scenario_mask (2, 2)).
  - apply (bool_decide_eq_true_1 _). vm_compute. reflexivity.
  - apply (bool_decide_eq_true_1 _). vm_compute. reflexivity.
Defined.

(** C8 (counterexample).  A mask with no row meets the precondition, and
    its tile grid has no row.  The loops of the code run the iteration at
    (0, 1), whose first write indexes an axis of size 0 and raises
    IndexError; the loops over the tile grid alone run no iteration and the
    final [jnp.stack] raises ValueError. *)
Lemma empty_mask_extra_iteration_raises :
  well_formed empty_mask (1, 2) ∧
  loop_body empty_mask 1 2 0 1 (init_locals empty_mask 1 2) = Raise IndexError ∧
  sparsify_mask empty_mask (1, 2) = Raise IndexError ∧
  sparsify_mask_inrange empty_mask (1, 2) = Raise ValueError.
Proof.
  split_and!.
  - apply (bool_decide_eq_true_1 _). vm_compute. reflexivity.
  - vm_compute. reflexivity.
  - vm_compute. reflexivity.
  - vm_compute. reflexivity.
Qed.

(** C10.  The four grids that [sparsify_mask] returns have the dtype of the
    mask, and each cell of the three prefetch grids holds the index or
    coordinate carried by the loop at that tile, converted to that dtype.
    For a boolean mask, as the docstring asks for, the grids are boolean and
    every index or coordinate greater than 1 is stored as 1 (True). *)
Theorem grids_take_mask_dtype mask bs bmk pm pi pj md :
  sparsify_mask mask bs = Ok (bmk, pm, pi, pj, md) →
  (dtype_of bmk = dtype_of mask ∧ dtype_of pm = dtype_of mask ∧
   dtype_of pi = dtype_of mask ∧ dtype_of pj = dtype_of mask) ∧
  ∀ p, in_grid mask bs p →
    let st := locals_at mask bs p in
    (cell pm p.1 p.2 = Some (astype (dtype_of mask) (next_mask_type_idx st)) ∧
     cell pi p.1 p.2 = Some (astype (dtype_of mask) (next_i st)) ∧
     cell pj p.1 p.2 = Some (astype (dtype_of mask) (next_j st))) ∧
    (dtype_of mask = bool_ →
     ((1 < next_mask_type_idx st)%Z → cell pm p.1 p.2 = Some 1%Z) ∧
     ((1 < next_i st)%Z → cell pi p.1 p.2 = Some 1%Z) ∧
     ((1 < next_j st)%Z → cell pj p.1 p.2 = Some 1%Z)).
Proof.
  intros (Hm & Hn & -> & -> & -> & -> & _)%sparsify_mask_Ok.
  pose proof (run_grids_ok mask bs (traversal mask bs) _ (init_grids_ok mask bs)) as Hg.
  fold (final mask bs) in Hg.
  split.
  { split_and!; [apply (Hg BlockMask)|apply (Hg PrefetchMask)|
                 apply (Hg PrefetchI)|apply (Hg PrefetchJ)]. }
  intros p Hin.
  pose proof (traversal_cell PrefetchMask mask bs p Hin) as Hk.
  pose proof (traversal_cell PrefetchI mask bs p Hin) as Hi.
  pose proof (traversal_cell PrefetchJ mask bs p Hin) as Hj.
  fold (final mask bs) in Hk, Hi, Hj. simpl in *.
  split; [done|]. intros Hdt. rewrite Hk, Hi, Hj, Hdt. simpl.
  split_and!; intros Hgt; by rewrite decide_False by lia.
Qed.

Lemma grids_take_mask_dtype_witness :
  let bmk := mkArray bool_ (3, 1) [[1]; [1]; [1]]%Z in
  let pm := mkArray bool_ (3, 1) [[1]; [1]; [0]]%Z in
  let pi := mkArray bool_ (3, 1) [[0]; [1]; [1]]%Z in
  let pj := mkArray bool_ (3, 1) [[0]; [0]; [0]]%Z in
  sparsify_mask bool_mask (1, 2) =
    Ok (bmk, pm, pi, pj, mkArray3 bool_ (3, 1, 2) [[[1; 0]]; [[0; 1]]; [[1; 1]]]%Z) ∧
  (dtype_of bmk = bool_ ∧ dtype_of pm = bool_ ∧ dtype_of pi = bool_ ∧ dtype_of pj = bool_) ∧
  ∀ p, in_grid bool_mask (1, 2) p →
    let st := locals_at bool_mask (1, 2) p in
    (cell pm p.1 p.2 = Some (astype bool_ (next_mask_type_idx st)) ∧
     cell pi p.1 p.2 = Some (astype bool_ (next_i st)) ∧
     cell pj p.1 p.2 = Some (astype bool_ (next_j st))) ∧
    (bool_ = bool_ →
     ((1 < next_mask_type_idx st)%Z → cell pm p.1 p.2 = Some 1%Z) ∧
     ((1 < next_i st)%Z → cell pi p.1 p.2 = Some 1%Z) ∧
     ((1 < next_j st)%Z → cell pj p.1 p.2 = Some 1%Z)).
Proof.
  intros bmk pm pi pj.
  assert (sparsify_mask bool_mask (1, 2) =
    Ok (bmk, pm, pi, pj, mkArray3 bool_ (3, 1, 2) [[[1; 0]]; [[0; 1]]; [[1; 1]]]%Z)) as Hrun.
  { vm_compute. reflexivity. }
  split; [done|].
  exact (grids_take_mask_dtype bool_mask (1, 2) _ _ _ _ _ Hrun).
Defined.

Lemma wrap32_index mask bs n :
  indices_fit mask bs → n < tile_rows mask bs * tile_cols mask bs →
  wrap32 (Z.of_nat n) = Z.of_nat n.
Proof. unfold indices_fit. intros Hfit Hn. apply wrap32_small. lia. Qed.

(** C4 (as amended).  For every int32 mask that meets the precondition, has
    an active tile, whose tiles [str] tells apart and whose indices are int32
    values, the function returns and every tile is in exactly one of two
    cases.  Either its flag is true, its next-coordinates are its own and its
    content index names the entry of the mask data equal to its content.  Or
    its flag is false and its next-coordinates are those of the first active
    tile after it in the forward order or, when no active tile follows it,
    those of the last tile of the grid, active or not. *)
Theorem tile_coverage mask bs :
  well_formed mask bs → dtype_of mask = int32 → indices_fit mask bs →
  str_faithful mask bs → has_active_tile mask bs →
  ∃ out, sparsify_mask mask bs = Ok out ∧
    ∀ p, in_grid mask bs p →
      let A := active_self mask bs out p in
      let B := inactive_pointing
                 (λ q, next_active mask bs p q ∨
                       (no_active_after mask bs p ∧ q = sentinel mask bs)) out p in
      (A ∨ B) ∧ ¬ (A ∧ B).
Proof.
  intros Hwf Hdt Hfit Hstr Hact. pose proof Hwf as (_ & Hm & Hn & _).
  pose proof (well_formed_outside_inactive mask bs Hwf) as Hout.
  destruct (sparsify_mask_returns mask bs Hm Hn Hout Hact) as (md & Hok & Hd & _).
  eexists. split; [done|]. intros p Hin. simpl.
  pose proof (traversal_cell BlockMask mask bs p Hin) as Hb.
  pose proof (traversal_cell PrefetchMask mask bs p Hin) as Hk.
  pose proof (traversal_cell PrefetchI mask bs p Hin) as Hi.
  pose proof (traversal_cell PrefetchJ mask bs p Hin) as Hj.
  fold (final mask bs) in Hb, Hk, Hi, Hj. simpl in Hb, Hk, Hi, Hj.
  rewrite astype_b2z in Hb. rewrite Hdt in Hk, Hi, Hj. simpl in Hk, Hi, Hj.
  rewrite Hb, Hk, Hi, Hj.
  assert (∀ q, in_grid mask bs q →
            wrap32 (Z.of_nat q.1) = Z.of_nat q.1 ∧ wrap32 (Z.of_nat q.2) = Z.of_nat q.2)
    as Hcoord.
  { intros q [Hq1 Hq2]. split; apply (wrap32_index mask bs); [done|nia|done|nia]. }
  assert (∀ q k, list_index (str (tile mask bs q)) (mask_types_finder (final mask bs)) = Some k →
            wrap32 (Z.of_nat k) = Z.of_nat k) as Hidx.
  { intros q k Hq%list_index_Some%lookup_lt_Some.
    destruct (final_mask_data mask bs) as [_ Hfi]. rewrite Hfi, length_fmap in Hq.
    pose proof (length_final_mask_data mask bs Hout).
    apply (wrap32_index mask bs); [done|lia]. }
  destruct (locals_at_next mask bs p Hout Hin)
    as [(Hpa & Hni & Hnj & k & Hnk & Hfind)|
        [(Hpa & q & Hq & Hni & Hnj & _)|(Hpa & Hnone & _ & Hni & Hnj)]];
    rewrite Hpa, Hni, Hnj; simpl.
  - split.
    + left. destruct (Hcoord p Hin) as [-> ->]. split_and!; [done..|].
      exists k. rewrite Hnk, (Hidx p k Hfind). split; [done|].
      rewrite Hd, list_lookup_fmap, (final_lookup mask bs p k); done.
    + intros [_ [? _]]. done.
  - split.
    + right. split; [done|]. exists q.
      destruct (Hcoord q (proj1 Hq)) as [-> ->]. split_and!; [done..|]. by left.
    + intros [[? _] _]. done.
  - split.
    + right. split; [done|]. exists (sentinel mask bs).
      assert (in_grid mask bs (sentinel mask bs)) as Hs.
      { destruct Hin. unfold in_grid, sentinel. simpl. lia. }
      destruct (Hcoord _ Hs) as [H1 H2]. destruct Hin. unfold sentinel in *. simpl in *.
      rewrite <- H1, <- H2 at 1. split_and!; [f_equal; f_equal; lia..|]. by right.
    + intros [[? _] _]. done.
Qed.

Lemma tile_coverage_witness :
  ∃ out, sparsify_mask scenario_mask (2, 2) = Ok out ∧
    ∀ p, in_grid scenario_mask (2, 2) p →
      let A := active_self scenario_mask (2, 2) out p in
      let B := inactive_pointing
                 (λ q, next_active scenario_mask (2, 2) p q ∨
                       (no_active_after scenario_mask (2, 2) p ∧
                        q = sentinel scenario_mask (2, 2))) out p in
      (A ∨ B) ∧ ¬ (A ∧ B).
Proof.
  apply (tile_coverage scenario_mask (2, 2)).
  - apply (bool_decide_eq_true_1 _). vm_compute. reflexivity.
  - reflexivity.
  - apply (bool_decide_eq_true_1 _). vm_compute. reflexivity.
  - apply (bool_decide_eq_true_1 _). vm_compute. reflexivity.
  - apply (bool_decide_eq_true_1 _). vm_compute. reflexivity.
Defined.

(** C4 (counterexample).  In the 2 x 2 mask whose only non-zero element is
    the first, with blocks of 1 x 1, the last tile is not active and is
    visited first: its next-coordinates are its own, those of a tile that
    is not active. *)
Lemma corner_mask_points_to_inactive :
  well_formed corner_mask (1, 1) ∧ has_active_tile corner_mask (1, 1) ∧
  ∃ out, sparsify_mask corner_mask (1, 1) = Ok out ∧
    ¬ (active_self corner_mask (1, 1) out (1, 1) ∨
       inactive_pointing
         (λ q, in_grid corner_mask (1, 1) q ∧ active corner_mask (1, 1) q = true)
         out (1, 1)).
Proof.
  split; [apply (bool_decide_eq_true_1 _); vm_compute; reflexivity|].
  split; [apply (bool_decide_eq_true_1 _); vm_compute; reflexivity|].
  eexists. split; [vm_compute; reflexivity|].
  intros [(Hflag & _)|(_ & [a b] & Hi & Hj & _ & Hact)].
  - vm_compute in Hflag. discriminate.
  - cbn in Hi, Hj. injection Hi as Hi. injection Hj as Hj.
    assert (a = 1) as -> by lia. assert (b = 1) as -> by lia.
    vm_compute in Hact. discriminate.
Qed.

(** C3 (what the code does).  With the boolean mask the docstring asks for,
    the content index is stored in a boolean grid.  Here the tile (0, 0) is
    active and its content [[1; 1]] is entry 2 of the mask data, but its cell
    of [prefetch_mask] holds 1 (True), the index of the entry [[0; 1]]. *)
Theorem bool_mask_content_index :
  sparsify_mask bool_mask (1, 2) =
    Ok (mkArray bool_ (3, 1) [[1]; [1]; [1]]%Z, mkArray bool_ (3, 1) [[1]; [1]; [0]]%Z,
        mkArray bool_ (3, 1) [[0]; [1]; [1]]%Z, mkArray bool_ (3, 1) [[0]; [0]; [0]]%Z,
        mkArray3 bool_ (3, 1, 2) [[[1; 0]]; [[0; 1]]; [[1; 1]]]%Z) ∧
  well_formed bool_mask (1, 2) ∧
  active bool_mask (1, 2) (0, 0) = true ∧
  data (tile bool_mask (1, 2) (0, 0)) = [[1; 1]]%Z.
Proof.
  split_and!; [vm_compute; reflexivity| |vm_compute; reflexivity..].
  apply (bool_decide_eq_true_1 _). vm_compute. reflexivity.
Qed.

(** C6 (what the code does).  Blocks are told apart by their [str], and the
    [str] of a block of more than 1000 elements is summarised.  In the mask
    of three blocks of 1 x 1001, the reverse scan meets three different
    non-zero contents; the second has the [str] of the first and is not
    registered, so that entry 1 of the mask data is the third content. *)
Theorem wide_mask_first_seen :
  well_formed wide_mask (1, 1001) ∧
  (∃ bmk pm pi pj,
     sparsify_mask wide_mask (1, 1001) =
     Ok (bmk, pm, pi, pj, mkArray3 int32 (2, 1, 1001) [[wide_block_a]; [wide_block_c]])) ∧
  data <$> distinct_by id [] (nonzero_blocks wide_mask (1, 1001) (traversal wide_mask (1, 1001)))
    = [[wide_block_a]; [wide_block_b]; [wide_block_c]] ∧
  str (tile wide_mask (1, 1001) (0, 1)) = str (tile wide_mask (1, 1001) (0, 2)).
Proof.
  split_and!.
  - apply (bool_decide_eq_true_1 _). vm_compute. reflexivity.
  - eexists _, _, _, _. vm_compute. reflexivity.
  - vm_compute. reflexivity.
  - vm_compute. reflexivity.
Qed.

(** The same defect reaches the content index: the tile (0, 1) of the wide
    mask is active, its cell of [prefetch_mask] holds 0, and entry 0 of the
    mask data is the content of the tile (0, 2), which differs from its
    own. *)
Lemma wide_mask_content_index :
  ∃ bmk pm pi pj md,
    sparsify_mask wide_mask (1, 1001) = Ok (bmk, pm, pi, pj, md) ∧
    cell bmk 0 1 = Some 1%Z ∧ cell pm 0 1 = Some 0%Z ∧
    data3 md !! 0 = Some [wide_block_a] ∧
    data (tile wide_mask (1, 1001) (0, 1)) = [wide_block_b] ∧
    wide_block_a ≠ wide_block_b.
Proof.
  eexists _, _, _, _, _. split_and!; [vm_compute; reflexivity..|].
  intros Heq. apply (f_equal (λ l, l !! 500)) in Heq. vm_compute in Heq. discriminate.
Qed.

(** C9 (what the code does).  With the boolean mask the docstring asks for,
    the coordinates are stored in boolean grids.  In the mask of three tile
    rows whose only active tile is the first, the tiles (1, 0) and (2, 0) are
    visited before any active tile; the sentinel row is 2, and their cells of
    [prefetch_i] hold 1 (True). *)
Theorem bool_column_mask_sentinel :
  sparsify_mask bool_column_mask (1, 1) =
    Ok (mkArray bool_ (3, 1) [[1]; [0]; [0]]%Z, mkArray bool_ (3, 1) [[0]; [0]; [0]]%Z,
        mkArray bool_ (3, 1) [[0]; [1]; [1]]%Z, mkArray bool_ (3, 1) [[0]; [0]; [0]]%Z,
        mkArray3 bool_ (1, 1, 1) [[[1]]]%Z) ∧
  well_formed bool_column_mask (1, 1) ∧
  sentinel bool_column_mask (1, 1) = (2, 0) ∧
  no_active_after bool_column_mask (1, 1) (1, 0).
Proof.
  split_and!; [vm_compute; reflexivity| |vm_compute; reflexivity|].
  - apply (bool_decide_eq_true_1 _). vm_compute. reflexivity.
  - intros [a b] [Ha Hb] Hbefore. unfold before in Hbefore.
    change (tile_rows bool_column_mask (1, 1)) with 3 in Ha.
    change (tile_cols bool_column_mask (1, 1)) with 1 in Hb. simpl in *.
    assert (a = 2) as -> by lia. assert (b = 0) as -> by lia.
    vm_compute. reflexivity.
Qed.

(** * What holds of the indices and of the mask data

    The properties of the content index, of the order of the mask data and
    of the sentinel, for the masks on which they hold: int32 masks whose
    tiles [str] tells apart. *)

Lemma stack_Ok arrays md :
  stack arrays = Ok md →
  data3 md = data <$> arrays ∧ ∃ sh, Forall (λ b, shape b = sh) arrays.
Proof.
  unfold stack. destruct arrays as [|a arrays]; [done|].
  destruct (forallb _ _) eqn:Hall; [|done]. intros [= <-]. split; [done|].
  exists (shape a). apply Is_true_true, forallb_True in Hall.
  apply (Forall_impl _ _ _ Hall). intros b Hb. by apply bool_decide_spec in Hb.
Qed.

(** X1.  No two entries of the returned mask data are equal. *)
Theorem mask_data_entries_distinct mask bs bmk pm pi pj md :
  sparsify_mask mask bs = Ok (bmk, pm, pi, pj, md) → NoDup (data3 md).
Proof.
  intros (_ & _ & _ & _ & _ & _ & Hst)%sparsify_mask_Ok.
  apply stack_Ok in Hst as (-> & sh & Hsh).
  destruct (final_mask_data_NoDup mask bs) as [_ Hnd].
  apply NoDup_fmap_2_strong; [|done]. intros x y Hx Hy Hxy.
  rewrite Forall_forall in Hsh.
  pose proof (Hsh x Hx) as Hsx. pose proof (Hsh y Hy) as Hsy.
  destruct (final_mask_data mask bs) as [Hd _]. rewrite Hd in Hx, Hy.
  apply elem_of_distinct_by, elem_of_nonzero_blocks in Hx as (p & _ & _ & ->).
  apply elem_of_distinct_by, elem_of_nonzero_blocks in Hy as (q & _ & _ & ->).
  rewrite <- (Array_eta (tile mask bs p)), <- (Array_eta (tile mask bs q)).
  by rewrite Hxy, Hsx, Hsy.
Qed.

Lemma mask_data_entries_distinct_witness :
  NoDup (data3 (mkArray3 int32 (2, 2, 2) [[[1; 1]; [1; 1]]; [[1; 0]; [0; 0]]]%Z)).
Proof.
  apply (mask_data_entries_distinct scenario_mask (2, 2)
           (mkArray int32 (2, 2) [[1; 0]; [0; 1]]%Z)
           (mkArray int32 (2, 2) [[1; 0]; [0; 0]]%Z)
           (mkArray int32 (2, 2) [[0; 1]; [1; 1]]%Z)
           (mkArray int32 (2, 2) [[0; 1]; [1; 1]]%Z)
           (mkArray3 int32 (2, 2, 2) [[[1; 1]; [1; 1]]; [[1; 0]; [0; 0]]]%Z)).
  vm_compute. reflexivity.
Defined.

(** X2.  When [str] tells the tiles apart, entry k of the mask data is the k-th
    distinct non-zero block content met in the reverse scan. *)
Theorem mask_data_first_seen mask bs bmk pm pi pj md :
  well_formed mask bs → str_faithful mask bs →
  sparsify_mask mask bs = Ok (bmk, pm, pi, pj, md) →
  data3 md =
  data <$> distinct_by id [] (nonzero_blocks mask bs (traversal mask bs)).
Proof.
  intros Hwf Hstr (_ & _ & _ & _ & _ & _ & Hst)%sparsify_mask_Ok.
  apply stack_Ok in Hst as (-> & _). f_equal.
  destruct (final_mask_data mask bs) as [-> _].
  apply (distinct_by_faithful str []).
  intros x y (p & Hp & Hpa & ->)%elem_of_nonzero_blocks
             (q & Hq & Hqa & ->)%elem_of_nonzero_blocks.
  assert (∀ r, active mask bs r = true → r ∈ tiles mask bs) as Hin.
  { intros r Hr. apply elem_of_tiles. destruct (decide (in_grid mask bs r)); [done|].
    rewrite well_formed_outside in Hr; done. }
  unfold str_faithful in Hstr. rewrite Forall_forall in Hstr.
  specialize (Hstr p (Hin p Hpa)). rewrite Forall_forall in Hstr.
  intros Hkey. apply Hstr; auto.
Qed.

Lemma mask_data_first_seen_witness :
  data3 (mkArray3 int32 (2, 2, 2) [[[1; 1]; [1; 1]]; [[1; 0]; [0; 0]]]%Z) =
  data <$> distinct_by id []
             (nonzero_blocks scenario_mask (2, 2) (traversal scenario_mask (2, 2))).
Proof.
  apply (mask_data_first_seen scenario_mask (2, 2)
           (mkArray int32 (2, 2) [[1; 0]; [0; 1]]%Z)
           (mkArray int32 (2, 2) [[1; 0]; [0; 0]]%Z)
           (mkArray int32 (2, 2) [[0; 1]; [1; 1]]%Z)
           (mkArray int32 (2, 2) [[0; 1]; [1; 1]]%Z)
           (mkArray3 int32 (2, 2, 2) [[[1; 1]; [1; 1]]; [[1; 0]; [0; 0]]]%Z)).
  - apply (bool_decide_eq_true_1 _). vm_compute. reflexivity.
  - apply (bool_decide_eq_true_1 _). vm_compute. reflexivity.
  - vm_compute. reflexivity.
Defined.

Lemma nonzero_blocks_none mask bs vis :
  Forall (λ p, active mask bs p = false) vis → nonzero_blocks mask bs vis = [].
Proof.
  induction 1 as [|p vis Hp _ IH]; [done|]. by rewrite nonzero_blocks_cons, Hp.
Qed.

Lemma nonzero_blocks_app mask bs vis1 vis2 :
  nonzero_blocks mask bs (vis1 ++ vis2) =
  nonzero_blocks mask bs vis1 ++ nonzero_blocks mask bs vis2.
Proof. unfold nonzero_blocks. by rewrite fmap_app, filter_app. Qed.

(** The first entry of the mask data is the content of the last active tile
    of the forward order. *)
Lemma final_mask_data_head mask bs q :
  outside_inactive mask bs → in_grid mask bs q → active mask bs q = true →
  no_active_after mask bs q →
  mask_data (final mask bs) !! 0 = Some (tile mask bs q).
Proof.
  intros Hout Hq Hqa Hnone.
  assert (q ∈ traversal mask bs) as Hqt.
  { apply elem_of_traversal. destruct Hq. lia. }
  destruct (traversal_split mask bs q Hqt) as (pre & post & Heq & Hpre & _).
  destruct (final_mask_data mask bs) as [-> _].
  rewrite Heq, nonzero_blocks_app, nonzero_blocks_cons, Hqa, nonzero_blocks_none.
  - cbn. by rewrite decide_False by apply not_elem_of_nil.
  - apply Forall_forall. intros r Hr.
    rewrite Forall_forall in Hpre.
    unfold outside_inactive in Hout. rewrite Forall_forall in Hout.
    destruct (Hout r) as [Hin|?]; [|by apply Hnone, Hpre|done].
    rewrite Heq. apply elem_of_app. by left.
Qed.

(** X3.  In an int32 mask, a tile that is not active and that no active tile
    follows in the forward order has content index 0 and the coordinates of
    the last tile of the grid, whether that tile is active or not; entry 0
    of the mask data is the content of the last active tile of the forward
    order. *)
Theorem trailing_tiles_sentinel mask bs :
  well_formed mask bs → dtype_of mask = int32 → coords_fit mask bs →
  has_active_tile mask bs →
  ∃ bmk pm pi pj md,
    sparsify_mask mask bs = Ok (bmk, pm, pi, pj, md) ∧
    (∀ p, in_grid mask bs p → active mask bs p = false → no_active_after mask bs p →
       cell pm p.1 p.2 = Some 0%Z ∧
       cell pi p.1 p.2 = Some (Z.of_nat (tile_rows mask bs) - 1)%Z ∧
       cell pj p.1 p.2 = Some (Z.of_nat (tile_cols mask bs) - 1)%Z) ∧
    (∀ q, in_grid mask bs q → active mask bs q = true → no_active_after mask bs q →
       data3 md !! 0 = Some (data (tile mask bs q))).
Proof.
  intros Hwf Hdt [Hfit1 Hfit2] Hact. pose proof Hwf as (_ & Hm & Hn & _).
  pose proof (well_formed_outside_inactive mask bs Hwf) as Hout.
  destruct (sparsify_mask_returns mask bs Hm Hn Hout Hact) as (md & Hok & Hd & _).
  eexists _, _, _, _, md. split; [done|]. split.
  - intros p Hin Hpa Hnone.
    pose proof (traversal_cell PrefetchMask mask bs p Hin) as Hk.
    pose proof (traversal_cell PrefetchI mask bs p Hin) as Hi.
    pose proof (traversal_cell PrefetchJ mask bs p Hin) as Hj.
    fold (final mask bs) in Hk, Hi, Hj. simpl in Hk, Hi, Hj.
    rewrite Hk, Hi, Hj, Hdt. simpl.
    destruct (locals_at_next mask bs p Hout Hin)
      as [(Hpa' & _)|[(_ & q & (Hq & Hqa & Hpq & _) & _)|(_ & _ & -> & -> & ->)]].
    + congruence.
    + rewrite Hnone in Hqa; done.
    + destruct Hin. rewrite !wrap32_small; [done|lia..].
  - intros q Hq Hqa Hnone.
    by rewrite Hd, list_lookup_fmap, (final_mask_data_head mask bs q).
Qed.

Lemma trailing_tiles_sentinel_witness :
  ∃ bmk pm pi pj md,
    sparsify_mask corner_mask (1, 1) = Ok (bmk, pm, pi, pj, md) ∧
    (∀ p, in_grid corner_mask (1, 1) p → active corner_mask (1, 1) p = false →
       no_active_after corner_mask (1, 1) p →
       cell pm p.1 p.2 = Some 0%Z ∧
       cell pi p.1 p.2 = Some (Z.of_nat (tile_rows corner_mask (1%nat, 1%nat)) - 1)%Z ∧
       cell pj p.1 p.2 = Some (Z.of_nat (tile_cols corner_mask (1%nat, 1%nat)) - 1)%Z) ∧
    (∀ q, in_grid corner_mask (1, 1) q → active corner_mask (1, 1) q = true →
       no_active_after corner_mask (1, 1) q →
       data3 md !! 0 = Some (data (tile corner_mask (1, 1) q))).
Proof.
  apply (trailing_tiles_sentinel corner_mask (1, 1)).
  - apply (bool_decide_eq_true_1 _). vm_compute. reflexivity.
  - reflexivity.
  - apply (bool_decide_eq_true_1 _). vm_compute. reflexivity.
  - apply (bool_decide_eq_true_1 _). vm_compute. reflexivity.
Defined.

(** * Further properties of [sparsify_mask] *)

(** X4.  The flags of [block_mask] tell the active tiles, for every mask on which
    the function returns, whatever its dtype and whether its dimensions are
    multiples of the block sizes or not; the four grids have the shape of
    the tile grid. *)
Theorem block_mask_flags mask bs bmk pm pi pj md :
  sparsify_mask mask bs = Ok (bmk, pm, pi, pj, md) →
  (shape bmk = (tile_rows mask bs, tile_cols mask bs) ∧
   shape pm = (tile_rows mask bs, tile_cols mask bs) ∧
   shape pi = (tile_rows mask bs, tile_cols mask bs) ∧
   shape pj = (tile_rows mask bs, tile_cols mask bs)) ∧
  ∀ p, in_grid mask bs p → cell bmk p.1 p.2 = Some (Z.b2z (active mask bs p)).
Proof.
  intros (Hm & Hn & -> & -> & -> & -> & _)%sparsify_mask_Ok.
  pose proof (run_grids_ok mask bs (traversal mask bs) _ (init_grids_ok mask bs)) as Hg.
  fold (final mask bs) in Hg. split.
  { split_and!; [apply (Hg BlockMask)|apply (Hg PrefetchMask)|
                 apply (Hg PrefetchI)|apply (Hg PrefetchJ)]. }
  intros p Hin. pose proof (traversal_cell BlockMask mask bs p Hin) as Hb.
  fold (final mask bs) in Hb. simpl in Hb. by rewrite astype_b2z in Hb.
Qed.

Lemma block_mask_flags_witness :
  let bmk := mkArray int32 (1, 1) [[1%Z]] in
  let z := mkArray int32 (1, 1) [[0%Z]] in
  (shape bmk = (1, 1) ∧ shape z = (1, 1) ∧ shape z = (1, 1) ∧ shape z = (1, 1)) ∧
  ∀ p, in_grid partial_row_mask (2, 2) p →
    cell bmk p.1 p.2 = Some (Z.b2z (active partial_row_mask (2, 2) p)).
Proof.
  intros bmk z.
  apply (block_mask_flags partial_row_mask (2, 2) bmk z z z
           (mkArray3 int32 (1, 2, 2) [[[1; 1]; [1; 1]]]%Z)).
  vm_compute. reflexivity.
Defined.

(** The index carried after the iteration at a visited coordinate is 0 or
    the position of a registered [str]. *)
Lemma locals_at_index mask bs p :
  p ∈ traversal mask bs →
  next_mask_type_idx (locals_at mask bs p) = 0%Z ∨
  ∃ k, next_mask_type_idx (locals_at mask bs p) = Z.of_nat k ∧
       k < length (mask_data (final mask bs)).
Proof.
  intros Hp. pose proof (locals_at_finder_prefix mask bs p Hp) as Hpref.
  destruct (traversal_split mask bs p Hp) as (pre & post & _ & _ & _ & Hat & _).
  pose proof (run_next mask bs (pre ++ [p]) (init_locals mask bs.1 bs.2)) as Hnext.
  rewrite <- Hat in Hnext.
  destruct (last_active mask bs (pre ++ [p])) as [q|].
  - right. destruct Hnext as (_ & _ & k & Hk & Hidx). exists k. split; [done|].
    apply list_index_Some, lookup_lt_Some in Hidx.
    apply prefix_length in Hpref.
    destruct (final_mask_data mask bs) as [_ Hfi].
    rewrite Hfi, length_fmap in Hpref. lia.
  - left. destruct Hnext as (-> & _). apply init_next.
Qed.

(** X5.  Every cell of [prefetch_mask] is an index into the returned mask data,
    for every mask on which the function returns, when the entries of the
    mask data are counted by values of the dtype of the mask (for an int32
    mask, when the mask data has at most 2^31 entries; nothing is asked of a
    boolean mask). *)
Theorem content_index_in_range mask bs bmk pm pi pj md :
  sparsify_mask mask bs = Ok (bmk, pm, pi, pj, md) →
  fits (dtype_of mask) (Z.of_nat (length (data3 md))) →
  ∀ p, in_grid mask bs p →
    ∃ k, cell pm p.1 p.2 = Some (Z.of_nat k) ∧ k < length (data3 md).
Proof.
  intros (Hm & Hn & _ & -> & _ & _ & Hst)%sparsify_mask_Ok Hfit p Hin.
  rewrite (traversal_cell PrefetchMask mask bs p Hin : cell (grid_of _ (final mask bs)) _ _ = _).
  assert (0 < length (mask_data (final mask bs))) as Hpos.
  { destruct (mask_data (final mask bs)); [done|simpl; lia]. }
  apply stack_Ok in Hst as (Hd & _). rewrite Hd, length_fmap in *.
  assert (p ∈ traversal mask bs) as Hp.
  { apply elem_of_traversal. destruct Hin. lia. }
  simpl.
  destruct (locals_at_index mask bs p Hp) as [->|(k & -> & Hk)].
  - exists 0. split; [|done]. by destruct (dtype_of mask).
  - destruct (decide (dtype_of mask = bool_)) as [Hdt|Hdt].
    + rewrite Hdt. simpl. case_decide.
      * exists 0. split; [done|lia].
      * exists 1. split; [done|lia].
    + exists k. rewrite (astype_small _ _ (Z.of_nat (length (mask_data (final mask bs)))));
        [done|lia|done..].
Qed.

Lemma content_index_in_range_witness :
  ∃ k, cell (mkArray bool_ (3, 1) [[1]; [1]; [0]]%Z) 2 0 = Some (Z.of_nat k) ∧ k < 3.
Proof.
  apply (content_index_in_range bool_mask (1, 2)
           (mkArray bool_ (3, 1) [[1]; [1]; [1]]%Z)
           (mkArray bool_ (3, 1) [[1]; [1]; [0]]%Z)
           (mkArray bool_ (3, 1) [[0]; [1]; [1]]%Z)
           (mkArray bool_ (3, 1) [[0]; [0]; [0]]%Z)
           (mkArray3 bool_ (3, 1, 2) [[[1; 0]]; [[0; 1]]; [[1; 1]]]%Z))
    with (p := (2, 0)).
  - vm_compute. reflexivity.
  - apply (bool_decide_eq_true_1 _). vm_compute. reflexivity.
  - apply (bool_decide_eq_true_1 _). vm_compute. reflexivity.
Defined.

Lemma next_active_unique mask bs p q q' :
  next_active mask bs p q → next_active mask bs p q' → q = q'.
Proof.
  intros (Hq & Hqa & Hpq & Hbetween) (Hq' & Hqa' & Hpq' & Hbetween').
  destruct (before_total q q') as [Hlt|[->|Hlt]]; [|done|].
  - rewrite (Hbetween' q Hq Hpq Hlt) in Hqa. done.
  - rewrite (Hbetween q' Hq' Hpq' Hlt) in Hqa'. done.
Qed.

(** X6.  The three prefetch maps agree at a tile that is not active: in an int32
    mask whose tiles [str] tells apart, its next-coordinates are those of the
    first active tile after it in the forward order, and its content index
    is the content index of that tile and names the content of that tile. *)
Theorem prefetch_names_next_active mask bs :
  well_formed mask bs → dtype_of mask = int32 → indices_fit mask bs →
  str_faithful mask bs → has_active_tile mask bs →
  ∃ bmk pm pi pj md,
    sparsify_mask mask bs = Ok (bmk, pm, pi, pj, md) ∧
    ∀ p q, in_grid mask bs p → active mask bs p = false → next_active mask bs p q →
      cell pi p.1 p.2 = Some (Z.of_nat q.1) ∧ cell pj p.1 p.2 = Some (Z.of_nat q.2) ∧
      ∃ k, cell pm p.1 p.2 = Some (Z.of_nat k) ∧ cell pm q.1 q.2 = Some (Z.of_nat k) ∧
           data3 md !! k = Some (data (tile mask bs q)).
Proof.
  intros Hwf Hdt Hfit Hstr Hact. pose proof Hwf as (_ & Hm & Hn & _).
  pose proof (well_formed_outside_inactive mask bs Hwf) as Hout.
  destruct (sparsify_mask_returns mask bs Hm Hn Hout Hact) as (md & Hok & Hd & _).
  eexists _, _, _, _, md. split; [done|]. intros p q Hin Hpa Hnext.
  pose proof Hnext as (Hq & Hqa & _).
  rewrite (traversal_cell PrefetchI mask bs p Hin : cell (prefetch_i (final mask bs)) _ _ = _).
  rewrite (traversal_cell PrefetchJ mask bs p Hin : cell (prefetch_j (final mask bs)) _ _ = _).
  rewrite (traversal_cell PrefetchMask mask bs p Hin : cell (prefetch_mask (final mask bs)) _ _ = _).
  rewrite (traversal_cell PrefetchMask mask bs q Hq : cell (prefetch_mask (final mask bs)) _ _ = _).
  rewrite Hdt. simpl.
  assert (∀ k, k < length (mask_data (final mask bs)) →
            wrap32 (Z.of_nat k) = Z.of_nat k) as Hidx.
  { intros k Hk. pose proof (length_final_mask_data mask bs Hout).
    apply (wrap32_index mask bs); [done|lia]. }
  assert (∀ r k, list_index (str (tile mask bs r)) (mask_types_finder (final mask bs)) = Some k →
            k < length (mask_data (final mask bs))) as Hlen.
  { intros r k Hk%list_index_Some%lookup_lt_Some.
    destruct (final_mask_data mask bs) as [_ Hfi]. by rewrite Hfi, length_fmap in Hk. }
  destruct (locals_at_next mask bs p Hout Hin)
    as [(Hpa' & _)|[(_ & q' & Hq' & -> & -> & k & -> & Hk)|(_ & Hnone & _)]].
  - congruence.
  - rewrite <- (next_active_unique mask bs p q q' Hnext Hq') in *.
    destruct Hin as [Hp1 Hp2], Hq as [Hq1 Hq2].
    rewrite !(wrap32_index mask bs) by (done || nia).
    split_and!; [done..|]. exists k.
    rewrite (Hidx k) by by eapply Hlen. split; [done|].
    destruct (locals_at_next mask bs q Hout (conj Hq1 Hq2))
      as [(_ & _ & _ & k' & -> & Hk')|[(Hqa' & _)|(Hqa' & _)]]; [|congruence..].
    assert (k' = k) as -> by congruence.
    rewrite (Hidx k) by by eapply Hlen. split; [done|].
    rewrite Hd, list_lookup_fmap, (final_lookup mask bs q k); done.
  - destruct Hnext as (Hq0 & Hqa0 & Hpq & _). rewrite (Hnone q Hq0 Hpq) in Hqa0. done.
Qed.

Lemma prefetch_names_next_active_witness :
  ∃ bmk pm pi pj md,
    sparsify_mask scenario_mask (2, 2) = Ok (bmk, pm, pi, pj, md) ∧
    ∀ p q, in_grid scenario_mask (2, 2) p → active scenario_mask (2, 2) p = false →
      next_active scenario_mask (2, 2) p q →
      cell pi p.1 p.2 = Some (Z.of_nat q.1) ∧ cell pj p.1 p.2 = Some (Z.of_nat q.2) ∧
      ∃ k, cell pm p.1 p.2 = Some (Z.of_nat k) ∧ cell pm q.1 q.2 = Some (Z.of_nat k) ∧
           data3 md !! k = Some (data (tile scenario_mask (2, 2) q)).
Proof.
  apply (prefetch_names_next_active scenario_mask (2, 2)).
  - apply (bool_decide_eq_true_1 _). vm_compute. reflexivity.
  - reflexivity.
  - apply (bool_decide_eq_true_1 _). vm_compute. reflexivity.
  - apply (bool_decide_eq_true_1 _). vm_compute. reflexivity.
  - apply (bool_decide_eq_true_1 _). vm_compute. reflexivity.
Defined.

(** The [str] of every non-zero block of the visits is registered. *)
Lemma distinct_by_covers {A K} `{EqDecision K} (key : A → K) seen l x :
  x ∈ l → key x ∈ seen ∨ key x ∈ key <$> distinct_by key seen l.
Proof.
  revert seen. induction l as [|y l IH]; intros seen Hx; [by apply elem_of_nil in Hx|].
  cbn. apply elem_of_cons in Hx as [->|Hx].
  - case_decide; [by left|right]. rewrite fmap_cons. by left.
  - case_decide.
    + by apply IH.
    + destruct (IH (seen ++ [key y]) Hx) as [Hs|Hs].
      * apply elem_of_app in Hs as [Hs|Hs%list_elem_of_singleton]; [by left|right].
        rewrite fmap_cons, Hs. by left.
      * right. rewrite fmap_cons. by right.
Qed.

(** Outside the grid, a visited block is smaller than a whole block. *)
Lemma outside_shape mask bs p :
  0 < bs.1 → 0 < bs.2 → p ∈ traversal mask bs → ¬ in_grid mask bs p →
  shape (tile mask bs p) ≠ bs.
Proof.
  intros Hm Hn [Hp1 Hp2]%elem_of_traversal Hout Hsh.
  unfold tile, mask_block_at, getitem, in_grid, tile_rows, tile_cols, slice_len in *.
  destruct bs as [bm bn], p as [i j]. simpl in *.
  injection Hsh as H1 H2.
  pose proof (Nat.div_mod (shape mask).1 bm). pose proof (Nat.mod_upper_bound (shape mask).1 bm).
  pose proof (Nat.div_mod (shape mask).2 bn). pose proof (Nat.mod_upper_bound (shape mask).2 bn).
  destruct (decide (i < (shape mask).1 / bm)); [assert (j = (shape mask).2 / bn) as -> by lia|
                                               assert (i = (shape mask).1 / bm) as -> by lia]; nia.
Qed.

(** X7.  A mask with a non-zero whole tile and a non-zero trailing partial block
    is not accepted, but not by a check of the dimensions: the two blocks
    are registered with different shapes and the final [jnp.stack] raises
    ValueError. *)
Theorem nonzero_remainder_raises mask bs p q :
  0 < bs.1 → 0 < bs.2 → str_shape_faithful mask bs →
  in_grid mask bs p → active mask bs p = true →
  q ∈ traversal mask bs → ¬ in_grid mask bs q → active mask bs q = true →
  sparsify_mask mask bs = Raise ValueError.
Proof.
  intros Hm Hn Hstr Hp Hpa Hq Hqout Hqa.
  rewrite sparsify_mask_run by (done || by eapply in_grid_nonempty).
  fold (final mask bs).
  destruct (final_mask_data mask bs) as [Hd Hfi]. unfold finish.
  assert (p ∈ traversal mask bs) as Hpt.
  { apply elem_of_traversal. destruct Hp. lia. }
  assert (∀ r, r ∈ traversal mask bs → active mask bs r = true →
            ∃ b, b ∈ mask_data (final mask bs) ∧ shape b = shape (tile mask bs r)) as Hreg.
  { intros r Hr Hra.
    destruct (distinct_by_covers str [] (nonzero_blocks mask bs (traversal mask bs))
                (tile mask bs r)) as [Hs|Hs].
    { apply elem_of_nonzero_blocks. by exists r. }
    { by apply elem_of_nil in Hs. }
    rewrite <- Hd in Hs. apply list_elem_of_fmap in Hs as (b & Hstrb & Hb).
    exists b. split; [done|].
    pose proof Hb as Hb'. rewrite Hd in Hb'.
    apply elem_of_distinct_by, elem_of_nonzero_blocks in Hb' as (r' & Hr' & Hra' & ->).
    unfold str_shape_faithful in Hstr. rewrite Forall_forall in Hstr.
    specialize (Hstr r' Hr'). rewrite Forall_forall in Hstr. by apply Hstr. }
  destruct (Hreg p Hpt Hpa) as (b1 & Hb1 & Hs1).
  destruct (Hreg q Hq Hqa) as (b2 & Hb2 & Hs2).
  rewrite (tile_shape mask bs p) in Hs1 by done.
  pose proof (outside_shape mask bs q Hm Hn Hq Hqout) as Hne.
  unfold stack. destruct (mask_data (final mask bs)) as [|a arrays]; [done|].
  destruct (forallb _ _) eqn:Hall; [|done]. exfalso.
  apply Is_true_true, forallb_True in Hall. rewrite Forall_forall in Hall.
  pose proof (Hall b1 Hb1) as H1%bool_decide_spec.
  pose proof (Hall b2 Hb2) as H2%bool_decide_spec. congruence.
Qed.

Lemma nonzero_remainder_raises_witness :
  (shape nonzero_remainder_mask).1 `mod` 2 ≠ 0 ∧
  sparsify_mask nonzero_remainder_mask (2, 2) = Raise ValueError.
Proof.
  split; [done|].
  apply (nonzero_remainder_raises nonzero_remainder_mask (2, 2) (0, 0) (1, 0)).
  - simpl. lia.
  - simpl. lia.
  - apply (bool_decide_eq_true_1 _). vm_compute. reflexivity.
  - apply (bool_decide_eq_true_1 _). vm_compute. reflexivity.
  - vm_compute. reflexivity.
  - apply (bool_decide_eq_true_1 _). vm_compute. reflexivity.
  - apply (bool_decide_eq_false_1 _). vm_compute. reflexivity.
  - vm_compute. reflexivity.
Defined.

(** * The consumers of the outputs: index maps and kernel *)

(** The cells of the four grids of an int32 mask, in the three cases of a
    tile. *)
Lemma int32_cells mask bs p :
  well_formed mask bs → dtype_of mask = int32 → indices_fit mask bs →
  str_faithful mask bs → has_active_tile mask bs → in_grid mask bs p →
  let st := final mask bs in
  cell (block_mask st) p.1 p.2 = Some (Z.b2z (active mask bs p)) ∧
  ∃ q k,
    cell (prefetch_i st) p.1 p.2 = Some (Z.of_nat q.1) ∧
    cell (prefetch_j st) p.1 p.2 = Some (Z.of_nat q.2) ∧
    cell (prefetch_mask st) p.1 p.2 = Some (Z.of_nat k) ∧
    in_grid mask bs q ∧
    ((active mask bs p = true ∧ q = p ∧ mask_data st !! k = Some (tile mask bs p)) ∨
     (active mask bs p = false ∧ next_active mask bs p q ∧
      mask_data st !! k = Some (tile mask bs q)) ∨
     (active mask bs p = false ∧ no_active_after mask bs p ∧ q = sentinel mask bs ∧
      k = 0 ∧ is_Some (mask_data st !! 0))).
Proof.
  intros Hwf Hdt Hfit Hstr Hact Hin. simpl.
  pose proof Hwf as (_ & Hm & Hn & _).
  pose proof (well_formed_outside_inactive mask bs Hwf) as Hout.
  pose proof (traversal_cell BlockMask mask bs p Hin) as Hb.
  pose proof (traversal_cell PrefetchMask mask bs p Hin) as Hk.
  pose proof (traversal_cell PrefetchI mask bs p Hin) as Hi.
  pose proof (traversal_cell PrefetchJ mask bs p Hin) as Hj.
  fold (final mask bs) in Hb, Hk, Hi, Hj. simpl in Hb, Hk, Hi, Hj.
  rewrite astype_b2z in Hb. rewrite Hdt in Hk, Hi, Hj. simpl in Hk, Hi, Hj.
  split; [done|]. rewrite Hk, Hi, Hj.
  assert (∀ q, in_grid mask bs q →
            wrap32 (Z.of_nat q.1) = Z.of_nat q.1 ∧ wrap32 (Z.of_nat q.2) = Z.of_nat q.2)
    as Hcoord.
  { intros q [Hq1 Hq2]. split; apply (wrap32_index mask bs); [done|nia|done|nia]. }
  assert (∀ q k, list_index (str (tile mask bs q)) (mask_types_finder (final mask bs)) = Some k →
            wrap32 (Z.of_nat k) = Z.of_nat k) as Hidx.
  { intros q k Hq%list_index_Some%lookup_lt_Some.
    destruct (final_mask_data mask bs) as [_ Hfi]. rewrite Hfi, length_fmap in Hq.
    pose proof (length_final_mask_data mask bs Hout).
    apply (wrap32_index mask bs); [done|lia]. }
  destruct (locals_at_next mask bs p Hout Hin)
    as [(Hpa & Hni & Hnj & k & Hnk & Hfind)|
        [(Hpa & q & Hq & Hni & Hnj & k & Hnk & Hfind)|(Hpa & Hnone & Hnk & Hni & Hnj)]];
    rewrite Hni, Hnj, Hnk.
  - exists p, k. destruct (Hcoord p Hin) as [-> ->]. rewrite (Hidx p k Hfind).
    split_and!; [done..|]. left. split_and!; [done..|]. by apply final_lookup.
  - exists q, k. pose proof Hq as (Hqin & Hqa & _).
    destruct (Hcoord q Hqin) as [-> ->]. rewrite (Hidx q k Hfind).
    split_and!; [done..|]. right. left. split_and!; [done..|]. by apply final_lookup.
  - exists (sentinel mask bs), 0.
    assert (in_grid mask bs (sentinel mask bs)) as Hs.
    { destruct Hin. unfold in_grid, sentinel. simpl. lia. }
    destruct (Hcoord _ Hs) as [H1 H2]. destruct Hin as [Hp1 Hp2].
    unfold sentinel in *. simpl in *.
    replace (Z.of_nat (tile_rows mask bs) - 1)%Z with (Z.of_nat (tile_rows mask bs - 1)) by lia.
    replace (Z.of_nat (tile_cols mask bs) - 1)%Z with (Z.of_nat (tile_cols mask bs - 1)) by lia.
    rewrite H1, H2. split_and!; [done..|]. right. right. split_and!; [done..|].
    destruct (sparsify_mask_returns mask bs Hm Hn Hout Hact) as (md & Hok & _).
    apply sparsify_mask_Ok in Hok as (_ & _ & _ & _ & _ & _ & Hst).
    apply lookup_lt_is_Some_2.
    destruct (mask_data (final mask bs)); [done|simpl; lia].
Qed.

(** The cells of the grids are in range, for every dtype that counts the
    tiles. *)
Lemma cells_in_range mask bs p :
  well_formed mask bs → has_active_tile mask bs →
  fits (dtype_of mask) (Z.of_nat (tile_rows mask bs * tile_cols mask bs)) →
  in_grid mask bs p →
  let st := final mask bs in
  cell (block_mask st) p.1 p.2 = Some (Z.b2z (active mask bs p)) ∧
  ∃ a b k,
    cell (prefetch_i st) p.1 p.2 = Some a ∧ cell (prefetch_j st) p.1 p.2 = Some b ∧
    cell (prefetch_mask st) p.1 p.2 = Some (Z.of_nat k) ∧
    (0 ≤ a < Z.of_nat (tile_rows mask bs))%Z ∧ (0 ≤ b < Z.of_nat (tile_cols mask bs))%Z ∧
    k < length (mask_data st).
Proof.
  intros Hwf Hact Hfit Hin. simpl. pose proof Hwf as (_ & Hm & Hn & _).
  pose proof (well_formed_outside_inactive mask bs Hwf) as Hout.
  pose proof (traversal_cell BlockMask mask bs p Hin) as Hb.
  pose proof (traversal_cell PrefetchMask mask bs p Hin) as Hk.
  pose proof (traversal_cell PrefetchI mask bs p Hin) as Hi.
  pose proof (traversal_cell PrefetchJ mask bs p Hin) as Hj.
  fold (final mask bs) in Hb, Hk, Hi, Hj. simpl in Hb, Hk, Hi, Hj.
  rewrite astype_b2z in Hb. split; [done|]. rewrite Hk, Hi, Hj.
  assert (0 < length (mask_data (final mask bs))) as Hpos.
  { destruct (sparsify_mask_returns mask bs Hm Hn Hout Hact) as (md & Hok & _).
    apply sparsify_mask_Ok in Hok as (_ & _ & _ & _ & _ & _ & Hst).
    destruct (mask_data (final mask bs)); [done|simpl; lia]. }
  pose proof (length_final_mask_data mask bs Hout) as Hlen.
  assert ((0 ≤ next_i (locals_at mask bs p) < Z.of_nat (tile_rows mask bs)) ∧
          (0 ≤ next_j (locals_at mask bs p) < Z.of_nat (tile_cols mask bs)))%Z as [Hni Hnj].
  { destruct Hin as [Hp1 Hp2].
    destruct (locals_at_next mask bs p Hout (conj Hp1 Hp2))
      as [(_ & -> & -> & _)|[(_ & q & (Hq & _) & -> & -> & _)|(_ & _ & _ & -> & ->)]].
    - lia.
    - destruct Hq. lia.
    - lia. }
  assert (∃ k, astype (dtype_of mask) (next_mask_type_idx (locals_at mask bs p)) = Z.of_nat k ∧
               k < length (mask_data (final mask bs))) as (k & -> & Hklt).
  { assert (p ∈ traversal mask bs) as Hp.
    { apply elem_of_traversal. destruct Hin. lia. }
    destruct (locals_at_index mask bs p Hp) as [->|(k & -> & Hk')].
    - exists 0. split; [|done]. by destruct (dtype_of mask).
    - destruct (decide (dtype_of mask = bool_)) as [Hdt|Hdt].
      + rewrite Hdt. simpl. case_decide; [exists 0|exists 1]; split; (done || lia).
      + exists k. split; [|done].
        apply (astype_small _ _ (Z.of_nat (tile_rows mask bs * tile_cols mask bs)));
          [lia|done..]. }
  eexists _, _, k. do 3 (split; [reflexivity|]). split; [|split; [|done]].
  - apply astype_range; [done|]. eapply fits_le; [|done]. destruct Hin. nia.
  - apply astype_range; [done|]. eapply fits_le; [|done]. destruct Hin. nia.
Qed.

Lemma mask_block_lookup md k :
  MaskMatmul.mask_block md (Z.of_nat k) = data3 md !! k.
Proof. unfold MaskMatmul.mask_block. rewrite decide_True by lia. by rewrite Nat2Z.id. Qed.

(** X8.  At every grid point the index maps name blocks that exist: a row block
    of X below M // blk_M, a column block of Y below N // blk_N, a block
    along K below the number of steps, and an entry of the mask data.  This
    holds for every dtype of the mask that counts the tiles of the grid (an
    int32 mask of at most 2^31 tiles; nothing is asked of a boolean mask). *)
Theorem index_maps_in_range mask bs num_k :
  well_formed mask bs → has_active_tile mask bs →
  fits (dtype_of mask) (Z.of_nat (tile_rows mask bs * tile_cols mask bs)) →
  ∃ bmk pm pi pj md,
    sparsify_mask mask bs = Ok (bmk, pm, pi, pj, md) ∧
    ∀ p k, in_grid mask bs p → k < num_k →
      ∃ a b kf idx blk,
        MaskMatmul.x_map p.1 p.2 k bmk pm pi pj = Some (a, kf) ∧
        MaskMatmul.y_map p.1 p.2 k bmk pm pi pj = Some (kf, b) ∧
        MaskMatmul.mask_map p.1 p.2 k bmk pm = Some (idx, 0, 0)%Z ∧
        (0 ≤ a < Z.of_nat (tile_rows mask bs))%Z ∧
        (0 ≤ b < Z.of_nat (tile_cols mask bs))%Z ∧
        (0 ≤ kf < Z.of_nat num_k)%Z ∧
        MaskMatmul.mask_block md idx = Some blk.
Proof.
  intros Hwf Hact Hfit. pose proof Hwf as (_ & Hm & Hn & _).
  pose proof (well_formed_outside_inactive mask bs Hwf) as Hout.
  destruct (sparsify_mask_returns mask bs Hm Hn Hout Hact) as (md & Hok & Hd & _).
  eexists _, _, _, _, md. split; [done|]. intros p k Hin Hk.
  destruct (cells_in_range mask bs p Hwf Hact Hfit Hin)
    as (Hb & a & b & idx & Hi & Hj & Hidx & Ha & Hb' & Hlt).
  destruct (lookup_lt_is_Some_2 (data3 md) idx) as [blk Hblk].
  { by rewrite Hd, length_fmap. }
  exists a, b, (Z.b2z (MaskMatmul.nonzero (Z.b2z (active mask bs p))) * Z.of_nat k)%Z,
    (Z.of_nat idx), blk.
  unfold MaskMatmul.x_map, MaskMatmul.y_map, MaskMatmul.mask_map.
  rewrite Hb, Hi, Hj, Hidx. simpl. do 5 (split; [done|]).
  split; [|by rewrite mask_block_lookup].
  destruct (MaskMatmul.nonzero _); simpl; lia.
Qed.

Lemma index_maps_in_range_witness :
  ∃ bmk pm pi pj md,
    sparsify_mask bool_mask (1, 2) = Ok (bmk, pm, pi, pj, md) ∧
    ∀ p k, in_grid bool_mask (1, 2) p → k < 4 →
      ∃ a b kf idx blk,
        MaskMatmul.x_map p.1 p.2 k bmk pm pi pj = Some (a, kf) ∧
        MaskMatmul.y_map p.1 p.2 k bmk pm pi pj = Some (kf, b) ∧
        MaskMatmul.mask_map p.1 p.2 k bmk pm = Some (idx, 0, 0)%Z ∧
        (0 ≤ a < 3)%Z ∧ (0 ≤ b < 1)%Z ∧ (0 ≤ kf < 4)%Z ∧
        MaskMatmul.mask_block md idx = Some blk.
Proof.
  apply (index_maps_in_range bool_mask (1, 2) 4).
  - apply (bool_decide_eq_true_1 _). vm_compute. reflexivity.
  - apply (bool_decide_eq_true_1 _). vm_compute. reflexivity.
  - apply (bool_decide_eq_true_1 _). vm_compute. reflexivity.
Defined.

(** X9.  In an int32 mask whose tiles [str] tells apart, the index maps name, at
    an active tile (i, j) and step k, the blocks (i, k) of X and (k, j) of Y
    and the mask block of the tile; at a tile that is skipped and that an
    active tile follows, at every step, the first blocks of that tile along
    K and its mask block: what the pipeline prefetches during the skipped
    steps is what the next computed tile starts with. *)
Theorem index_maps_name_next_blocks mask bs :
  well_formed mask bs → dtype_of mask = int32 → indices_fit mask bs →
  str_faithful mask bs → has_active_tile mask bs →
  ∃ bmk pm pi pj md,
    sparsify_mask mask bs = Ok (bmk, pm, pi, pj, md) ∧
    ∀ p k, in_grid mask bs p →
      (active mask bs p = true →
       MaskMatmul.x_map p.1 p.2 k bmk pm pi pj = Some (Z.of_nat p.1, Z.of_nat k) ∧
       MaskMatmul.y_map p.1 p.2 k bmk pm pi pj = Some (Z.of_nat k, Z.of_nat p.2) ∧
       ∃ idx, MaskMatmul.mask_map p.1 p.2 k bmk pm = Some (idx, 0, 0)%Z ∧
              MaskMatmul.mask_block md idx = Some (data (tile mask bs p))) ∧
      (active mask bs p = false → ∀ q, next_active mask bs p q →
       MaskMatmul.x_map p.1 p.2 k bmk pm pi pj = Some (Z.of_nat q.1, 0%Z) ∧
       MaskMatmul.y_map p.1 p.2 k bmk pm pi pj = Some (0%Z, Z.of_nat q.2) ∧
       ∃ idx, MaskMatmul.mask_map p.1 p.2 k bmk pm = Some (idx, 0, 0)%Z ∧
              MaskMatmul.mask_block md idx = Some (data (tile mask bs q))).
Proof.
  intros Hwf Hdt Hfit Hstr Hact. pose proof Hwf as (_ & Hm & Hn & _).
  pose proof (well_formed_outside_inactive mask bs Hwf) as Hout.
  destruct (sparsify_mask_returns mask bs Hm Hn Hout Hact) as (md & Hok & Hd & _).
  eexists _, _, _, _, md. split; [done|]. intros p k Hin.
  destruct (int32_cells mask bs p Hwf Hdt Hfit Hstr Hact Hin)
    as (Hb & q & idx & Hi & Hj & Hidx & Hq & Hcases).
  unfold MaskMatmul.x_map, MaskMatmul.y_map, MaskMatmul.mask_map.
  rewrite Hb, Hi, Hj, Hidx. simpl. split.
  - intros Hpa. rewrite Hpa. simpl.
    destruct Hcases as [(_ & -> & Hblk)|[(? & _)|(? & _)]]; [|congruence..].
    split_and!; [f_equal; f_equal; lia..|].
    eexists. split; [done|]. by rewrite mask_block_lookup, Hd, list_lookup_fmap, Hblk.
  - intros Hpa q' Hq'. rewrite Hpa. simpl.
    destruct Hcases as [(? & _)|[(_ & Hnext & Hblk)|(_ & Hnone & _)]]; [congruence| |].
    + rewrite <- (next_active_unique mask bs p q q' Hnext Hq').
      split_and!; [done..|].
      eexists. split; [done|]. by rewrite mask_block_lookup, Hd, list_lookup_fmap, Hblk.
    + destruct Hq' as (Hq0 & Hqa0 & Hpq & _). rewrite (Hnone q' Hq0 Hpq) in Hqa0. done.
Qed.

Lemma index_maps_name_next_blocks_witness :
  ∃ bmk pm pi pj md,
    sparsify_mask scenario_mask (2, 2) = Ok (bmk, pm, pi, pj, md) ∧
    ∀ p k, in_grid scenario_mask (2, 2) p →
      (active scenario_mask (2, 2) p = true →
       MaskMatmul.x_map p.1 p.2 k bmk pm pi pj = Some (Z.of_nat p.1, Z.of_nat k) ∧
       MaskMatmul.y_map p.1 p.2 k bmk pm pi pj = Some (Z.of_nat k, Z.of_nat p.2) ∧
       ∃ idx, MaskMatmul.mask_map p.1 p.2 k bmk pm = Some (idx, 0, 0)%Z ∧
              MaskMatmul.mask_block md idx = Some (data (tile scenario_mask (2, 2) p))) ∧
      (active scenario_mask (2, 2) p = false → ∀ q, next_active scenario_mask (2, 2) p q →
       MaskMatmul.x_map p.1 p.2 k bmk pm pi pj = Some (Z.of_nat q.1, 0%Z) ∧
       MaskMatmul.y_map p.1 p.2 k bmk pm pi pj = Some (0%Z, Z.of_nat q.2) ∧
       ∃ idx, MaskMatmul.mask_map p.1 p.2 k bmk pm = Some (idx, 0, 0)%Z ∧
              MaskMatmul.mask_block md idx = Some (data (tile scenario_mask (2, 2) q))).
Proof.
  apply (index_maps_name_next_blocks scenario_mask (2, 2)).
  - apply (bool_decide_eq_true_1 _). vm_compute. reflexivity.
  - reflexivity.
  - apply (bool_decide_eq_true_1 _). vm_compute. reflexivity.
  - apply (bool_decide_eq_true_1 _). vm_compute. reflexivity.
  - apply (bool_decide_eq_true_1 _). vm_compute. reflexivity.
Defined.

Section mask_matmul_kernel.
Context {XBlk YBlk Acc Out : Type}.
Context (dot : XBlk → YBlk → Acc) (add : Acc → Acc → Acc).
Context (acc_zeros : Acc) (out_zeros : Out) (mask_mul : list (list Z) → Acc → Out).

Local Abbreviation grid_step := (MaskMatmul.grid_step dot add acc_zeros out_zeros mask_mul).
Local Abbreviation tile_output := (MaskMatmul.tile_output dot add acc_zeros out_zeros mask_mul).

(** The sum the kernel accumulates at a tile: the products of the blocks
    along K, added one after the other to the zero accumulator. *)
Local Abbreviation partial_sum X Y a b m :=
  (foldl (λ acc k, add acc (dot (X (a, Z.of_nat k)) (Y (Z.of_nat k, b)))) acc_zeros (seq 0 m)).

Lemma grid_step_compute bmk pm pi pj md X Y i j num_k k r a b idx blk :
  cell bmk i j = Some 1%Z → cell pi i j = Some a → cell pj i j = Some b →
  cell pm i j = Some idx → MaskMatmul.mask_block md idx = Some blk →
  grid_step (bmk, pm, pi, pj, md) X Y i j num_k (Some r) k =
  let r := if decide (k = 0) then MaskMatmul.mkRefs out_zeros acc_zeros else r in
  let accum := add (MaskMatmul.accum_scratch r) (dot (X (a, Z.of_nat k)) (Y (Z.of_nat k, b))) in
  Some (MaskMatmul.mkRefs
          (if decide (Z.of_nat k = Z.of_nat num_k - 1)%Z then mask_mul blk accum
           else MaskMatmul.o_ref r) accum).
Proof.
  intros Hf Hi Hj Hidx Hblk.
  unfold MaskMatmul.grid_step, MaskMatmul.x_map, MaskMatmul.y_map, MaskMatmul.mask_map,
    MaskMatmul.sparse_mask_matmul.
  rewrite Hf, Hi, Hj, Hidx. simpl. rewrite Hblk. simpl.
  by replace (1 * Z.of_nat k)%Z with (Z.of_nat k) by lia.
Qed.

Lemma grid_step_skip bmk pm pi pj md X Y i j num_k k r a b idx blk :
  cell bmk i j = Some 0%Z → cell pi i j = Some a → cell pj i j = Some b →
  cell pm i j = Some idx → MaskMatmul.mask_block md idx = Some blk →
  grid_step (bmk, pm, pi, pj, md) X Y i j num_k (Some r) k =
  Some (if decide (k = 0) then MaskMatmul.mkRefs out_zeros acc_zeros else r).
Proof.
  intros Hf Hi Hj Hidx Hblk.
  unfold MaskMatmul.grid_step, MaskMatmul.x_map, MaskMatmul.y_map, MaskMatmul.mask_map,
    MaskMatmul.sparse_mask_matmul.
  rewrite Hf, Hi, Hj, Hidx. simpl. rewrite Hblk. done.
Qed.

Lemma steps_compute bmk pm pi pj md X Y i j num_k r a b idx blk m :
  cell bmk i j = Some 1%Z → cell pi i j = Some a → cell pj i j = Some b →
  cell pm i j = Some idx → MaskMatmul.mask_block md idx = Some blk →
  m < num_k →
  foldl (grid_step (bmk, pm, pi, pj, md) X Y i j num_k) (Some r) (seq 0 (S m)) =
  Some (MaskMatmul.mkRefs
          (if decide (S m = num_k) then mask_mul blk (partial_sum X Y a b (S m))
           else out_zeros)
          (partial_sum X Y a b (S m))).
Proof.
  intros Hf Hi Hj Hidx Hblk. induction m as [|m IH]; intros Hm.
  - cbn [seq foldl]. rewrite (grid_step_compute _ _ _ _ _ _ _ _ _ _ _ _ a b idx blk) by done.
    simpl. do 2 f_equal. repeat case_decide; done || lia.
  - rewrite seq_S, !foldl_app, IH by lia. cbn [foldl].
    rewrite (grid_step_compute _ _ _ _ _ _ _ _ _ _ _ _ a b idx blk) by done.
    simpl. rewrite (decide_False (P := S m = num_k)) by lia.
    do 2 f_equal. repeat case_decide; done || lia.
Qed.

Lemma steps_skip bmk pm pi pj md X Y i j num_k r a b idx blk m :
  cell bmk i j = Some 0%Z → cell pi i j = Some a → cell pj i j = Some b →
  cell pm i j = Some idx → MaskMatmul.mask_block md idx = Some blk →
  foldl (grid_step (bmk, pm, pi, pj, md) X Y i j num_k) (Some r) (seq 0 (S m)) =
  Some (MaskMatmul.mkRefs out_zeros acc_zeros).
Proof.
  intros Hf Hi Hj Hidx Hblk. induction m as [|m IH].
  - cbn [seq foldl]. by rewrite (grid_step_skip _ _ _ _ _ _ _ _ _ _ _ _ a b idx blk).
  - rewrite seq_S, foldl_app, IH. cbn [foldl].
    by rewrite (grid_step_skip _ _ _ _ _ _ _ _ _ _ _ _ a b idx blk).
Qed.

(** X10.  With the outputs of [sparsify_mask] for an int32 mask whose tiles
    [str] tells apart, the kernel leaves in the output block of an active
    tile (i, j) the block of the mask at that tile times the sum over k of
    the products of the blocks (i, k) of X and (k, j) of Y, and in the
    output block of any other tile zeros, whatever the buffers held
    before. *)
Theorem masked_matmul_tile mask bs X Y num_k :
  well_formed mask bs → dtype_of mask = int32 → indices_fit mask bs →
  str_faithful mask bs → has_active_tile mask bs → 0 < num_k →
  ∃ out, sparsify_mask mask bs = Ok out ∧
    ∀ p r, in_grid mask bs p →
      tile_output out X Y p.1 p.2 num_k r =
      Some (if active mask bs p
            then mask_mul (data (tile mask bs p))
                   (partial_sum X Y (Z.of_nat p.1) (Z.of_nat p.2) num_k)
            else out_zeros).
Proof.
  intros Hwf Hdt Hfit Hstr Hact Hk. pose proof Hwf as (_ & Hm & Hn & _).
  pose proof (well_formed_outside_inactive mask bs Hwf) as Hout.
  destruct (sparsify_mask_returns mask bs Hm Hn Hout Hact) as (md & Hok & Hd & _).
  eexists. split; [done|]. intros p r Hin.
  destruct (int32_cells mask bs p Hwf Hdt Hfit Hstr Hact Hin)
    as (Hb & q & idx & Hi & Hj & Hidx & Hq & Hcases).
  unfold MaskMatmul.tile_output. destruct num_k as [|m]; [lia|].
  destruct (active mask bs p) eqn:Hpa.
  - destruct Hcases as [(_ & -> & Hblk)|[(? & _)|(? & _)]]; [|congruence..].
    rewrite steps_compute with (a := Z.of_nat p.1) (b := Z.of_nat p.2)
      (idx := Z.of_nat idx) (blk := data (tile mask bs p)); [|done..| |lia].
    + simpl. by rewrite decide_True.
    + by rewrite mask_block_lookup, Hd, list_lookup_fmap, Hblk.
  - assert (is_Some (mask_data (final mask bs) !! idx)) as [blk Hblk].
    { destruct Hcases as [(? & _)|[(_ & _ & ->)|(_ & _ & _ & -> & ?)]]; [congruence|eauto|done]. }
    rewrite steps_skip with (a := Z.of_nat q.1) (b := Z.of_nat q.2)
      (idx := Z.of_nat idx) (blk := data blk); [done..|].
    by rewrite mask_block_lookup, Hd, list_lookup_fmap, Hblk.
Qed.
End mask_matmul_kernel.

Lemma masked_matmul_tile_witness :
  let mul := λ (m : list (list Z)) (acc : Z),
    (default 0%Z (m !! 0%nat ≫= (.!! 0%nat)) * acc)%Z in
  let X := λ ab : Z * Z, (ab.1 + 2 * ab.2 + 1)%Z in
  let Y := λ ab : Z * Z, (3 * ab.1 + ab.2 + 1)%Z in
  ∃ out, sparsify_mask scenario_mask (2, 2) = Ok out ∧
    ∀ p r, in_grid scenario_mask (2, 2) p →
      MaskMatmul.tile_output Z.mul Z.add 0%Z 0%Z mul out X Y p.1 p.2 2 r =
      Some (if active scenario_mask (2, 2) p
            then mul (data (tile scenario_mask (2, 2) p))
                   (foldl (λ acc k, acc + X (Z.of_nat p.1, Z.of_nat k) *
                                          Y (Z.of_nat k, Z.of_nat p.2))%Z 0%Z (seq 0 2))
            else 0%Z).
Proof.
  intros mul X Y.
  apply (masked_matmul_tile Z.mul Z.add 0%Z 0%Z mul scenario_mask (2, 2) X Y 2).
  - apply (bool_decide_eq_true_1 _). vm_compute. reflexivity.
  - reflexivity.
  - apply (bool_decide_eq_true_1 _). vm_compute. reflexivity.
  - apply (bool_decide_eq_true_1 _). vm_compute. reflexivity.
  - apply (bool_decide_eq_true_1 _). vm_compute. reflexivity.
  - lia.
Defined.

(** * The sparse-times-dense kernel *)

Section dsd_kernel.
Context {XBlk YBlk Acc Out : Type}.
Context (dot : XBlk → YBlk → Acc) (add : Acc → Acc → Acc) (acc_zeros : Acc).
Context (astype : Acc → Out).
Context (num_blocks : nat) (oob : Z) (stale : nat → Out).
Context (X_blocks : nat → XBlk) (Y : Z * nat → YBlk) (idxs_i idxs_k : list Z) (j : nat).

Local Abbreviation step :=
  (Dsd.column_step dot add acc_zeros astype num_blocks oob stale X_blocks Y idxs_i idxs_k j).

(** The sum of the products of the blocks of row block [row] among the
    first [m] blocks, added one after the other to the zero accumulator. *)
Local Abbreviation row_sum row m :=
  (foldl (λ acc blk, add acc (dot (X_blocks blk) (Y (Dsd.read idxs_k oob blk, j))))
         acc_zeros (filter (λ blk, idxs_i !! blk = Some row) (seq 0 m))).

Lemma filter_seq_S (P : nat → Prop) `{∀ n, Decision (P n)} m :
  filter P (seq 0 (S m)) = filter P (seq 0 m) ++ (if decide (P m) then [m] else []).
Proof. by rewrite seq_S, filter_app. Qed.

Lemma read_lookup n x : idxs_i !! n = Some x → Dsd.read idxs_i oob n = x.
Proof. unfold Dsd.read. by intros ->. Qed.

(** The kernel at a step inside the grid, in terms of the neighbours of the
    block in the row indices. *)
Lemma kernel_step blk cur x y r :
  length idxs_i = num_blocks → idxs_i !! blk = Some cur →
  Dsd.dsd_kernel dot add acc_zeros astype num_blocks oob idxs_i blk x y r =
  let accum :=
    add (if decide (blk = 0 ∨ idxs_i !! (blk - 1) ≠ Some cur)
         then acc_zeros else Dsd.accum_scratch r) (dot x y) in
  Dsd.mkRefs (if decide (S blk = num_blocks ∨ idxs_i !! S blk ≠ Some cur)
              then astype accum else Dsd.o_ref r) accum.
Proof.
  intros Hlen Hcur. pose proof (lookup_lt_Some _ _ _ Hcur) as Hblk.
  unfold Dsd.dsd_kernel. rewrite (read_lookup blk cur Hcur). simpl.
  assert ((bool_decide (blk = 0) ||
           bool_decide (cur ≠ Dsd.read idxs_i oob (Z.to_nat (Z.max (Z.of_nat blk - 1) 0)))) =
          bool_decide (blk = 0 ∨ idxs_i !! (blk - 1) ≠ Some cur)) as ->.
  { destruct (decide (blk = 0)) as [->|Hne].
    - by rewrite (bool_decide_eq_true_2 (0 = 0)) by done.
    - rewrite (bool_decide_eq_false_2 (blk = 0)) by done. simpl.
      replace (Z.to_nat (Z.max (Z.of_nat blk - 1) 0)) with (blk - 1) by lia.
      destruct (lookup_lt_is_Some_2 idxs_i (blk - 1)) as [prev Hprev]; [lia|].
      rewrite (read_lookup _ prev Hprev), Hprev.
      apply bool_decide_ext. split; [intros ?; right; congruence|].
      intros [?|?]; congruence. }
  assert ((bool_decide (Z.of_nat blk = Z.of_nat num_blocks - 1)%Z ||
           bool_decide (cur ≠ Dsd.read idxs_i oob
              (Z.to_nat (Z.min (Z.of_nat blk + 1) (Z.of_nat num_blocks))))) =
          bool_decide (S blk = num_blocks ∨ idxs_i !! S blk ≠ Some cur)) as ->.
  { destruct (decide (S blk = num_blocks)) as [Heq|Hne].
    - rewrite (bool_decide_eq_true_2 (_ = _)%Z) by lia. simpl.
      symmetry. apply bool_decide_eq_true_2. by left.
    - rewrite (bool_decide_eq_false_2 (_ = _)%Z) by lia. simpl.
      replace (Z.to_nat (Z.min (Z.of_nat blk + 1) (Z.of_nat num_blocks))) with (S blk) by lia.
      destruct (lookup_lt_is_Some_2 idxs_i (S blk)) as [next Hnext]; [lia|].
      rewrite (read_lookup _ next Hnext), Hnext.
      apply bool_decide_ext. split; [intros ?; right; congruence|].
      intros [?|?]; congruence. }
  rewrite !bool_decide_decide. by repeat destruct (decide _).
Qed.

Lemma grouped_fresh m cur new :
  Dsd.grouped idxs_i → idxs_i !! m = Some cur → idxs_i !! S m = Some new → new ≠ cur →
  filter (λ blk, idxs_i !! blk = Some new) (seq 0 (S m)) = [].
Proof.
  intros Hg Hcur Hnew Hne. apply filter_none, Forall_forall.
  intros a Ha%elem_of_seq Hx.
  destruct (decide (a = m)) as [->|]; [congruence|].
  assert (idxs_i !! m = Some new) by (apply (Hg a m (S m) new); (lia || done)).
  congruence.
Qed.

Lemma grouped_not_seen m cur new :
  Dsd.grouped idxs_i → idxs_i !! m = Some cur → idxs_i !! S m = Some new → new ≠ cur →
  new ∉ take (S m) idxs_i.
Proof.
  intros Hg Hcur Hnew Hne (a & Ha)%list_elem_of_lookup.
  apply lookup_take_Some in Ha as [Ha Hlt].
  destruct (decide (a = m)) as [->|]; [congruence|].
  assert (idxs_i !! m = Some new) by (apply (Hg a m (S m) new); (lia || done)).
  congruence.
Qed.

Lemma row_sum_S row m :
  row_sum row (S m) =
  if decide (idxs_i !! m = Some row)
  then add (row_sum row m) (dot (X_blocks m) (Y (Dsd.read idxs_k oob m, j)))
  else row_sum row m.
Proof.
  rewrite filter_seq_S. case_decide; [by rewrite foldl_app|by rewrite app_nil_r].
Qed.

Lemma foldl_seq_S {A} (f : A → nat → A) a n :
  foldl f a (seq 0 (S n)) = f (foldl f a (seq 0 n)) n.
Proof. by rewrite seq_S, foldl_app. Qed.

(** The state of the pipeline after the first [S m] steps: the accumulator
    holds the sum of the run of the current row block; the output buffer
    holds it too when the run ends here; the rows of the runs that ended
    before are stored. *)
Lemma column_steps m cur r :
  length idxs_i = num_blocks → Dsd.grouped idxs_i → S m ≤ num_blocks →
  idxs_i !! m = Some cur →
  let s := foldl step (Dsd.mkPipeline r ∅) (seq 0 (S m)) in
  Dsd.accum_scratch (Dsd.vmem s) = row_sum cur (S m) ∧
  ((S m = num_blocks ∨ idxs_i !! S m ≠ Some cur) →
   Dsd.o_ref (Dsd.vmem s) = astype (row_sum cur (S m))) ∧
  ∀ row, Dsd.hbm s !! row =
         if decide (row ∈ take (S m) idxs_i ∧ row ≠ cur)
         then Some (astype (row_sum row (S m))) else None.
Proof.
  intros Hlen Hg. revert cur. induction m as [|m IH]; intros cur Hm Hcur.
  - cbv zeta. change (foldl step (Dsd.mkPipeline r ∅) (seq 0 1)) with (step (Dsd.mkPipeline r ∅) 0).
    unfold Dsd.column_step. rewrite decide_False by lia.
    unfold Dsd.x_map, Dsd.y_map. cbn [fst snd Dsd.vmem Dsd.hbm].
    rewrite (kernel_step 0 cur) by done. cbn [Dsd.accum_scratch Dsd.o_ref].
    rewrite decide_True by by left.
    rewrite row_sum_S, decide_True by done.
    split; [done|]. split.
    + intros Hend. by rewrite decide_True.
    + intros row. rewrite lookup_empty, decide_False; [done|].
      intros [Hrow Hne]. rewrite (take_S_r _ _ cur), take_0 in Hrow by done.
      apply list_elem_of_singleton in Hrow. congruence.
  - destruct (lookup_lt_is_Some_2 idxs_i m) as [prev Hprev]; [lia|].
    destruct (IH prev) as (Hacc & Ho & Hhbm); [lia|done|].
    cbv zeta. rewrite (foldl_seq_S step).
    set (s := foldl step (Dsd.mkPipeline r ∅) (seq 0 (S m))) in *.
    unfold Dsd.column_step, Dsd.o_map, Dsd.x_map, Dsd.y_map. cbn [fst snd].
    replace (S m - 1) with m by lia.
    rewrite (read_lookup (S m) cur Hcur), (read_lookup m prev Hprev).
    assert (∀ row, row ≠ cur → row_sum row (S (S m)) = row_sum row (S m)) as Hsame.
    { intros row Hne. rewrite (row_sum_S row (S m)), decide_False; [done|congruence]. }
    destruct (decide (cur = prev)) as [<-|Hne].
    + rewrite decide_False by (intros [_ ?]; done).
      rewrite (kernel_step (S m) cur) by done. cbn [Dsd.vmem Dsd.hbm Dsd.accum_scratch Dsd.o_ref].
      rewrite (decide_False (P := S m = 0 ∨ _)).
      2:{ replace (S m - 1) with m by lia. intros [?|?]; done. }
      rewrite (row_sum_S cur (S m)), decide_True, <- Hacc by done.
      split; [done|]. split.
      * intros Hend. by rewrite decide_True.
      * intros row. rewrite Hhbm, (take_S_r _ (S m) cur) by done.
        destruct (decide (row = cur)) as [->|Hrow].
        { rewrite !decide_False; [done|intros [_ ?]; done..]. }
        rewrite Hsame by done. apply decide_ext.
        rewrite elem_of_app, list_elem_of_singleton. tauto.
    + rewrite decide_True by done.
      rewrite (kernel_step (S m) cur) by done. cbn [Dsd.vmem Dsd.hbm Dsd.accum_scratch Dsd.o_ref].
      rewrite (decide_True (P := S m = 0 ∨ _)).
      2:{ right. replace (S m - 1) with m by lia. congruence. }
      rewrite (row_sum_S cur (S m)), decide_True by done.
      unfold row_sum at 1 3. rewrite (grouped_fresh m prev cur) by done. cbn [foldl].
      split; [done|]. split.
      * intros Hend. by rewrite decide_True.
      * intros row. rewrite (take_S_r _ (S m) cur) by done.
        pose proof (grouped_not_seen m prev cur Hg Hprev Hcur Hne) as Hfresh.
        destruct (decide (row = prev)) as [->|Hrow].
        { rewrite lookup_insert_eq, Ho by (right; congruence).
          rewrite decide_True, Hsame; [done..|].
          split; [|done]. apply elem_of_app. left.
          rewrite (take_S_r _ m prev) by done. apply elem_of_app. right. by left. }
        rewrite lookup_insert_ne, Hhbm by done.
        destruct (decide (row = cur)) as [->|Hrow'].
        { rewrite !decide_False; [done|intros [_ ?]; done|intros [? _]; done]. }
        rewrite Hsame by done. apply decide_ext.
        rewrite elem_of_app, list_elem_of_singleton. tauto.
Qed.
(** What the steps of one column leave in HBM. *)
Lemma column_rows r row :
  length idxs_i = num_blocks → Dsd.grouped idxs_i →
  Dsd.column dot add acc_zeros astype num_blocks oob stale X_blocks Y idxs_i idxs_k j r
    !! row =
  if decide (row ∈ idxs_i) then Some (astype (row_sum row num_blocks)) else None.
Proof.
  intros Hlen Hg. unfold Dsd.column. destruct num_blocks as [|m] eqn:Hn.
  { apply length_zero_iff_nil in Hlen. rewrite Hlen. simpl. apply lookup_empty. }
  rewrite decide_False by lia. rewrite <- Hn in *.
  destruct (lookup_lt_is_Some_2 idxs_i m) as [cur Hcur]; [lia|].
  destruct (column_steps m cur r Hlen Hg) as (_ & Ho & Hhbm); [lia|done|].
  rewrite Hn in *. unfold Dsd.o_map. cbn [fst]. replace (S m - 1) with m by lia.
  rewrite (read_lookup m cur Hcur).
  destruct (decide (row = cur)) as [->|Hne].
  - rewrite lookup_insert_eq, Ho by by left.
    rewrite decide_True; [done|]. by eapply list_elem_of_lookup_2.
  - rewrite lookup_insert_ne, Hhbm by done.
    rewrite take_ge by lia. apply decide_ext. tauto.
Qed.
End dsd_kernel.

Lemma foldl_ext_elem {A B} (f g : A → B → A) a l :
  (∀ a x, x ∈ l → f a x = g a x) → foldl f a l = foldl g a l.
Proof.
  revert a. induction l as [|x l IH]; intros a Hfg; [done|].
  simpl. rewrite Hfg by by left. apply IH. intros a' y Hy. apply Hfg. by right.
Qed.

(** Row indices in non-decreasing order are grouped. *)
Lemma sorted_grouped idxs : StronglySorted Z.le idxs → Dsd.grouped idxs.
Proof.
  intros Hs a b c x Hab Hbc Ha Hc.
  destruct (lookup_lt_is_Some_2 idxs b) as [y Hb].
  { apply lookup_lt_Some in Hc. lia. }
  rewrite Hb. f_equal.
  assert (∀ i k u v, i < k → idxs !! i = Some u → idxs !! k = Some v → (u ≤ v)%Z) as Hle.
  { clear -Hs. induction Hs as [|z l _ IH Hall]; intros i k u v Hik Hu Hv; [done|].
    destruct k as [|k]; [lia|]. destruct i as [|i]; simpl in *.
    - injection Hu as <-. rewrite Forall_forall in Hall. apply Hall.
      by eapply list_elem_of_lookup_2.
    - apply (IH i k); (done || lia). }
  pose proof (Hle a b x y Hab Ha Hb). pose proof (Hle b c y x Hbc Hb Hc). lia.
Qed.

(** X11.  For row indices that are grouped, the steps of one output column store,
    for every row block that has non-zero blocks, the sum of the products of
    those blocks with the blocks of the dense operand that [idxs_k] names,
    added in the order of the steps; the other row blocks are not written.
    The result does not depend on the value of the read of
    [idxs_i_ref[num_blocks]], which is out of range, nor on what the buffers
    held. *)
Theorem dsd_column_sums {XBlk YBlk Acc Out : Type} (dot : XBlk → YBlk → Acc)
    (add : Acc → Acc → Acc) (acc_zeros : Acc) (astype : Acc → Out)
    (num_blocks : nat) (oob : Z) (stale : nat → Out) (X_blocks : nat → XBlk)
    (Y : Z * nat → YBlk) (idxs_i : list Z) (k_of : nat → Z) (j : nat) r row :
  length idxs_i = num_blocks → Dsd.grouped idxs_i →
  Dsd.column dot add acc_zeros astype num_blocks oob stale X_blocks Y idxs_i
    (k_of <$> seq 0 num_blocks) j r !! row =
  if decide (row ∈ idxs_i)
  then Some (astype (foldl (λ acc blk, add acc (dot (X_blocks blk) (Y (k_of blk, j))))
                           acc_zeros
                           (filter (λ blk, idxs_i !! blk = Some row) (seq 0 num_blocks))))
  else None.
Proof.
  intros Hlen Hg. rewrite column_rows by done. case_decide; [|done]. do 2 f_equal.
  apply foldl_ext_elem. intros acc blk [_ Hblk%elem_of_seq]%list_elem_of_filter.
  unfold Dsd.read. rewrite list_lookup_fmap, lookup_seq_lt by lia. done.
Qed.

Lemma dsd_column_sums_witness :
  Dsd.column Z.mul Z.add 0%Z (λ z, z) 6 7%Z (λ _, 9%Z) (λ blk, Z.of_nat blk + 1)%Z
    (λ kj, kj.1 + 1)%Z [0; 0; 1; 2; 3; 3]%Z ((λ blk, Z.of_nat blk) <$> seq 0 6) 0
    (Dsd.mkRefs 5%Z 6%Z) !! 3%Z =
  if decide (3%Z ∈ [0; 0; 1; 2; 3; 3]%Z)
  then Some (foldl (λ acc blk, acc + (Z.of_nat blk + 1) * (Z.of_nat blk + 1))%Z 0%Z
               (filter (λ blk, [0; 0; 1; 2; 3; 3]%Z !! blk = Some 3%Z) (seq 0 6)))
  else None.
Proof.
  apply (dsd_column_sums Z.mul Z.add 0%Z (λ z, z) 6 7%Z (λ _, 9%Z)
           (λ blk, Z.of_nat blk + 1)%Z (λ kj, kj.1 + 1)%Z [0; 0; 1; 2; 3; 3]%Z
           (λ blk, Z.of_nat blk) 0 (Dsd.mkRefs 5%Z 6%Z) 3%Z).
  - reflexivity.
  - apply sorted_grouped. repeat constructor; lia.
Defined.

(** ** Sampling a block-sparse matrix *)

Lemma elem_of_true_from j row n :
  n ∈ Generate.true_from j row ↔ ∃ c, n = j + c ∧ row !! c = Some true.
Proof.
  revert j. induction row as [|b row IH]; intros j; simpl.
  - split; [by intros ?%elem_of_nil|]. by intros (c & _ & ?).
  - rewrite elem_of_app, IH. split.
    + intros [Hn|(c & -> & Hc)].
      * destruct b; [|by apply elem_of_nil in Hn].
        apply list_elem_of_singleton in Hn as ->. exists 0. split; [lia|done].
      * exists (S c). split; [lia|done].
    + intros ([|c] & -> & Hc); simpl in Hc.
      * injection Hc as ->. left. rewrite Nat.add_0_r. by apply list_elem_of_singleton.
      * right. exists c. split; [lia|done].
Qed.

Lemma true_from_sorted j row : StronglySorted lt (Generate.true_from j row).
Proof.
  revert j. induction row as [|b row IH]; intros j; simpl; [constructor|].
  destruct b; simpl; [|apply IH]. constructor; [apply IH|].
  apply Forall_forall. intros n (c & -> & _)%elem_of_true_from. lia.
Qed.

Lemma length_true_from j row :
  length (Generate.true_from j row) = sum_list ((λ b : bool, if b then 1 else 0) <$> row).
Proof.
  revert j. induction row as [|b row IH]; intros j; simpl; [done|].
  rewrite length_app, IH. by destruct b.
Qed.

Lemma elem_of_coords_from i block_mask p :
  p ∈ Generate.coords_from i block_mask ↔
  ∃ r row, p.1 = i + r ∧ block_mask !! r = Some row ∧ row !! p.2 = Some true.
Proof.
  revert i. induction block_mask as [|row0 rows IH]; intros i; simpl.
  - split; [by intros ?%elem_of_nil|]. by intros (r & row & _ & ? & _).
  - rewrite elem_of_app, IH, list_elem_of_fmap. split.
    + intros [(c & -> & (c' & -> & Hc)%elem_of_true_from)|(r & row & Hp & Hr & Hc)].
      * exists 0, row0. simpl. split; [lia|done].
      * exists (S r), row. split; [lia|done].
    + intros ([|r] & row & Hp & Hr & Hc); simpl in Hr.
      * injection Hr as ->. left. exists p.2. split.
        -- destruct p as [p1 p2]; simpl in *. f_equal. lia.
        -- apply elem_of_true_from. by exists p.2.
      * right. exists r, row. split; [lia|done].
Qed.

Lemma coords_from_sorted i block_mask :
  StronglySorted before (Generate.coords_from i block_mask).
Proof.
  revert i. induction block_mask as [|row rows IH]; intros i; simpl; [constructor|].
  apply StronglySorted_app_2; [| |apply IH].
  - intros p q (c & -> & _)%list_elem_of_fmap (r & _ & Hq & _)%elem_of_coords_from.
    left. simpl. lia.
  - apply (StronglySorted_fmap _ lt); [|apply true_from_sorted].
    intros x y Hxy. right. simpl. done.
Qed.

Lemma length_coords_from i block_mask :
  length (Generate.coords_from i block_mask) = Generate.jnp_sum block_mask.
Proof.
  revert i. induction block_mask as [|row rows IH]; intros i; [done|].
  unfold Generate.jnp_sum. simpl.
  rewrite length_app, length_fmap, length_true_from, IH. done.
Qed.

(** The positions of a strictly sorted list name different elements. *)
Lemma sorted_lookup {A} (R : relation A) l a b x y :
  StronglySorted R l → a < b → l !! a = Some x → l !! b = Some y → R x y.
Proof.
  intros Hs. revert a b. induction Hs as [|z l _ IH Hall]; intros a b Hab Hx Hy; [done|].
  destruct b as [|b]; [lia|]. destruct a as [|a]; simpl in *.
  - injection Hx as <-. rewrite Forall_forall in Hall. apply Hall.
    by eapply list_elem_of_lookup_2.
  - apply (IH a b); (done || lia).
Qed.

Lemma coords_lookup_inj block_mask a b p :
  Generate.coords_from 0 block_mask !! a = Some p →
  Generate.coords_from 0 block_mask !! b = Some p → a = b.
Proof.
  intros Ha Hb. pose proof (coords_from_sorted 0 block_mask) as Hs.
  destruct (lt_eq_lt_dec a b) as [[Hlt| ->]|Hlt]; [|done|].
  - destruct (before_irrefl p). by eapply (sorted_lookup before _ a b).
  - destruct (before_irrefl p). by eapply (sorted_lookup before _ b a).
Qed.

(** X12.  The two index arrays that [generate_block_sparse_mat] returns list
    the true cells of the block mask, each once, in ascending row-major
    order: they have [jnp.sum(block_mask)] elements, the pairs they form are
    strictly increasing (by row, then by column), and a pair (i, j) is
    listed exactly when the block mask is true at (i, j). *)
Theorem generate_indices_row_major {T} (zero : T) M N blk_M blk_N block_mask block_data :
  let indices_i := (Generate.generate_block_sparse_mat zero M N blk_M blk_N
                      block_mask block_data).1.2 in
  let indices_j := (Generate.generate_block_sparse_mat zero M N blk_M blk_N
                      block_mask block_data).2 in
  length indices_i = Generate.jnp_sum block_mask ∧
  length indices_j = Generate.jnp_sum block_mask ∧
  StronglySorted before (zip indices_i indices_j) ∧
  ∀ i j, (i, j) ∈ zip indices_i indices_j ↔ block_mask !! i ≫= (.!! j) = Some true.
Proof.
  simpl. rewrite !length_fmap, length_coords_from, zip_fst_snd.
  split_and!; [done|done|apply coords_from_sorted|].
  intros i j. rewrite elem_of_coords_from. simpl. split.
  - intros (r & row & -> & Hr & Hc). simpl. by rewrite Hr.
  - intros Hij. destruct (block_mask !! i) as [row|] eqn:Hr; [|done].
    by exists i, row.
Qed.

(** X13.  The row indices that [generate_block_sparse_mat] returns are grouped
    by row, as the sparse-dense kernel needs: between two positions that
    hold the same row index every position holds that index. *)
Theorem generate_indices_grouped {T} (zero : T) M N blk_M blk_N block_mask block_data :
  Dsd.grouped (Z.of_nat <$> (Generate.generate_block_sparse_mat zero M N blk_M blk_N
                               block_mask block_data).1.2).
Proof.
  apply sorted_grouped. simpl. rewrite <- list_fmap_compose.
  apply (StronglySorted_fmap _ before); [|apply coords_from_sorted].
  intros p q Hpq. unfold before in Hpq. simpl. lia.
Qed.

(** *** The dense matrix *)

Lemma lookup_py_slice {A} start stop (l : list A) n :
  py_slice start stop l !! n = if decide (n < stop - start) then l !! (start + n) else None.
Proof. unfold py_slice. by rewrite lookup_take, lookup_drop. Qed.

Lemma lookup_splice {T} start stop (v l : list T) n :
  start ≤ stop → stop ≤ length l → length v = stop - start →
  Generate.splice start stop v l !! n =
    if decide (start ≤ n < stop) then v !! (n - start) else l !! n.
Proof.
  intros Hss Hl Hv. unfold Generate.splice.
  assert (length (take start l) = start) as Htake by (rewrite length_take; lia).
  destruct (decide (n < start)) as [Hn|Hn].
  - rewrite lookup_app_l by lia. rewrite lookup_take_lt by done.
    case_decide; [lia|done].
  - rewrite lookup_app_r by lia. rewrite Htake.
    destruct (decide (n < stop)) as [Hn'|Hn'].
    + rewrite lookup_app_l by lia. case_decide; [done|lia].
    + rewrite lookup_app_r by lia. rewrite lookup_drop. case_decide; [lia|].
      f_equal. lia.
Qed.

Lemma length_splice {T} start stop (v l : list T) :
  start ≤ stop → stop ≤ length l → length v = stop - start →
  length (Generate.splice start stop v l) = length l.
Proof.
  intros Hss Hl Hv. unfold Generate.splice.
  rewrite !length_app, length_take, length_drop. lia.
Qed.

Lemma shaped_lookup {T} m n (mat : list (list T)) r :
  Generate.shaped m n mat → r < m → ∃ row, mat !! r = Some row ∧ length row = n.
Proof.
  intros [Hm Hn] Hr. destruct (lookup_lt_is_Some_2 mat r) as [row Hrow]; [lia|].
  exists row. split; [done|]. rewrite Forall_forall in Hn. apply Hn.
  by eapply list_elem_of_lookup_2.
Qed.

Lemma shaped_ext {T} m n (A B : list (list T)) :
  Generate.shaped m n A → Generate.shaped m n B →
  (∀ a b, a < m → b < n → Generate.get A a b = Generate.get B a b) → A = B.
Proof.
  intros HA HB Hget. apply (list_eq_same_length _ _ m); [apply HB|apply HA|].
  intros a x y Ha Hx Hy.
  destruct (shaped_lookup m n A a HA Ha) as (x' & Hx' & Hlx).
  destruct (shaped_lookup m n B a HB Ha) as (y' & Hy' & Hly).
  assert (x' = x) as -> by congruence. assert (y' = y) as -> by congruence.
  apply (list_eq_same_length _ _ n); [done|done|].
  intros b u w Hb Hu Hw. specialize (Hget a b Ha Hb). unfold Generate.get in Hget.
  rewrite Hx, Hy in Hget. simpl in Hget. congruence.
Qed.

Lemma zipped_rows {T} m n (mat : list (list T)) r0 r1 c0 c1 v :
  Generate.shaped m n mat → r0 ≤ r1 → r1 ≤ m → Generate.shaped (r1 - r0) (c1 - c0) v →
  length (zip_with (λ row vrow, Generate.splice c0 c1 vrow row) (py_slice r0 r1 mat) v)
  = r1 - r0.
Proof.
  intros [Hm _] Hr Hr1 [Hv _]. rewrite length_zip_with. unfold py_slice.
  rewrite length_take, length_drop. lia.
Qed.

(** The element (r, c) after [mat.at[r0:r1, c0:c1].set(v)]. *)
Lemma get_at_slice_set {T} m n (mat : list (list T)) r0 r1 c0 c1 v r c :
  Generate.shaped m n mat → r0 ≤ r1 → r1 ≤ m → c0 ≤ c1 → c1 ≤ n →
  Generate.shaped (r1 - r0) (c1 - c0) v →
  Generate.get (Generate.at_slice_set mat r0 r1 c0 c1 v) r c =
    if decide ((r0 ≤ r < r1) ∧ (c0 ≤ c < c1))
    then Generate.get v (r - r0) (c - c0) else Generate.get mat r c.
Proof.
  intros Hmat Hr Hr1 Hc Hc1 Hv. unfold Generate.get, Generate.at_slice_set.
  rewrite lookup_splice; [|done|destruct Hmat; lia|by eapply zipped_rows].
  destruct (decide (r0 ≤ r < r1)) as [Hin|Hout].
  - destruct (shaped_lookup m n mat r Hmat) as (row & Hrow & Hlrow); [lia|].
    destruct (shaped_lookup _ _ v (r - r0) Hv) as (vrow & Hvrow & Hlvrow); [lia|].
    rewrite lookup_zip_with, lookup_py_slice, Hvrow.
    rewrite decide_True by lia. replace (r0 + (r - r0)) with r by lia.
    rewrite Hrow. simpl. rewrite lookup_splice by lia.
    destruct (decide (c0 ≤ c < c1)).
    + by rewrite decide_True by done.
    + by rewrite decide_False by tauto.
  - by rewrite decide_False by tauto.
Qed.

Lemma shaped_at_slice_set {T} m n (mat : list (list T)) r0 r1 c0 c1 v :
  Generate.shaped m n mat → r0 ≤ r1 → r1 ≤ m → c0 ≤ c1 → c1 ≤ n →
  Generate.shaped (r1 - r0) (c1 - c0) v →
  Generate.shaped m n (Generate.at_slice_set mat r0 r1 c0 c1 v).
Proof.
  intros Hmat Hr Hr1 Hc Hc1 Hv. pose proof Hmat as [Hm Hn]. split.
  - unfold Generate.at_slice_set. rewrite length_splice; [done|done|lia|].
    by eapply zipped_rows.
  - unfold Generate.at_slice_set, Generate.splice.
    rewrite !Forall_app. split_and!.
    + by apply Forall_take.
    + apply Forall_forall. intros x (i & Hx)%list_elem_of_lookup.
      apply lookup_zip_with_Some in Hx as (row & vrow & -> & Hrow & Hvrow).
      rewrite lookup_py_slice in Hrow. case_decide; [|done].
      rewrite Forall_forall in Hn. destruct Hv as [_ Hv]. rewrite Forall_forall in Hv.
      fold (Generate.splice c0 c1 vrow row). rewrite length_splice; [|done| |].
      * apply Hn. by eapply list_elem_of_lookup_2.
      * rewrite (Hn row); [done|]. by eapply list_elem_of_lookup_2.
      * apply Hv. by eapply list_elem_of_lookup_2.
    + by apply Forall_drop.
Qed.

Lemma block_range r b i : 0 < b → (i * b ≤ r < (i + 1) * b) ↔ r / b = i.
Proof.
  intros Hb. pose proof (Nat.div_mod_eq r b) as Hdm.
  pose proof (Nat.mod_upper_bound r b). split; [|intros <-; nia].
  intros Hr. assert (¬ r / b < i) by nia. assert (¬ i < r / b) by nia. lia.
Qed.

Lemma block_offset r b : 0 < b → r - r / b * b = r mod b.
Proof. intros Hb. pose proof (Nat.div_mod_eq r b). nia. Qed.

Lemma block_fits i b M : 0 < b → i < M / b → (i + 1) * b ≤ M.
Proof. intros Hb Hi. pose proof (Nat.Div0.mul_div_le M b). nia. Qed.

(** A listed coordinate lies inside the grid of the block mask. *)
Lemma coords_in_grid {T} M N blk_M blk_N block_mask (block_data : list (list (list T))) p :
  Generate.wf_samples M N blk_M blk_N block_mask block_data →
  p ∈ Generate.coords_from 0 block_mask → p.1 < M / blk_M ∧ p.2 < N / blk_N.
Proof.
  intros (_ & _ & Hrows & Hcols & _) (r & row & Hp & Hr & Hc)%elem_of_coords_from.
  simpl in Hp. subst r. split.
  - rewrite <- Hrows. by eapply lookup_lt_Some.
  - rewrite Forall_forall in Hcols. rewrite <- (Hcols row).
    + by eapply lookup_lt_Some.
    + by eapply list_elem_of_lookup_2.
Qed.

(** The dense matrix after the first [m] blocks are placed. *)
Lemma generate_steps {T} (zero : T) M N blk_M blk_N block_mask block_data m :
  Generate.wf_samples M N blk_M blk_N block_mask block_data →
  m ≤ Generate.jnp_sum block_mask →
  let dense := foldl (Generate.place_block blk_M blk_N (Generate.jnp_where block_mask)
                        block_data)
                 (replicate M (replicate N zero)) (seq 0 m) in
  Generate.shaped M N dense ∧
  ∀ r c, r < M → c < N →
    (∀ k d, k < m →
       Generate.coords_from 0 block_mask !! k = Some (r / blk_M, c / blk_N) →
       block_data !! k = Some d →
       Generate.get dense r c = Generate.get d (r mod blk_M) (c mod blk_N)) ∧
    ((∀ k, k < m →
        Generate.coords_from 0 block_mask !! k ≠ Some (r / blk_M, c / blk_N)) →
     Generate.get dense r c = Some zero).
Proof.
  intros Hwf. induction m as [|m IH]; intros Hm; cbv zeta.
  - simpl. split.
    + split; [by rewrite length_replicate|].
      apply Forall_forall. intros row [-> _]%elem_of_replicate.
      by rewrite length_replicate.
    + intros r c Hr Hc. split; [lia|]. intros _. unfold Generate.get.
      rewrite lookup_replicate_2 by done. simpl. by rewrite lookup_replicate_2.
  - rewrite foldl_seq_S. destruct IH as [Hshape IH]; [lia|].
    set (dense := foldl _ _ (seq 0 m)) in *.
    pose proof Hwf as (HbM & HbN & _ & _ & Hdata & Hblocks).
    destruct (lookup_lt_is_Some_2 (Generate.coords_from 0 block_mask) m) as [[i j] Hij].
    { rewrite length_coords_from. lia. }
    destruct (lookup_lt_is_Some_2 block_data m) as [d Hd]; [lia|].
    destruct (coords_in_grid M N blk_M blk_N block_mask block_data (i, j) Hwf) as [Hi Hj].
    { by eapply list_elem_of_lookup_2. }
    simpl in Hi, Hj.
    pose proof (block_fits i blk_M M HbM Hi). pose proof (block_fits j blk_N N HbN Hj).
    assert (Generate.shaped ((i + 1) * blk_M - i * blk_M) ((j + 1) * blk_N - j * blk_N) d)
      as Hdshape.
    { rewrite Forall_forall in Hblocks. destruct (Hblocks d) as [Hd1 Hd2].
      { by eapply list_elem_of_lookup_2. }
      replace ((i + 1) * blk_M - i * blk_M) with blk_M by lia.
      replace ((j + 1) * blk_N - j * blk_N) with blk_N by lia. done. }
    assert (Generate.place_block blk_M blk_N (Generate.jnp_where block_mask) block_data
              dense m
            = Generate.at_slice_set dense (i * blk_M) ((i + 1) * blk_M)
                (j * blk_N) ((j + 1) * blk_N) d) as ->.
    { unfold Generate.place_block, Generate.jnp_where. simpl.
      by rewrite !list_lookup_fmap, Hij, Hd. }
    split; [apply shaped_at_slice_set; (done || lia)|].
    intros r c Hr Hc. rewrite (get_at_slice_set M N) by (done || lia).
    specialize (IH r c Hr Hc) as [IHdata IHzero].
    destruct (decide (r / blk_M = i ∧ c / blk_N = j)) as [[Hri Hcj]|Hne].
    + rewrite decide_True by (split; apply block_range; done). split.
      * intros k d' Hk Hk' Hd'. rewrite Hri, Hcj in Hk'.
        assert (k = m) as -> by (by eapply coords_lookup_inj).
        assert (d' = d) as -> by congruence.
        rewrite <- Hri, <- Hcj, !block_offset by done. done.
      * intros Hnone. destruct (Hnone m); [lia|]. by rewrite Hri, Hcj.
    + rewrite decide_False by (rewrite !block_range by done; done). split.
      * intros k d' Hk Hk' Hd'. apply (IHdata k); [|done|done].
        destruct (decide (k = m)) as [->|]; [|lia].
        rewrite Hij in Hk'. injection Hk' as -> ->. tauto.
      * intros Hnone. apply IHzero. intros k Hk. apply Hnone. lia.
Qed.

Lemma get_block {T} blk_M blk_N (mat : list (list T)) i j a b :
  Generate.get (Generate.block blk_M blk_N mat i j) a b =
    if decide (a < blk_M ∧ b < blk_N)
    then Generate.get mat (i * blk_M + a) (j * blk_N + b) else None.
Proof.
  unfold Generate.get, Generate.block.
  rewrite list_lookup_fmap, lookup_py_slice.
  replace ((i + 1) * blk_M - i * blk_M) with blk_M by lia.
  destruct (decide (a < blk_M)) as [Ha|Ha]; [|by rewrite decide_False by tauto].
  destruct (mat !! (i * blk_M + a)) as [row|]; simpl; [|by case_decide].
  rewrite lookup_py_slice. replace ((j + 1) * blk_N - j * blk_N) with blk_N by lia.
  destruct (decide (b < blk_N)); [by rewrite decide_True by done|].
  by rewrite decide_False by tauto.
Qed.

Lemma shaped_block {T} M N blk_M blk_N (mat : list (list T)) i j :
  Generate.shaped M N mat → (i + 1) * blk_M ≤ M → (j + 1) * blk_N ≤ N →
  Generate.shaped blk_M blk_N (Generate.block blk_M blk_N mat i j).
Proof.
  intros [Hm Hn] Hi Hj. unfold Generate.block, py_slice. split.
  - rewrite length_fmap, length_take, length_drop. lia.
  - apply Forall_fmap, Forall_take, Forall_drop.
    eapply Forall_impl; [exact Hn|]. intros row Hrow. simpl in *.
    rewrite length_take, length_drop. lia.
Qed.

(** X14.  The dense matrix that [generate_block_sparse_mat] returns is the
    block-sparse one written out.  For samples of the shapes the function
    draws, it is an M x N matrix; its block at the k-th listed coordinate
    (indices_i[k], indices_j[k]) is block_data[k]; and every element outside
    the listed blocks - in a block whose mask cell is false, or in the
    trailing rows and columns that no whole block covers - is zero. *)
Theorem generate_dense_mat {T} (zero : T) M N blk_M blk_N block_mask block_data :
  Generate.wf_samples M N blk_M blk_N block_mask block_data →
  let out := Generate.generate_block_sparse_mat zero M N blk_M blk_N block_mask block_data in
  let dense_mat := out.1.1.1 in
  let indices_i := out.1.2 in
  let indices_j := out.2 in
  Generate.shaped M N dense_mat ∧
  (∀ k i j, indices_i !! k = Some i → indices_j !! k = Some j →
     block_data !! k = Some (Generate.block blk_M blk_N dense_mat i j)) ∧
  (∀ r c, r < M → c < N →
     block_mask !! (r / blk_M) ≫= (.!! (c / blk_N)) ≠ Some true →
     Generate.get dense_mat r c = Some zero).
Proof.
  intros Hwf. cbv zeta. unfold Generate.generate_block_sparse_mat. cbv zeta. simpl.
  destruct (generate_steps zero M N blk_M blk_N block_mask block_data
              (Generate.jnp_sum block_mask) Hwf) as [Hshape Hget]; [done|].
  set (dense := foldl _ _ _) in *.
  pose proof Hwf as (HbM & HbN & _ & _ & Hdata & Hblocks).
  split_and!; [done| |].
  - intros k i j Hi Hj. rewrite list_lookup_fmap in Hi, Hj.
    destruct (Generate.coords_from 0 block_mask !! k) as [[i' j']|] eqn:Hk; [|done].
    simpl in Hi, Hj. injection Hi as ->. injection Hj as ->.
    assert (k < Generate.jnp_sum block_mask) as Hlt.
    { rewrite <- (length_coords_from 0). by eapply lookup_lt_Some. }
    destruct (lookup_lt_is_Some_2 block_data k) as [d Hd]; [lia|].
    rewrite Hd. f_equal.
    destruct (coords_in_grid M N blk_M blk_N block_mask block_data (i, j) Hwf) as [Hi Hj].
    { by eapply list_elem_of_lookup_2. }
    simpl in Hi, Hj.
    pose proof (block_fits i blk_M M HbM Hi). pose proof (block_fits j blk_N N HbN Hj).
    apply (shaped_ext blk_M blk_N).
    + rewrite Forall_forall in Hblocks. apply (Hblocks d).
      by eapply list_elem_of_lookup_2.
    + by eapply shaped_block.
    + intros a b Ha Hb. rewrite get_block, decide_True by done.
      destruct (Hget (i * blk_M + a) (j * blk_N + b)) as [Hin _]; [lia|lia|].
      assert ((i * blk_M + a) / blk_M = i) as Hdi by (apply block_range; lia).
      assert ((j * blk_N + b) / blk_N = j) as Hdj by (apply block_range; lia).
      rewrite (Hin k d Hlt); [| by rewrite Hdi, Hdj | done].
      rewrite <- !block_offset, Hdi, Hdj by done. f_equal; lia.
  - intros r c Hr Hc Hmask. destruct (Hget r c Hr Hc) as [_ Hzero]. apply Hzero.
    intros k _ Hk. apply Hmask.
    apply list_elem_of_lookup_2, elem_of_coords_from in Hk as (r' & row & Hp & Hr' & Hc').
    simpl in Hp, Hc'. subst r'. by rewrite Hr'.
Qed.

Lemma generate_dense_mat_witness :
  let out := Generate.generate_block_sparse_mat 0%Z 5 4 2 2
               [[true; false]; [false; true]]
               [[[1; 2]; [3; 4]]; [[5; 6]; [7; 8]]]%Z in
  Generate.shaped 5 4 out.1.1.1 ∧
  (∀ k i j, out.1.2 !! k = Some i → out.2 !! k = Some j →
     [[[1; 2]; [3; 4]]; [[5; 6]; [7; 8]]]%Z !! k
     = Some (Generate.block 2 2 out.1.1.1 i j)) ∧
  (∀ r c, r < 5 → c < 4 →
     [[true; false]; [false; true]] !! (r / 2) ≫= (.!! (c / 2)) ≠ Some true →
     Generate.get out.1.1.1 r c = Some 0%Z).
Proof.
  apply (generate_dense_mat 0%Z 5 4 2 2 [[true; false]; [false; true]]
           [[[1; 2]; [3; 4]]; [[5; 6]; [7; 8]]]%Z).
  unfold Generate.wf_samples.
  split_and!; [lia|lia|reflexivity|repeat constructor|reflexivity|repeat constructor].
Defined.

(** * The block-aligned dynamic slice *)

Lemma get_in_block {T} (oob : nat → nat → T) sizes idx x a b :
  a < sizes.1 → b < sizes.2 →
  Generate.get (BlockSlice.in_block oob sizes idx x) a b =
    Some (default (oob (idx.1 * sizes.1 + a) (idx.2 * sizes.2 + b))
            (Generate.get x (idx.1 * sizes.1 + a) (idx.2 * sizes.2 + b))).
Proof.
  intros Ha Hb. unfold Generate.get at 1, BlockSlice.in_block.
  rewrite list_lookup_fmap, lookup_seq_lt by done. simpl.
  by rewrite list_lookup_fmap, lookup_seq_lt by done.
Qed.

Lemma shaped_in_block {T} (oob : nat → nat → T) sizes idx x :
  Generate.shaped sizes.1 sizes.2 (BlockSlice.in_block oob sizes idx x).
Proof.
  unfold BlockSlice.in_block. split.
  - by rewrite length_fmap, length_seq.
  - apply Forall_fmap, Forall_forall. intros a _. simpl.
    by rewrite length_fmap, length_seq.
Qed.

Lemma shaped_num_cols {T} m n (x : list (list T)) :
  Generate.shaped m n x → 0 < m → BlockSlice.num_cols x = n.
Proof.
  intros [Hm Hn] Hpos. destruct x as [|row x]; simpl in *; [lia|].
  apply Forall_cons in Hn as [Hrow _]. exact Hrow.
Qed.

(** The value of [block_dynamic_slice] is the slice that starts at the
    block boundary at or below [starts]. *)
Lemma block_dynamic_slice_value {T} (oob : nat → nat → T) M N x starts sizes :
  Generate.shaped M N x → 0 < sizes.1 → 0 < sizes.2 →
  starts.1 / sizes.1 * sizes.1 + sizes.1 ≤ M →
  starts.2 / sizes.2 * sizes.2 + sizes.2 ≤ N →
  (BlockSlice.block_dynamic_slice oob x starts sizes).2 =
  BlockSlice.dynamic_slice x
    (starts.1 / sizes.1 * sizes.1, starts.2 / sizes.2 * sizes.2) sizes.
Proof.
  intros Hx Hs1 Hs2 Hr Hc. destruct starts as [st0 st1], sizes as [s0 s1]. simpl in *.
  unfold BlockSlice.dynamic_slice, BlockSlice.dynamic_slice_kernel, BlockSlice.x_map.
  simpl. rewrite (shaped_num_cols M N) by (done || lia).
  pose proof Hx as [HM HN]. rewrite HM.
  rewrite !Nat.min_l by lia.
  apply (shaped_ext s0 s1).
  - apply (shaped_in_block oob (s0, s1)).
  - replace s0 with ((st0 / s0 + 1) * s0 - st0 / s0 * s0) at 1 by lia.
    replace s1 with ((st1 / s1 + 1) * s1 - st1 / s1 * s1) at 1 by lia.
    replace (st0 / s0 * s0 + s0) with ((st0 / s0 + 1) * s0) by lia.
    replace (st1 / s1 * s1 + s1) with ((st1 / s1 + 1) * s1) by lia.
    replace ((st0 / s0 + 1) * s0 - st0 / s0 * s0) with s0 by lia.
    replace ((st1 / s1 + 1) * s1 - st1 / s1 * s1) with s1 by lia.
    apply (shaped_block M N s0 s1 x (st0 / s0) (st1 / s1) Hx); lia.
  - intros a b Ha Hb. rewrite (get_in_block oob (s0, s1)) by done. simpl.
    replace (st0 / s0 * s0 + s0) with ((st0 / s0 + 1) * s0) by lia.
    replace (st1 / s1 * s1 + s1) with ((st1 / s1 + 1) * s1) by lia.
    change (Generate.get (py_slice (st1 / s1 * s1) ((st1 / s1 + 1) * s1) <$>
              py_slice (st0 / s0 * s0) ((st0 / s0 + 1) * s0) x) a b)
      with (Generate.get (Generate.block s0 s1 x (st0 / s0) (st1 / s1)) a b).
    rewrite get_block, decide_True by done.
    destruct (shaped_lookup M N x (st0 / s0 * s0 + a) Hx) as (row & Hrow & Hlen); [lia|].
    unfold Generate.get. rewrite Hrow. simpl.
    destruct (lookup_lt_is_Some_2 row (st1 / s1 * s1 + b)) as [v Hv]; [lia|].
    by rewrite Hv.
Qed.

(** X15.  On size-aligned starts whose slice lies inside the array, both
    checks of [block_dynamic_slice] pass and the value is that of
    [lax.dynamic_slice] at the same starts and sizes, whatever the pipeline
    reads outside the array. *)
Theorem block_dynamic_slice_aligned {T} (oob : nat → nat → T) M N x starts sizes :
  Generate.shaped M N x → 0 < sizes.1 → 0 < sizes.2 →
  starts.1 mod sizes.1 = 0 → starts.2 mod sizes.2 = 0 →
  starts.1 + sizes.1 ≤ M → starts.2 + sizes.2 ≤ N →
  BlockSlice.block_dynamic_slice oob x starts sizes =
  (None, BlockSlice.dynamic_slice x starts sizes).
Proof.
  intros Hx Hs1 Hs2 Ha1 Ha2 Hr Hc.
  pose proof (Nat.div_mod_eq starts.1 sizes.1) as Hd1.
  pose proof (Nat.div_mod_eq starts.2 sizes.2) as Hd2.
  assert (starts.1 / sizes.1 * sizes.1 = starts.1) as He1 by lia.
  assert (starts.2 / sizes.2 * sizes.2 = starts.2) as He2 by lia.
  pose proof (block_dynamic_slice_value oob M N x starts sizes Hx Hs1 Hs2) as Hv.
  rewrite He1, He2 in Hv. specialize (Hv Hr Hc).
  destruct starts as [st0 st1]. simpl in *. rewrite <- Hv.
  unfold BlockSlice.block_dynamic_slice. simpl. by rewrite Ha1, Ha2.
Qed.

Lemma block_dynamic_slice_aligned_witness :
  BlockSlice.block_dynamic_slice (λ _ _, 7%Z)
    [[0; 1; 2; 3]; [4; 5; 6; 7]; [8; 9; 10; 11]; [12; 13; 14; 15]]%Z (2, 0) (2, 2) =
  (None, BlockSlice.dynamic_slice
           [[0; 1; 2; 3]; [4; 5; 6; 7]; [8; 9; 10; 11]; [12; 13; 14; 15]]%Z (2, 0) (2, 2)).
Proof.
  apply (block_dynamic_slice_aligned (λ _ _, 7%Z) 4 4
           [[0; 1; 2; 3]; [4; 5; 6; 7]; [8; 9; 10; 11]; [12; 13; 14; 15]]%Z (2, 0) (2, 2)).
  - split; [reflexivity|repeat constructor].
  - simpl; lia.
  - simpl; lia.
  - reflexivity.
  - reflexivity.
  - simpl; lia.
  - simpl; lia.
Defined.

(** X16.  When a start is not a multiple of its size, [block_dynamic_slice]
    reports the error of the check and the value it computes is not the
    slice asked for: it is the slice that starts at the block boundary
    below, [starts - starts % sizes] on each axis. *)
Theorem block_dynamic_slice_misaligned {T} (oob : nat → nat → T) M N x starts sizes :
  Generate.shaped M N x → 0 < sizes.1 → 0 < sizes.2 →
  starts.1 mod sizes.1 ≠ 0 ∨ starts.2 mod sizes.2 ≠ 0 →
  starts.1 + sizes.1 ≤ M → starts.2 + sizes.2 ≤ N →
  BlockSlice.block_dynamic_slice oob x starts sizes =
  (Some "Starts must be divisible by size."%string,
   BlockSlice.dynamic_slice x
     (starts.1 - starts.1 mod sizes.1, starts.2 - starts.2 mod sizes.2) sizes).
Proof.
  intros Hx Hs1 Hs2 Hmis Hr Hc.
  pose proof (Nat.div_mod_eq starts.1 sizes.1) as Hd1.
  pose proof (Nat.div_mod_eq starts.2 sizes.2) as Hd2.
  assert (starts.1 / sizes.1 * sizes.1 = starts.1 - starts.1 mod sizes.1) as He1 by lia.
  assert (starts.2 / sizes.2 * sizes.2 = starts.2 - starts.2 mod sizes.2) as He2 by lia.
  pose proof (block_dynamic_slice_value oob M N x starts sizes Hx Hs1 Hs2) as Hv.
  rewrite He1, He2 in Hv. rewrite <- Hv by lia.
  unfold BlockSlice.block_dynamic_slice. simpl. f_equal.
  unfold BlockSlice.check.
  destruct (starts.1 mod sizes.1 =? 0) eqn:E1; [|done].
  destruct (starts.2 mod sizes.2 =? 0) eqn:E2; [|done].
  apply Nat.eqb_eq in E1, E2. lia.
Qed.

Lemma block_dynamic_slice_misaligned_witness :
  BlockSlice.block_dynamic_slice (λ _ _, 7%Z)
    [[0; 1; 2; 3]; [4; 5; 6; 7]; [8; 9; 10; 11]; [12; 13; 14; 15]]%Z (1, 2) (2, 2) =
  (Some "Starts must be divisible by size."%string,
   BlockSlice.dynamic_slice
     [[0; 1; 2; 3]; [4; 5; 6; 7]; [8; 9; 10; 11]; [12; 13; 14; 15]]%Z
     ((1, 2).1 - (1, 2).1 mod (2, 2).1, (1, 2).2 - (1, 2).2 mod (2, 2).2) (2, 2)).
Proof.
  apply (block_dynamic_slice_misaligned (λ _ _, 7%Z) 4 4
           [[0; 1; 2; 3]; [4; 5; 6; 7]; [8; 9; 10; 11]; [12; 13; 14; 15]]%Z (1, 2) (2, 2)).
  - split; [reflexivity|repeat constructor].
  - simpl; lia.
  - simpl; lia.
  - left. simpl. lia.
  - simpl; lia.
  - simpl; lia.
Defined.
